(** * AsyncQueue and checkSettingsValid: a shallow embedding and its properties

    The development follows two source units of mpc-framework-common:

    - [AsyncQueue] (the version with [close], [isClosed] and the parallel
      [pendingResolves] / [pendingRejects] arrays);
    - [checkSettingsValid] together with its helper [areSetsEqual].

    JavaScript objects that the queue creates or receives (promises, abort
    signals, the closures [wrapperFn] / [onAbort] / [reject]) live in an
    explicit store, the [World]; every method is a function on worlds.  *)

From stdpp Require Import base list strings pretty gmap.

(** ** Errors

    The source builds [new Error('Queue is closed')] and
    [new Error('Stream stopped')] and tells them apart by [err.message]. *)

Record JsError := MkError { message : string }.

#[global] Instance JsError_eq_dec : EqDecision JsError.
Proof. solve_decision. Defined.

Definition QueueClosed : JsError := MkError "Queue is closed".
Definition Cancelled : JsError := MkError "Stream stopped".

(** ** Closures and abort signals

    One call of [pop] that reaches the promise executor creates the three
    closures [wrapperFn], [onAbort] and [reject].  They share one environment:
    the promise they settle and the [abortSignal] argument of that call.  A
    closure is identified by that environment; the promise id is fresh per
    call, so the JavaScript identity test [r !== wrapperFn] is equality of
    environments. *)

Record PopClosure := { promiseId : nat; abortSignal : option nat }.

#[global] Instance PopClosure_eq_dec : EqDecision PopClosure.
Proof. solve_decision. Defined.

(** An [AbortSignal]: its [aborted] flag and the ['abort'] listeners, in
    registration order. *)
Record AbortSignal := { aborted : bool; listeners : list PopClosure }.

Section Model.
Context {T : Type}.

(** ** Promises *)

Inductive Settled :=
| Pending
| Fulfilled (value : T)
| Rejected (reason : JsError).

(** ** The queue object: the four fields of [class AsyncQueue<T>]. *)

Record AsyncQueue := {
  messages : list T;
  pendingResolves : list PopClosure;
  pendingRejects : list nat;
  closed : bool;
}.

(** ** Streams

    [stream(handler)] starts the async function [loop]; every activation of
    [loop] awaits one promise returned by [pop] and either re-enters [loop],
    completes, or fails (its own promise is rejected; nothing awaits it). *)

Inductive LoopState :=
| Awaiting (p : nat)
| Completed
| Failed (e : JsError).

Record Stream := { streamSignal : nat; loopState : LoopState }.

(** ** The world: one queue and the objects around it. *)

Record World := {
  queue : AsyncQueue;
  promises : list Settled;
  signals : list AbortSignal;
  streams : list Stream;
  dispatched : list (nat * T);
  unhandledRejections : list JsError;
}.

Definition newQueue : AsyncQueue :=
  {| messages := []; pendingResolves := []; pendingRejects := []; closed := false |}.

Definition newWorld : World :=
  {| queue := newQueue; promises := []; signals := []; streams := [];
     dispatched := []; unhandledRejections := [] |}.

(** Field updates. *)

Definition setMessages (ms : list T) (q : AsyncQueue) : AsyncQueue :=
  {| messages := ms; pendingResolves := pendingResolves q;
     pendingRejects := pendingRejects q; closed := closed q |}.

Definition setPendingResolves (rs : list PopClosure) (q : AsyncQueue) : AsyncQueue :=
  {| messages := messages q; pendingResolves := rs;
     pendingRejects := pendingRejects q; closed := closed q |}.

Definition setPendingRejects (rs : list nat) (q : AsyncQueue) : AsyncQueue :=
  {| messages := messages q; pendingResolves := pendingResolves q;
     pendingRejects := rs; closed := closed q |}.

Definition setClosed (b : bool) (q : AsyncQueue) : AsyncQueue :=
  {| messages := messages q; pendingResolves := pendingResolves q;
     pendingRejects := pendingRejects q; closed := b |}.

Definition setQueue (q : AsyncQueue) (w : World) : World :=
  {| queue := q; promises := promises w; signals := signals w;
     streams := streams w; dispatched := dispatched w;
     unhandledRejections := unhandledRejections w |}.

Definition setPromises (ps : list Settled) (w : World) : World :=
  {| queue := queue w; promises := ps; signals := signals w;
     streams := streams w; dispatched := dispatched w;
     unhandledRejections := unhandledRejections w |}.

Definition setSignals (ss : list AbortSignal) (w : World) : World :=
  {| queue := queue w; promises := promises w; signals := ss;
     streams := streams w; dispatched := dispatched w;
     unhandledRejections := unhandledRejections w |}.

Definition setStreams (ss : list Stream) (w : World) : World :=
  {| queue := queue w; promises := promises w; signals := signals w;
     streams := ss; dispatched := dispatched w;
     unhandledRejections := unhandledRejections w |}.

Definition setDispatched (d : list (nat * T)) (w : World) : World :=
  {| queue := queue w; promises := promises w; signals := signals w;
     streams := streams w; dispatched := d;
     unhandledRejections := unhandledRejections w |}.

Definition setUnhandledRejections (u : list JsError) (w : World) : World :=
  {| queue := queue w; promises := promises w; signals := signals w;
     streams := streams w; dispatched := dispatched w;
     unhandledRejections := u |}.

(** ** Promise primitives

    [new Promise(...)] allocates a pending promise; [resolve] and [reject]
    settle it once, later calls do nothing. *)

Definition newPromise (w : World) : nat * World :=
  (length (promises w), setPromises (promises w ++ [Pending]) w).

Definition settle (p : nat) (s : Settled) (w : World) : World :=
  match promises w !! p with
  | Some Pending => setPromises (<[p := s]> (promises w)) w
  | _ => w
  end.

Definition resolve (p : nat) (msg : T) (w : World) : World :=
  settle p (Fulfilled msg) w.

Definition reject (p : nat) (e : JsError) (w : World) : World :=
  settle p (Rejected e) w.

(** ** Abort-signal primitives

    [abortSignal?.aborted], [abortSignal?.addEventListener('abort', onAbort)]
    and [abortSignal?.removeEventListener('abort', onAbort)].  The optional
    chaining makes all three do nothing without a signal.  A listener that is
    already registered is not added again.  Signals are allocated by
    [newAbortController]; an id that was never allocated stands for a signal
    that never fires and holds no listeners. *)

Definition isAborted (sig : option nat) (w : World) : bool :=
  match sig with
  | Some s => match signals w !! s with
              | Some sg => aborted sg
              | None => false
              end
  | None => false
  end.

Definition addEventListener (c : PopClosure) (w : World) : World :=
  match abortSignal c with
  | Some s =>
      match signals w !! s with
      | Some sg =>
          if decide (c ∈ listeners sg) then w
          else setSignals
                 (<[s := {| aborted := aborted sg;
                            listeners := listeners sg ++ [c] |}]> (signals w)) w
      | None => w
      end
  | None => w
  end.

Definition removeEventListener (c : PopClosure) (w : World) : World :=
  match abortSignal c with
  | Some s =>
      match signals w !! s with
      | Some sg =>
          setSignals
            (<[s := {| aborted := aborted sg;
                       listeners := filter (λ l, l ≠ c) (listeners sg) |}]>
               (signals w)) w
      | None => w
      end
  | None => w
  end.

(** ** Array helpers: [indexOf] followed by [splice(index, 1)]. *)

Definition indexOf (x : nat) (l : list nat) : option nat :=
  fst <$> list_find (λ y, y = x) l.

Definition spliceReject (p : nat) (q : AsyncQueue) : AsyncQueue :=
  match indexOf p (pendingRejects q) with
  | Some rejectIndex => setPendingRejects (delete rejectIndex (pendingRejects q)) q
  | None => q
  end.

(** ** The closures of [pop] *)

Definition wrapperFn (c : PopClosure) (msg : T) (w : World) : World :=
  let w := removeEventListener c w in
  let w := setQueue (spliceReject (promiseId c) (queue w)) w in
  resolve (promiseId c) msg w.

Definition onAbort (c : PopClosure) (w : World) : World :=
  let w := setQueue
             (setPendingResolves
                (filter (λ r, r ≠ c) (pendingResolves (queue w))) (queue w)) w in
  let w := setQueue (spliceReject (promiseId c) (queue w)) w in
  let w := removeEventListener c w in
  reject (promiseId c) Cancelled w.

(** ** push *)

Inductive Completion :=
| Normal
| Throw (e : JsError).

Definition push (msg : T) (w : World) : Completion * World :=
  if closed (queue w) then (Throw QueueClosed, w)
  else
    match pendingResolves (queue w) with
    | pendingResolve :: rest =>
        (Normal,
         wrapperFn pendingResolve msg (setQueue (setPendingResolves rest (queue w)) w))
    | [] =>
        (Normal, setQueue (setMessages (messages (queue w) ++ [msg]) (queue w)) w)
    end.

(** ** pop

    [pop] is an [async] function: a [throw] rejects the returned promise, a
    [return v] fulfils it, and [return new Promise(...)] makes the returned
    promise follow the inner one.  The model identifies the returned promise
    with the inner one. *)

Definition pop (sig : option nat) (w : World) : nat * World :=
  let '(p, w) := newPromise w in
  if closed (queue w) then (p, reject p QueueClosed w)
  else
    match messages (queue w) with
    | msg :: rest =>
        (p, resolve p msg (setQueue (setMessages rest (queue w)) w))
    | [] =>
        if isAborted sig w then (p, reject p Cancelled w)
        else if closed (queue w) then (p, reject p QueueClosed w)
        else
          let c := {| promiseId := p; abortSignal := sig |} in
          let w := addEventListener c w in
          let w := setQueue
                     (setPendingResolves (pendingResolves (queue w) ++ [c]) (queue w)) w in
          let w := setQueue
                     (setPendingRejects (pendingRejects (queue w) ++ [p]) (queue w)) w in
          (p, w)
    end.

(** ** close and isClosed *)

Definition close (w : World) : World :=
  if closed (queue w) then w
  else
    let w := setQueue (setClosed true (queue w)) w in
    let rejects := pendingRejects (queue w) in
    let w := setQueue (setPendingResolves [] (queue w)) w in
    let w := setQueue (setPendingRejects [] (queue w)) w in
    let w := foldl (λ w r, reject r QueueClosed w) w rejects in
    setQueue (setMessages [] (queue w)) w.

Definition isClosed (w : World) : bool := closed (queue w).

(** ** AbortController

    [new AbortController()] allocates a signal; [abort()] does nothing on an
    aborted signal, otherwise it sets [aborted] and calls the listeners that
    are registered at that moment, in registration order. *)

Definition newAbortController (w : World) : nat * World :=
  (length (signals w),
   setSignals (signals w ++ [{| aborted := false; listeners := [] |}]) w).

Definition abort (s : nat) (w : World) : World :=
  match signals w !! s with
  | Some sg =>
      if aborted sg then w
      else
        let w := setSignals
                   (<[s := {| aborted := true; listeners := listeners sg |}]>
                      (signals w)) w in
        foldl (λ w c, onAbort c w) w (listeners sg)
  | None => w
  end.

End Model.

Arguments Settled : clear implicits.
Arguments AsyncQueue : clear implicits.
Arguments World : clear implicits.

Section Streams.
Context {T : Type}.

(** ** stream

    [stream(handler)] creates an [AbortController] and calls [loop()], which
    runs up to its [await]: it calls [pop(signal)] and suspends.  The returned
    handle's [stop()] aborts the controller.  The handle is the index of the
    stream. *)

Definition setLoopState (k : nat) (st : LoopState) (w : World T) : World T :=
  match streams w !! k with
  | Some s =>
      setStreams (<[k := {| streamSignal := streamSignal s; loopState := st |}]> (streams w)) w
  | None => w
  end.

Definition stream (w : World T) : nat * World T :=
  let '(signal, w) := newAbortController w in
  let '(p, w) := pop (Some signal) w in
  (length (streams w),
   setStreams (streams w ++ [{| streamSignal := signal; loopState := Awaiting p |}]) w).

Definition stop (k : nat) (w : World T) : World T :=
  match streams w !! k with
  | Some s => abort (streamSignal s) w
  | None => w
  end.

(** The [catch] block of [loop]: an error whose message is ['Stream stopped']
    ends the activation normally; any other error is thrown again, which
    rejects the promise of the activation.  Nobody holds that promise: the
    rejection is unhandled. *)

Definition catchBlock (k : nat) (err : JsError) (w : World T) : World T :=
  if decide (message err = "Stream stopped") then setLoopState k Completed w
  else
    setLoopState k (Failed err)
      (setUnhandledRejections (unhandledRejections w ++ [err]) w).

(** ** Calls a client can make, and what they return. *)

Inductive Call :=
| CPush (msg : T)
| CPop (sig : option nat)
| CClose
| CIsClosed
| CNewAbortController
| CAbort (s : nat)
| CStream
| CStop (k : nat).

Inductive Result :=
| RCompletion (c : Completion)
| RPromise (p : nat)
| RBool (b : bool)
| RSignal (s : nat)
| RHandle (k : nat).

Definition exec (c : Call) (w : World T) : Result * World T :=
  match c with
  | CPush msg => let '(r, w) := push msg w in (RCompletion r, w)
  | CPop sig => let '(p, w) := pop sig w in (RPromise p, w)
  | CClose => (RCompletion Normal, close w)
  | CIsClosed => (RBool (isClosed w), w)
  | CNewAbortController => let '(s, w) := newAbortController w in (RSignal s, w)
  | CAbort s => (RCompletion Normal, abort s w)
  | CStream => let '(k, w) := stream w in (RHandle k, w)
  | CStop k => (RCompletion Normal, stop k w)
  end.

Definition execAll (cs : list Call) (w : World T) : World T :=
  foldl (λ w c, (exec c w).2) w cs.

(** ** Resuming a suspended loop

    The continuation of [await this.pop(signal)] in stream [k]; it does
    nothing while the awaited promise is pending.  The handler is client
    code: in one invocation it makes the calls [body], in order, and then
    returns ([throws = None]) or throws ([throws = Some err]).  The invocation
    is recorded in [dispatched].  Which continuation runs next is left to the
    execution, so every order of the microtask queue is covered. *)

Definition resume (k : nat) (body : list Call) (throws : option JsError)
    (w : World T) : World T :=
  match streams w !! k with
  | Some s =>
      match loopState s with
      | Awaiting p =>
          match promises w !! p with
          | Some (Fulfilled msg) =>
              let w := setDispatched (dispatched w ++ [(k, msg)]) w in
              let w := execAll body w in
              match throws with
              | Some err => catchBlock k err w
              | None =>
                  let '(p', w) := pop (Some (streamSignal s)) w in
                  setLoopState k (Awaiting p') w
              end
          | Some (Rejected err) => catchBlock k err w
          | _ => w
          end
      | _ => w
      end
  | None => w
  end.

(** ** Executions: client calls interleaved with resumed continuations. *)

Inductive Event :=
| ECall (c : Call)
| EResume (k : nat) (body : list Call) (throws : option JsError).

Definition step (e : Event) (w : World T) : World T :=
  match e with
  | ECall c => (exec c w).2
  | EResume k body throws => resume k body throws w
  end.

Definition run (es : list Event) (w : World T) : World T :=
  foldl (λ w e, step e w) w es.

(** A producer that pushes a list of values and a consumer that pops [n]
    times without a signal, each collecting what its calls return. *)

Definition pushAll (vs : list T) (w : World T) : list Completion * World T :=
  foldl (λ '(rs, w) v, let '(r, w) := push v w in (rs ++ [r], w)) ([], w) vs.

Definition popN (n : nat) (w : World T) : list nat * World T :=
  Nat.iter n (λ '(ps, w), let '(p, w) := pop None w in (ps ++ [p], w)) ([], w).

End Streams.

Arguments Call : clear implicits.
Arguments Event : clear implicits.

(** * checkSettingsValid

    JavaScript [Set<string>] is a [gset string] ([size], [has], iteration over
    the elements); [Record<string, X>] is a [gmap string X].  Both are used by
    the source only through membership and size, which do not depend on the
    iteration order. *)

Record MpcParticipantSettings := {
  name : option string;
  inputs : list string;
  outputs : list string;
}.

Definition MpcSettings := list MpcParticipantSettings.

(** The circuit type that carries name-to-wire records. *)
Record CircuitInfo := {
  input_name_to_wire_index : gmap string nat;
  constants : gmap string (string * nat);
  output_name_to_wire_index : gmap string nat;
}.

Record Circuit := { bristol : string; info : CircuitInfo }.

(** The circuit type that carries lists of [CircuitIOInfo] (the remaining
    fields [type], [constants] and [mpcSettings] are not read by the validator). *)
Record CircuitIOInfo := { ioName : string; ioAddress : nat; ioWidth : nat }.

Record IOCircuit := {
  ioBristol : string;
  ioInputs : list CircuitIOInfo;
  ioOutputs : list CircuitIOInfo;
}.

Section Validator.
Context {V : Type}.

Definition objectKeys {X : Type} (o : gmap string X) : list string :=
  (map_to_list o).*1.

Definition newSet (l : list string) : gset string := list_to_set l.

Definition has (s : gset string) (x : string) : bool := bool_decide (x ∈ s).

(** [for (const item of a) { if (!b.has(item)) return false; }] *)
Fixpoint allIn (items : list string) (b : gset string) : bool :=
  match items with
  | [] => true
  | item :: rest => if negb (has b item) then false else allIn rest b
  end.

Definition areSetsEqual (a b : gset string) : bool :=
  if negb (size a =? size b) then false
  else allIn (elements a) b.

(** The inner loop over [participant.inputs], with its early return. *)
Fixpoint claimInputs (ins : list string) (participantInputs : gset string)
    : JsError + gset string :=
  match ins with
  | [] => inr participantInputs
  | input :: rest =>
      if has participantInputs input
      then inl (MkError ("Duplicate input: " +:+ input))
      else claimInputs rest ({[input]} ∪ participantInputs)
  end.

(** The outer loop over [mpcSettings]. *)
Fixpoint claimAll (mpcSettings : MpcSettings) (participantInputs : gset string)
    : JsError + gset string :=
  match mpcSettings with
  | [] => inr participantInputs
  | participant :: rest =>
      match claimInputs (inputs participant) participantInputs with
      | inl err => inl err
      | inr participantInputs => claimAll rest participantInputs
      end
  end.

(** The loops over [participant.outputs]. *)
Fixpoint checkOutputNames (outs : list string) (circuitOutputs : gset string)
    : option JsError :=
  match outs with
  | [] => None
  | output :: rest =>
      if negb (has circuitOutputs output)
      then Some (MkError ("Output " +:+ output +:+ " is not in the circuit"))
      else checkOutputNames rest circuitOutputs
  end.

Fixpoint checkOutputs (mpcSettings : MpcSettings) (circuitOutputs : gset string)
    : option JsError :=
  match mpcSettings with
  | [] => None
  | participant :: rest =>
      match checkOutputNames (outputs participant) circuitOutputs with
      | Some err => Some err
      | None => checkOutputs rest circuitOutputs
      end
  end.

(** [mpcSettings.find((participant, i) => (participant.name ?? i.toString()) === name)],
    scanning from index [i]. *)
Fixpoint findFrom (i : nat) (mpcSettings : MpcSettings) (nm : string)
    : option MpcParticipantSettings :=
  match mpcSettings with
  | [] => None
  | participant :: rest =>
      if decide (default (pretty i) (name participant) = nm) then Some participant
      else findFrom (S i) rest nm
  end.

(** The body of [checkSettingsValid] once the two circuit name sets exist. *)
Definition checkAgainst (circuitInputs circuitOutputs : gset string)
    (mpcSettings : MpcSettings) (nm : string) (input : gmap string V)
    : option JsError :=
  match claimAll mpcSettings ∅ with
  | inl err => Some err
  | inr participantInputs =>
      if negb (areSetsEqual participantInputs circuitInputs)
      then Some (MkError "Participant inputs do not match the circuit")
      else
        match checkOutputs mpcSettings circuitOutputs with
        | Some err => Some err
        | None =>
            let inputKeys := newSet (objectKeys input) in
            match findFrom 0 mpcSettings nm with
            | None =>
                Some (MkError ("Could not find participant with name " +:+ nm))
            | Some currentParticipant =>
                let requiredInputs := newSet (inputs currentParticipant) in
                if negb (areSetsEqual inputKeys requiredInputs)
                then Some (MkError "Input keys do not match participant inputs")
                else None
            end
        end
  end.

(** [checkSettingsValid] over a circuit with name-to-wire records. *)
Definition checkSettingsValid (circuit : Circuit) (mpcSettings : MpcSettings)
    (nm : string) (input : gmap string V) : option JsError :=
  let circuitInputs := newSet (objectKeys (input_name_to_wire_index (info circuit))) in
  let circuitOutputs := newSet (objectKeys (output_name_to_wire_index (info circuit))) in
  checkAgainst circuitInputs circuitOutputs mpcSettings nm input.

(** [checkSettingsValid] over a circuit with [CircuitIOInfo] lists. *)
Definition checkSettingsValidIO (circuit : IOCircuit) (mpcSettings : MpcSettings)
    (nm : string) (input : gmap string V) : option JsError :=
  let circuitInputs := newSet (ioName <$> ioInputs circuit) in
  let circuitOutputs := newSet (ioName <$> ioOutputs circuit) in
  checkAgainst circuitInputs circuitOutputs mpcSettings nm input.

(** ** The five rejection conditions, as the specification words them. *)

(** The participant at index [i] answers to [nm]. *)
Definition answersTo (i : nat) (p : MpcParticipantSettings) (nm : string) : Prop :=
  default (pretty i) (name p) = nm.

(** The calling participant: the first one that answers to [nm]. *)
Definition callingParticipant (mpcSettings : MpcSettings) (nm : string)
    (p : MpcParticipantSettings) : Prop :=
  ∃ i, mpcSettings !! i = Some p ∧ answersTo i p nm ∧
       ∀ j q, j < i → mpcSettings !! j = Some q → ¬ answersTo j q nm.

Definition claimedByMoreThanOne (mpcSettings : MpcSettings) : Prop :=
  ∃ i j p q x, i ≠ j ∧ mpcSettings !! i = Some p ∧ mpcSettings !! j = Some q ∧
               x ∈ inputs p ∧ x ∈ inputs q.

Definition claimedInputs (mpcSettings : MpcSettings) : gset string :=
  ⋃ ((λ p, list_to_set (inputs p)) <$> mpcSettings).

Definition inputsMismatch (circuitInputs : gset string) (mpcSettings : MpcSettings) : Prop :=
  claimedInputs mpcSettings ≠ circuitInputs.

Definition unknownOutput (circuitOutputs : gset string) (mpcSettings : MpcSettings) : Prop :=
  ∃ p o, p ∈ mpcSettings ∧ o ∈ outputs p ∧ o ∉ circuitOutputs.

Definition unknownCaller (mpcSettings : MpcSettings) (nm : string) : Prop :=
  ∀ i p, mpcSettings !! i = Some p → ¬ answersTo i p nm.

Definition suppliedKeysMismatch (mpcSettings : MpcSettings) (nm : string)
    (input : gmap string V) : Prop :=
  ∃ p, callingParticipant mpcSettings nm p ∧
       dom input ≠ list_to_set (inputs p).

(** The condition the code tests in place of [claimedByMoreThanOne]: a name
    occurs twice in the concatenation of all participants' input lists. *)
Definition claimedTwice (mpcSettings : MpcSettings) : Prop :=
  ¬ NoDup (mpcSettings ≫= inputs).

Definition rejectedAsWorded (circuitInputs circuitOutputs : gset string)
    (mpcSettings : MpcSettings) (nm : string) (input : gmap string V) : Prop :=
  claimedByMoreThanOne mpcSettings ∨
  inputsMismatch circuitInputs mpcSettings ∨
  unknownOutput circuitOutputs mpcSettings ∨
  unknownCaller mpcSettings nm ∨
  suppliedKeysMismatch mpcSettings nm input.

Definition rejectedByCode (circuitInputs circuitOutputs : gset string)
    (mpcSettings : MpcSettings) (nm : string) (input : gmap string V) : Prop :=
  claimedTwice mpcSettings ∨
  inputsMismatch circuitInputs mpcSettings ∨
  unknownOutput circuitOutputs mpcSettings ∨
  unknownCaller mpcSettings nm ∨
  suppliedKeysMismatch mpcSettings nm input.

End Validator.

(** The circuit and settings of the validator's test file. *)

Definition aPlusB : Circuit :=
  {| bristol := "";
     info := {| input_name_to_wire_index := {[ "b" := 1; "a" := 0 ]};
                constants := ∅;
                output_name_to_wire_index := {[ "c" := 2 ]} |} |}.

Definition aliceAndBob : MpcSettings :=
  [ {| name := Some "alice"; inputs := ["a"]; outputs := ["c"] |};
    {| name := Some "bob"; inputs := ["b"]; outputs := ["c"] |} ].

(** A circuit with the single input [a] and one participant who lists [a]
    twice. *)
Definition oneInput : Circuit :=
  {| bristol := "";
     info := {| input_name_to_wire_index := {[ "a" := 0 ]};
                constants := ∅;
                output_name_to_wire_index := {[ "c" := 1 ]} |} |}.

Definition aliceTwice : MpcSettings :=
  [ {| name := Some "alice"; inputs := ["a"; "a"]; outputs := ["c"] |} ].


(** * Further source units

    - [AsyncQueueStore.get] (and [BufferQueueStore.get], which is the same
      code over another queue class), in its two versions: keyed by one
      string, and keyed by the template [`${from}-${to}-${channel}`];
    - the version of [AsyncQueue] that keeps its waiters in one array,
      [pendingPops], and has no abort signals. *)

(** ** Queue stores

    The store maps keys to queue objects.  Objects have identity: the same
    object is returned for the same key, and whoever holds it calls its
    methods.  The model keeps the objects in a list, [objects], and the
    JavaScript [Map] from keys to positions in that list.  [newAsyncQueue]
    stands for [new AsyncQueue<T>()] (or [new BufferQueue()]). *)

Section Store.
Context {Q : Type}.
Variable newAsyncQueue : Q.

Record AsyncQueueStore := { aqs : gmap string nat; objects : list Q }.

Definition newStore : AsyncQueueStore := {| aqs := ∅; objects := [] |}.

(** [Map.prototype.has] *)
Definition mapHas (m : gmap string nat) (key : string) : bool :=
  bool_decide (is_Some (m !! key)).

(** [get(key)].  The source returns [this.aqs.get(key)!]; the [!] is erased
    at run time, so an absent key would give [undefined], here [None]. *)
Definition get (key : string) (st : AsyncQueueStore) : option nat * AsyncQueueStore :=
  let st :=
    if negb (mapHas (aqs st) key)
    then {| aqs := <[key := length (objects st)]> (aqs st);
            objects := objects st ++ [newAsyncQueue] |}
    else st in
  (aqs st !! key, st).

(** The key of [get(from, to, channel)], on the strings that the template
    literal makes of its arguments. *)
Definition templateKey (from to channel : string) : string :=
  from +:+ "-" +:+ to +:+ "-" +:+ channel.

Definition getChannel (from to channel : string) (st : AsyncQueueStore)
    : option nat * AsyncQueueStore :=
  get (templateKey from to channel) st.

(** A method call on the queue object [r]: the object changes in place. *)
Definition method (r : nat) (f : Q → Q) (st : AsyncQueueStore) : AsyncQueueStore :=
  {| aqs := aqs st; objects := alter f r (objects st) |}.

(** What clients of a store can do to it. *)
Inductive StoreCall :=
| SGet (key : string)
| SMethod (r : nat) (f : Q → Q).

Definition storeStep (c : StoreCall) (st : AsyncQueueStore) : AsyncQueueStore :=
  match c with
  | SGet key => (get key st).2
  | SMethod r f => method r f st
  end.

Definition storeRun (cs : list StoreCall) (st : AsyncQueueStore) : AsyncQueueStore :=
  foldl (λ st c, storeStep c st) st cs.

Definition storeReachable (st : AsyncQueueStore) : Prop :=
  ∃ cs, st = storeRun cs newStore.

(** Every key names an existing object, and no object has two keys. *)
Record storeOk (st : AsyncQueueStore) : Prop := {
  ok_bound : ∀ key r, aqs st !! key = Some r → r < length (objects st);
  ok_inj : ∀ k k' r, aqs st !! k = Some r → aqs st !! k' = Some r → k = k';
}.

End Store.

Arguments AsyncQueueStore : clear implicits.
Arguments StoreCall : clear implicits.
Arguments newStore {Q}.

(** Strings without the separator of [templateKey]. *)
Fixpoint dashFree (s : string) : bool :=
  match s with
  | EmptyString => true
  | String c s => negb (String.eqb (String c EmptyString) "-") && dashFree s
  end.

(** ** The queue with [pendingPops]

    One waiter is the pair [{resolve, reject}] of the functions of one
    promise; the model names it by that promise.  [Promise.resolve(x)] and
    [Promise.reject(e)] allocate a promise that is settled from the start. *)

Module PendingPops.
Section Queue.
Context {T : Type}.

Record AsyncQueue := {
  queue : list T;
  pendingPops : list nat;
  closed : bool;
}.

Record World := { this : AsyncQueue; promises : list (Settled T) }.

Definition newWorld : World :=
  {| this := {| queue := []; pendingPops := []; closed := false |};
     promises := [] |}.

Definition settle (p : nat) (s : Settled T) (ps : list (Settled T))
    : list (Settled T) :=
  match ps !! p with
  | Some Pending => <[p := s]> ps
  | _ => ps
  end.

Definition push (item : T) (w : World) : Completion * World :=
  if closed (this w) then (Throw QueueClosed, w)
  else
    match pendingPops (this w) with
    | p :: rest =>
        (Normal,
         {| this := {| queue := queue (this w); pendingPops := rest;
                       closed := closed (this w) |};
            promises := settle p (Fulfilled item) (promises w) |})
    | [] =>
        (Normal,
         {| this := {| queue := queue (this w) ++ [item];
                       pendingPops := pendingPops (this w);
                       closed := closed (this w) |};
            promises := promises w |})
    end.

Definition pop (w : World) : nat * World :=
  let p := length (promises w) in
  match queue (this w) with
  | item :: rest =>
      (p, {| this := {| queue := rest; pendingPops := pendingPops (this w);
                        closed := closed (this w) |};
             promises := promises w ++ [Fulfilled item] |})
  | [] =>
      if negb (closed (this w)) then
        (p, {| this := {| queue := queue (this w);
                          pendingPops := pendingPops (this w) ++ [p];
                          closed := closed (this w) |};
               promises := promises w ++ [Pending] |})
      else
        (p, {| this := this w;
               promises := promises w ++ [Rejected QueueClosed] |})
  end.

Definition close (w : World) : World :=
  {| this := {| queue := queue (this w); pendingPops := []; closed := true |};
     promises := foldl (λ ps p, settle p (Rejected QueueClosed) ps)
                       (promises w) (pendingPops (this w)) |}.

Definition isClosed (w : World) : bool := closed (this w).

Inductive Call :=
| CPush (item : T)
| CPop
| CClose.

Definition exec (c : Call) (w : World) : World :=
  match c with
  | CPush item => (push item w).2
  | CPop => (pop w).2
  | CClose => close w
  end.

Definition execAll (cs : list Call) (w : World) : World :=
  foldl (λ w c, exec c w) w cs.

Definition reachable (w : World) : Prop := ∃ cs, w = execAll cs newWorld.

(** A producer that pushes a list of items. *)
Definition pushAll (items : list T) (w : World) : list Completion * World :=
  foldl (λ '(rs, w) item, let '(r, w) := push item w in (rs ++ [r], w))
        ([], w) items.

(** A consumer that pops [n] times, collecting the promises. *)
Definition popN (n : nat) (w : World) : list nat * World :=
  Nat.iter n (λ '(ps, w), let '(p, w) := pop w in (ps ++ [p], w)) ([], w).

(** What the waiters look like in a sound world. *)
Record wellFormed (w : World) : Prop := {
  wf_nodup : NoDup (pendingPops (this w));
  wf_pending : ∀ p, p ∈ pendingPops (this w) → promises w !! p = Some Pending;
  wf_exclusive : queue (this w) = [] ∨ pendingPops (this w) = [];
  wf_closed : closed (this w) = true → pendingPops (this w) = [];
}.

End Queue.

Arguments AsyncQueue : clear implicits.
Arguments World : clear implicits.
Arguments Call : clear implicits.

End PendingPops.

(** * Invariants of the queue *)

(** What [indexOf] followed by [splice] leaves: the list without the first
    occurrence of [p]. *)
Fixpoint removeFirst (p : nat) (l : list nat) : list nat :=
  match l with
  | [] => []
  | x :: l => if decide (x = p) then l else x :: removeFirst p l
  end.

Section Invariants.
Context {T : Type}.

(** The buffer and the waiter list are not both non-empty. *)
Definition exclusive (w : World T) : Prop :=
  messages (queue w) = [] ∨ pendingResolves (queue w) = [].

(** A closure is consistent with the queue: its promise exists, and if its
    [reject] is still listed then its [wrapperFn] is listed too. *)
Definition closureOk (w : World T) (c : PopClosure) : Prop :=
  promiseId c < length (promises w) ∧
  (promiseId c ∈ pendingRejects (queue w) → c ∈ pendingResolves (queue w)).

Record wellFormed (w : World T) : Prop := {
  wf_parallel : pendingRejects (queue w) = promiseId <$> pendingResolves (queue w);
  wf_nodup : NoDup (pendingRejects (queue w));
  wf_pending : ∀ c, c ∈ pendingResolves (queue w) → promises w !! promiseId c = Some Pending;
  wf_listeners : ∀ s sg c, signals w !! s = Some sg → c ∈ listeners sg → closureOk w c;
  wf_home : ∀ s sg c, signals w !! s = Some sg → c ∈ listeners sg → abortSignal c = Some s;
  wf_exclusive : exclusive w;
  wf_closed : closed (queue w) = true →
              messages (queue w) = [] ∧ pendingResolves (queue w) = [];
}.

(** The world after the registering branch of [pop]: the executor has found
    the signal not aborted and the queue open. *)
Definition registered (sig : option nat) (w : World T) : World T :=
  let p := length (promises w) in
  let c := {| promiseId := p; abortSignal := sig |} in
  let w := addEventListener c (setPromises (promises w ++ [Pending]) w) in
  let w := setQueue (setPendingResolves (pendingResolves (queue w) ++ [c]) (queue w)) w in
  setQueue (setPendingRejects (pendingRejects (queue w) ++ [p]) (queue w)) w.

(** The sweep of [close]: [pendingRejects.forEach(reject => reject(...))]. *)
Definition rejectAll (rejects : list nat) (w : World T) : World T :=
  foldl (λ w r, reject r QueueClosed w) w rejects.

(** The dispatch of the ['abort'] event to the listeners [l]. *)
Definition fireAll (l : list PopClosure) (w : World T) : World T :=
  foldl (λ w c, onAbort c w) w l.

(** Setting the [aborted] flag of signal [s]. *)
Definition markAborted (s : nat) (sg : AbortSignal) (w : World T) : World T :=
  setSignals (<[s := {| aborted := true; listeners := listeners sg |}]> (signals w)) w.

(** From [w] to [w'] nothing was delivered: the closed flag and the buffer are
    the same and every promise fulfilled in [w'] was fulfilled in [w]. *)
Definition quiet (w w' : World T) : Prop :=
  closed (queue w') = closed (queue w) ∧
  messages (queue w') = messages (queue w) ∧
  ∀ p v, promises w' !! p = Some (Fulfilled v) → promises w !! p = Some (Fulfilled v).

(** From [w] to [w'] every settled promise kept its outcome. *)
Definition settledKept (w w' : World T) : Prop :=
  ∀ p y, promises w !! p = Some y → y ≠ Pending → promises w' !! p = Some y.

Definition reachable (w : World T) : Prop := ∃ es, w = run es newWorld.

(** A loop activation of stream [k] ends silently in [w'], started from [w]:
    it completes, no handler is invoked and no error surfaces. *)
Definition endsSilently (k : nat) (w w' : World T) : Prop :=
  (∃ s, streams w' !! k = Some s ∧ loopState s = Completed) ∧
  dispatched w' = dispatched w ∧
  unhandledRejections w' = unhandledRejections w.

(** The handler invocations of stream [k]. *)
Definition dispatchedTo (k : nat) (w : World T) : list (nat * T) :=
  filter (λ d, d.1 = k) (dispatched w).

(** The specification's sentence on shutdown of a [stream]: whenever the
    promise a loop awaits is rejected with [QueueClosed], resuming the loop
    ends it silently. *)
Definition closeEndsStreamSilently : Prop :=
  ∀ (w : World T) k st p body throws,
    streams w !! k = Some st → loopState st = Awaiting p →
    promises w !! p = Some (Rejected QueueClosed) →
    endsSilently k w (resume k body throws w).

End Invariants.

Arguments closeEndsStreamSilently : clear implicits.

(** * Listeners and waiters *)

Section ListenerInvariants.
Context {T : Type}.

(** While the queue is open, every registered ['abort'] listener belongs to a
    pop that is still waiting. *)
Definition listenersWait (w : World T) : Prop :=
  closed (queue w) = false →
  ∀ s sg c, signals w !! s = Some sg → c ∈ listeners sg →
            c ∈ pendingResolves (queue w).

(** A signal that has fired holds no listener of the queue. *)
Definition firedSignalsBare (w : World T) : Prop :=
  ∀ s sg, signals w !! s = Some sg → aborted sg = true → listeners sg = [].

Definition tidy (w : World T) : Prop :=
  wellFormed w ∧ listenersWait w ∧ firedSignalsBare w.

(** A handler that does nothing, resumed [n] times on stream [k]. *)
Definition resumeN (k n : nat) (w : World T) : World T :=
  Nat.iter n (resume k [] None) w.

End ListenerInvariants.

(** * Properties of the queue *)

Section Fifo.
Context {T : Type}.
Implicit Types (w : World T) (q : AsyncQueue T) (c : PopClosure) (p : nat).
Implicit Types (msg v : T) (e : JsError) (s : nat) (sig : option nat).

(** ** Settling promises *)

Lemma settle_queue p (x : Settled T) w : queue (settle p x w) = queue w.
Proof. unfold settle. by repeat case_match. Qed.

Lemma settle_signals p (x : Settled T) w : signals (settle p x w) = signals w.
Proof. unfold settle. by repeat case_match. Qed.

Lemma settle_streams p (x : Settled T) w : streams (settle p x w) = streams w.
Proof. unfold settle. by repeat case_match. Qed.

Lemma settle_dispatched p (x : Settled T) w : dispatched (settle p x w) = dispatched w.
Proof. unfold settle. by repeat case_match. Qed.

Lemma settle_unhandled p (x : Settled T) w :
  unhandledRejections (settle p x w) = unhandledRejections w.
Proof. unfold settle. by repeat case_match. Qed.

Lemma settle_length p (x : Settled T) w :
  length (promises (settle p x w)) = length (promises w).
Proof. unfold settle. repeat case_match; simpl; by rewrite ?length_insert. Qed.

Lemma settle_lookup_ne p p' (x : Settled T) w :
  p ≠ p' → promises (settle p x w) !! p' = promises w !! p'.
Proof.
  intros Hne. unfold settle. repeat case_match; simpl; try done.
  by rewrite list_lookup_insert_ne.
Qed.

Lemma settle_pending p (x : Settled T) w :
  promises w !! p = Some Pending → promises (settle p x w) !! p = Some x.
Proof.
  intros Hp. unfold settle. rewrite Hp. simpl.
  apply list_lookup_insert_eq. by eapply lookup_lt_Some.
Qed.

(** A settled promise never changes again. *)
Lemma settle_keeps p p' (x y : Settled T) w :
  promises w !! p' = Some y → y ≠ Pending →
  promises (settle p x w) !! p' = Some y.
Proof.
  intros Hy Hne. destruct (decide (p = p')) as [->|Hpp].
  - unfold settle. rewrite Hy. by destruct y.
  - by rewrite settle_lookup_ne.
Qed.

(** Whatever is fulfilled after a rejection was fulfilled before it. *)
Lemma reject_fulfilled p p' e v w :
  promises (reject p e w) !! p' = Some (Fulfilled v) →
  promises w !! p' = Some (Fulfilled v).
Proof.
  unfold reject. destruct (decide (p = p')) as [->|Hpp].
  - unfold settle. destruct (promises w !! p') as [[]|] eqn:Hp; simpl;
      rewrite ?Hp; try done.
    rewrite list_lookup_insert_eq; [done|]. by eapply lookup_lt_Some.
  - by rewrite settle_lookup_ne.
Qed.

Lemma settle_fresh (ps : list (Settled T)) (x : Settled T) w :
  settle (length ps) x (setPromises (ps ++ [Pending]) w) = setPromises (ps ++ [x]) w.
Proof.
  unfold settle. simpl. rewrite lookup_app_r; [|lia].
  rewrite Nat.sub_diag. simpl. unfold setPromises. simpl. f_equal.
  rewrite insert_app_r_alt; [|lia]. by rewrite Nat.sub_diag.
Qed.

(** ** FIFO delivery *)

Lemma push_buffers v w :
  closed (queue w) = false → pendingResolves (queue w) = [] →
  push v w = (Normal, setQueue (setMessages (messages (queue w) ++ [v]) (queue w)) w).
Proof. intros Hc Hr. unfold push. by rewrite Hc, Hr. Qed.

Lemma pop_buffered sig msg rest w :
  closed (queue w) = false → messages (queue w) = msg :: rest →
  pop sig w =
    (length (promises w),
     setPromises (promises w ++ [Fulfilled msg])
       (setQueue (setMessages rest (queue w)) w)).
Proof.
  intros Hc Hm. unfold pop, newPromise. simpl. rewrite Hc, Hm.
  f_equal. unfold resolve.
  by rewrite <- (settle_fresh (promises w) (Fulfilled msg)
                (setQueue (setMessages rest (queue w)) w)).
Qed.

Lemma pushAll_buffers vs : ∀ rs w,
  closed (queue w) = false → pendingResolves (queue w) = [] →
  foldl (λ '(rs, w) v, let '(r, w) := push v w in (rs ++ [r], w)) (rs, w) vs =
    (rs ++ replicate (length vs) Normal,
     setQueue (setMessages (messages (queue w) ++ vs) (queue w)) w).
Proof.
  induction vs as [|v vs IH]; intros rs w Hc Hr; simpl.
  - rewrite !app_nil_r. by destruct w as [[] ?].
  - rewrite push_buffers by done. rewrite IH by done. simpl.
    rewrite <- !app_assoc. done.
Qed.

Lemma popN_buffered (ms : list T) : ∀ rest w,
  closed (queue w) = false → messages (queue w) = ms ++ rest →
  popN (length ms) w =
    (seq (length (promises w)) (length ms),
     setPromises (promises w ++ (Fulfilled <$> ms))
       (setQueue (setMessages rest (queue w)) w)).
Proof.
  induction ms as [|m ms IH] using rev_ind; intros rest w Hc Hm.
  - simpl in *. rewrite app_nil_r. destruct w as [[] ?]; simpl in *. by subst.
  - rewrite length_app, Nat.add_1_r, seq_S. unfold popN in *.
    rewrite Nat.iter_succ. rewrite <- app_assoc in Hm. rewrite (IH _ _ Hc Hm).
    erewrite pop_buffered; [|done|done]. cbn [promises setPromises setQueue queue].
    rewrite length_app, length_fmap. f_equal.
    rewrite fmap_app, app_assoc. done.
Qed.

(** C1: on an open queue with no pending waiters, every push of [vs] returns
    normally; popping afterwards (no cancellation signal) settles the promises
    of the pops, in the order of the pops, with what was buffered before
    followed by [vs] in push order.  On a queue whose buffer was empty,
    [length vs] pops return exactly [vs], in order. *)
Theorem fifo_delivery w (vs : list T) :
  closed (queue w) = false →
  pendingResolves (queue w) = [] →
  ∃ w1,
    pushAll vs w = (replicate (length vs) Normal, w1) ∧
    (∃ ps w2,
       popN (length (messages (queue w) ++ vs)) w1 = (ps, w2) ∧
       Forall2 (λ p v, promises w2 !! p = Some (Fulfilled v)) ps
         (messages (queue w) ++ vs)) ∧
    (messages (queue w) = [] →
     ∃ ps w2,
       popN (length vs) w1 = (ps, w2) ∧
       Forall2 (λ p v, promises w2 !! p = Some (Fulfilled v)) ps vs).
Proof.
  intros Hc Hr. unfold pushAll. rewrite pushAll_buffers by done. simpl.
  eexists. split; [done|].
  assert (∀ ms : list T, ms = messages (queue w) ++ vs →
    ∃ ps w2,
      popN (length ms)
        (setQueue (setMessages (messages (queue w) ++ vs) (queue w)) w) = (ps, w2) ∧
      Forall2 (λ p v, promises w2 !! p = Some (Fulfilled v)) ps ms) as Hpop.
  { intros ms ->. eexists _, _.
    rewrite (popN_buffered (messages (queue w) ++ vs) []);
      [|done|by rewrite app_nil_r].
    split; [done|]. simpl.
    apply Forall2_same_length_lookup_2; [by rewrite length_seq|].
    intros i p v Hp Hv. apply lookup_seq in Hp as [-> Hlt].
    rewrite lookup_app_r by lia.
    replace (length (promises w) + i - length (promises w)) with i by lia.
    by rewrite list_lookup_fmap, Hv. }
  split; [by apply Hpop|].
  intros Hm. apply Hpop. by rewrite Hm.
Qed.

End Fifo.

(** Scenario A: push("a"); push("b"); pop() → "a"; pop() → "b". *)
Lemma fifo_delivery_witness :
  ∃ w1 : World string,
    pushAll ["a"; "b"] newWorld = (replicate 2 Normal, w1) ∧
    (∃ ps w2,
       popN 2 w1 = (ps, w2) ∧
       Forall2 (λ p x, promises w2 !! p = Some (Fulfilled x)) ps ["a"; "b"]) ∧
    (messages (queue (@newWorld string)) = [] →
     ∃ ps w2,
       popN 2 w1 = (ps, w2) ∧
       Forall2 (λ p x, promises w2 !! p = Some (Fulfilled x)) ps ["a"; "b"]).
Proof. apply (fifo_delivery newWorld ["a"; "b"]); reflexivity. Defined.

(** ** What each primitive touches *)

Section Frames.
Context {T : Type}.
Implicit Types (w : World T) (q : AsyncQueue T) (c : PopClosure) (p : nat).
Implicit Types (msg v : T) (e : JsError) (s : nat) (sig : option nat).

Lemma settle_promises p (x : Settled T) w :
  promises (settle p x w) =
    match promises w !! p with
    | Some Pending => <[p := x]> (promises w)
    | _ => promises w
    end.
Proof. unfold settle. by repeat case_match. Qed.

Lemma removeEventListener_queue c w : queue (removeEventListener c w) = queue w.
Proof. unfold removeEventListener. by repeat case_match. Qed.

Lemma removeEventListener_promises c w :
  promises (removeEventListener c w) = promises w.
Proof. unfold removeEventListener. by repeat case_match. Qed.

Lemma removeEventListener_streams c w :
  streams (removeEventListener c w) = streams w.
Proof. unfold removeEventListener. by repeat case_match. Qed.

Lemma removeEventListener_dispatched c w :
  dispatched (removeEventListener c w) = dispatched w.
Proof. unfold removeEventListener. by repeat case_match. Qed.

Lemma removeEventListener_unhandled c w :
  unhandledRejections (removeEventListener c w) = unhandledRejections w.
Proof. unfold removeEventListener. by repeat case_match. Qed.

(** After [removeEventListener] every signal has the flag it had; the signal
    of the closure has lost the closure, the others keep their listeners. *)
Lemma removeEventListener_lookup_eq c w s sg :
  abortSignal c = Some s → signals w !! s = Some sg →
  signals (removeEventListener c w) !! s =
    Some {| aborted := aborted sg;
            listeners := filter (λ l, l ≠ c) (listeners sg) |}.
Proof.
  intros Hc Hsg. unfold removeEventListener. rewrite Hc, Hsg. simpl.
  apply list_lookup_insert_eq. by eapply lookup_lt_Some.
Qed.

Lemma removeEventListener_lookup_ne c w s :
  abortSignal c ≠ Some s →
  signals (removeEventListener c w) !! s = signals w !! s.
Proof.
  intros Hc. unfold removeEventListener.
  destruct (abortSignal c) as [s'|]; [|done].
  destruct (signals w !! s'); [|done]. simpl.
  apply list_lookup_insert_ne. congruence.
Qed.

Lemma removeEventListener_length c w :
  length (signals (removeEventListener c w)) = length (signals w).
Proof.
  unfold removeEventListener. repeat case_match; simpl; by rewrite ?length_insert.
Qed.

Lemma removeEventListener_subset c w s sg' c' :
  signals (removeEventListener c w) !! s = Some sg' → c' ∈ listeners sg' →
  ∃ sg, signals w !! s = Some sg ∧ aborted sg' = aborted sg ∧ c' ∈ listeners sg.
Proof.
  intros Hsg' Hin. destruct (decide (abortSignal c = Some s)) as [Hc|Hc].
  - destruct (signals w !! s) as [sg|] eqn:Hsg.
    + rewrite (removeEventListener_lookup_eq _ _ _ _ Hc Hsg) in Hsg'.
      injection Hsg' as <-. simpl in *. exists sg.
      apply list_elem_of_filter in Hin. naive_solver.
    + apply lookup_ge_None in Hsg. apply lookup_lt_Some in Hsg'.
      rewrite removeEventListener_length in Hsg'. lia.
  - rewrite removeEventListener_lookup_ne in Hsg' by done. eauto.
Qed.

Lemma addEventListener_queue c w : queue (addEventListener c w) = queue w.
Proof. unfold addEventListener. by repeat case_match. Qed.

Lemma addEventListener_promises c w : promises (addEventListener c w) = promises w.
Proof. unfold addEventListener. by repeat case_match. Qed.

Lemma addEventListener_subset c w s sg' c' :
  signals (addEventListener c w) !! s = Some sg' → c' ∈ listeners sg' →
  (c' = c ∧ abortSignal c = Some s) ∨
  ∃ sg, signals w !! s = Some sg ∧ c' ∈ listeners sg.
Proof.
  unfold addEventListener. destruct (abortSignal c) as [s'|]; [|naive_solver].
  destruct (signals w !! s') as [sg|] eqn:Hsg; [|naive_solver].
  case_decide; [naive_solver|]. simpl.
  destruct (decide (s' = s)) as [->|Hne].
  - rewrite list_lookup_insert_eq by (by eapply lookup_lt_Some).
    intros [= <-]. simpl. rewrite elem_of_app, list_elem_of_singleton. naive_solver.
  - rewrite list_lookup_insert_ne by done. naive_solver.
Qed.

Lemma wrapperFn_queue c msg w :
  queue (wrapperFn c msg w) = spliceReject (promiseId c) (queue w).
Proof.
  unfold wrapperFn, resolve. rewrite settle_queue. simpl.
  by rewrite removeEventListener_queue.
Qed.

Lemma wrapperFn_promises c msg w :
  promises (wrapperFn c msg w) = promises (resolve (promiseId c) msg w).
Proof.
  unfold wrapperFn, resolve. rewrite !settle_promises. simpl.
  by rewrite removeEventListener_promises.
Qed.

Lemma wrapperFn_signals c msg w :
  signals (wrapperFn c msg w) = signals (removeEventListener c w).
Proof. unfold wrapperFn, resolve. by rewrite settle_signals. Qed.

Lemma onAbort_queue c w :
  queue (onAbort c w) =
    spliceReject (promiseId c)
      (setPendingResolves (filter (λ r, r ≠ c) (pendingResolves (queue w))) (queue w)).
Proof.
  unfold onAbort, reject. rewrite settle_queue, removeEventListener_queue. done.
Qed.

Lemma onAbort_promises c w :
  promises (onAbort c w) = promises (reject (promiseId c) Cancelled w).
Proof.
  unfold onAbort, reject. rewrite !settle_promises, removeEventListener_promises.
  done.
Qed.

Lemma onAbort_signals c w :
  signals (onAbort c w) = signals (removeEventListener c w).
Proof.
  unfold onAbort, reject. rewrite settle_signals.
  unfold removeEventListener. simpl. by repeat case_match.
Qed.

Lemma onAbort_streams c w : streams (onAbort c w) = streams w.
Proof.
  unfold onAbort, reject. by rewrite settle_streams, removeEventListener_streams.
Qed.

Lemma onAbort_dispatched c w : dispatched (onAbort c w) = dispatched w.
Proof.
  unfold onAbort, reject. by rewrite settle_dispatched, removeEventListener_dispatched.
Qed.

Lemma onAbort_unhandled c w : unhandledRejections (onAbort c w) = unhandledRejections w.
Proof.
  unfold onAbort, reject. by rewrite settle_unhandled, removeEventListener_unhandled.
Qed.

(** [indexOf] then [splice] removes the first occurrence. *)
Lemma spliceReject_messages p q : messages (spliceReject p q) = messages q.
Proof. unfold spliceReject. by case_match. Qed.

Lemma spliceReject_pendingResolves p q :
  pendingResolves (spliceReject p q) = pendingResolves q.
Proof. unfold spliceReject. by case_match. Qed.

Lemma spliceReject_closed p q : closed (spliceReject p q) = closed q.
Proof. unfold spliceReject. by case_match. Qed.

Lemma spliceReject_cons p x q (l : list nat) :
  pendingRejects q = x :: l →
  pendingRejects (spliceReject p q) =
    if decide (x = p) then l
    else x :: pendingRejects (spliceReject p (setPendingRejects l q)).
Proof.
  intros Hq. unfold spliceReject, indexOf. rewrite Hq. simpl.
  case_decide; simpl; [done|].
  destruct (list_find (λ y, y = p) l) as [[i y]|]; simpl; done.
Qed.

Lemma spliceReject_nil p q :
  pendingRejects q = [] → spliceReject p q = q.
Proof. intros Hq. unfold spliceReject, indexOf. by rewrite Hq. Qed.

End Frames.

(** ** The buffer and the waiter list exclude each other *)

Section Exclusive.
Context {T : Type}.
Implicit Types (w : World T) (q : AsyncQueue T) (c : PopClosure) (p : nat).
Implicit Types (msg v : T) (e : JsError) (s : nat) (sig : option nat).

Lemma exclusive_ext w w' :
  messages (queue w') = messages (queue w) →
  (pendingResolves (queue w) = [] → pendingResolves (queue w') = []) →
  exclusive w → exclusive w'.
Proof. unfold exclusive. intros -> Hr [?|?]; auto. Qed.

Lemma exclusive_newWorld : exclusive (@newWorld T).
Proof. by left. Qed.

Lemma push_waiter v c rest w :
  closed (queue w) = false → pendingResolves (queue w) = c :: rest →
  push v w =
    (Normal, wrapperFn c v (setQueue (setPendingResolves rest (queue w)) w)).
Proof. intros Hc Hr. unfold push. by rewrite Hc, Hr. Qed.

Lemma push_closed v w :
  closed (queue w) = true → push v w = (Throw QueueClosed, w).
Proof. intros Hc. unfold push. by rewrite Hc. Qed.

Lemma exclusive_push v w : exclusive w → exclusive (push v w).2.
Proof.
  intros Hex. destruct (closed (queue w)) eqn:Hc.
  - by rewrite push_closed.
  - destruct (pendingResolves (queue w)) as [|c rest] eqn:Hr.
    + rewrite push_buffers by done. by right.
    + rewrite (push_waiter _ _ _ _ Hc Hr). simpl. left.
      rewrite wrapperFn_queue, spliceReject_messages. simpl.
      destruct Hex as [?|?]; [done|congruence].
Qed.

Lemma pop_closed sig w :
  closed (queue w) = true →
  pop sig w = (length (promises w), setPromises (promises w ++ [Rejected QueueClosed]) w).
Proof.
  intros Hc. unfold pop, newPromise. simpl. rewrite Hc. f_equal.
  unfold reject. by rewrite <- (settle_fresh (promises w) (Rejected QueueClosed) w).
Qed.

Lemma isAborted_setPromises sig (ps : list (Settled T)) w :
  isAborted sig (setPromises ps w) = isAborted sig w.
Proof. done. Qed.

Lemma pop_aborted sig w :
  closed (queue w) = false → messages (queue w) = [] → isAborted sig w = true →
  pop sig w = (length (promises w), setPromises (promises w ++ [Rejected Cancelled]) w).
Proof.
  intros Hc Hm Ha. unfold pop, newPromise. simpl. rewrite Hc, Hm.
  rewrite isAborted_setPromises, Ha. f_equal.
  unfold reject. by rewrite <- (settle_fresh (promises w) (Rejected Cancelled) w).
Qed.

Lemma pop_registers sig w :
  closed (queue w) = false → messages (queue w) = [] → isAborted sig w = false →
  pop sig w = (length (promises w), registered sig w).
Proof.
  intros Hc Hm Ha. unfold pop, newPromise, registered. simpl. rewrite Hc, Hm.
  by rewrite isAborted_setPromises, Ha.
Qed.

Lemma registered_queue sig w :
  queue (registered sig w) =
    setPendingRejects (pendingRejects (queue w) ++ [length (promises w)])
      (setPendingResolves
         (pendingResolves (queue w) ++
          [{| promiseId := length (promises w); abortSignal := sig |}]) (queue w)).
Proof.
  unfold registered. simpl. by rewrite !addEventListener_queue.
Qed.

Lemma registered_promises sig w :
  promises (registered sig w) = promises w ++ [Pending].
Proof. unfold registered. simpl. by rewrite addEventListener_promises. Qed.

Lemma registered_signals sig w :
  signals (registered sig w) =
    signals (addEventListener {| promiseId := length (promises w); abortSignal := sig |}
               (setPromises (promises w ++ [Pending]) w)).
Proof. done. Qed.

(** The four ways [pop] can go. *)
Lemma pop_cases sig w :
  (closed (queue w) = true ∧
   pop sig w = (length (promises w),
                setPromises (promises w ++ [Rejected QueueClosed]) w)) ∨
  (∃ msg rest, closed (queue w) = false ∧ messages (queue w) = msg :: rest ∧
   pop sig w = (length (promises w),
                setPromises (promises w ++ [Fulfilled msg])
                  (setQueue (setMessages rest (queue w)) w))) ∨
  (closed (queue w) = false ∧ messages (queue w) = [] ∧ isAborted sig w = true ∧
   pop sig w = (length (promises w),
                setPromises (promises w ++ [Rejected Cancelled]) w)) ∨
  (closed (queue w) = false ∧ messages (queue w) = [] ∧ isAborted sig w = false ∧
   pop sig w = (length (promises w), registered sig w)).
Proof.
  destruct (closed (queue w)) eqn:Hc.
  { left. split; [done|]. by apply pop_closed. }
  destruct (messages (queue w)) as [|msg rest] eqn:Hm.
  - destruct (isAborted sig w) eqn:Ha.
    + right; right; left. repeat split; try done. by apply pop_aborted.
    + right; right; right. repeat split; try done. by apply pop_registers.
  - right; left. exists msg, rest. repeat split; try done. by apply pop_buffered.
Qed.

Lemma exclusive_pop sig w : exclusive w → exclusive (pop sig w).2.
Proof.
  intros Hex.
  destruct (pop_cases sig w) as [[_ ->]|[(msg&rest&_&Hm&->)|[(_&_&_&->)|(_&Hm&_&->)]]];
    simpl; try done.
  - right. simpl. destruct Hex as [?|?]; [congruence|done].
  - left. by rewrite registered_queue.
Qed.

(** [close] on an open queue: the sweep runs on the world it found, and the
    queue is left closed and empty. *)
Lemma settle_setQueue p (x : Settled T) q w :
  settle p x (setQueue q w) = setQueue q (settle p x w).
Proof. unfold settle. simpl. by repeat case_match. Qed.

Lemma rejectAll_setQueue (l : list nat) : ∀ q w,
  rejectAll l (setQueue q w) = setQueue q (rejectAll l w).
Proof.
  induction l as [|r l IH]; intros q w; [done|].
  unfold rejectAll in *. simpl. unfold reject at 2 4.
  by rewrite settle_setQueue, IH.
Qed.

Lemma rejectAll_queue (l : list nat) : ∀ w, queue (rejectAll l w) = queue w.
Proof.
  induction l as [|r l IH]; intros w; [done|].
  unfold rejectAll in *. simpl. rewrite IH. apply settle_queue.
Qed.

Lemma rejectAll_signals (l : list nat) : ∀ w, signals (rejectAll l w) = signals w.
Proof.
  induction l as [|r l IH]; intros w; [done|].
  unfold rejectAll in *. simpl. rewrite IH. apply settle_signals.
Qed.

Lemma rejectAll_streams (l : list nat) : ∀ w, streams (rejectAll l w) = streams w.
Proof.
  induction l as [|r l IH]; intros w; [done|].
  unfold rejectAll in *. simpl. rewrite IH. apply settle_streams.
Qed.

Lemma rejectAll_dispatched (l : list nat) : ∀ w,
  dispatched (rejectAll l w) = dispatched w.
Proof.
  induction l as [|r l IH]; intros w; [done|].
  unfold rejectAll in *. simpl. rewrite IH. apply settle_dispatched.
Qed.


Lemma rejectAll_length (l : list nat) : ∀ w,
  length (promises (rejectAll l w)) = length (promises w).
Proof.
  induction l as [|r l IH]; intros w; [done|].
  unfold rejectAll in *. simpl. rewrite IH. apply settle_length.
Qed.

Lemma rejectAll_keeps (l : list nat) p (y : Settled T) : ∀ w,
  promises w !! p = Some y → y ≠ Pending →
  promises (rejectAll l w) !! p = Some y.
Proof.
  induction l as [|r l IH]; intros w Hp Hy; [done|].
  unfold rejectAll in *. simpl. apply IH; [|done]. by apply settle_keeps.
Qed.

Lemma rejectAll_pending (l : list nat) p : ∀ w,
  p ∈ l → promises w !! p = Some Pending →
  promises (rejectAll l w) !! p = Some (Rejected QueueClosed).
Proof.
  induction l as [|r l IH]; intros w Hin Hp; [by apply elem_of_nil in Hin|].
  change (rejectAll (r :: l) w) with (rejectAll l (reject r QueueClosed w)).
  destruct (decide (r = p)) as [->|Hne].
  - apply rejectAll_keeps; [|done]. by apply settle_pending.
  - apply IH.
    + apply elem_of_cons in Hin as [?|?]; [congruence|done].
    + unfold reject. by rewrite settle_lookup_ne.
Qed.

Lemma rejectAll_fulfilled (l : list nat) p v : ∀ w,
  promises (rejectAll l w) !! p = Some (Fulfilled v) →
  promises w !! p = Some (Fulfilled v).
Proof.
  induction l as [|r l IH]; intros w Hp; [done|].
  change (rejectAll (r :: l) w) with (rejectAll l (reject r QueueClosed w)) in Hp.
  apply IH in Hp. by eapply reject_fulfilled.
Qed.

Lemma close_open w :
  closed (queue w) = false →
  close w =
    setQueue {| messages := []; pendingResolves := []; pendingRejects := [];
                closed := true |}
      (rejectAll (pendingRejects (queue w)) w).
Proof.
  intros Hc. unfold close. rewrite Hc. simpl.
  change (foldl (λ w r, reject r QueueClosed w)) with (flip (@rejectAll T)).
  unfold flip. by rewrite !rejectAll_setQueue.
Qed.

Lemma close_closed w : closed (queue w) = true → close w = w.
Proof. intros Hc. unfold close. by rewrite Hc. Qed.

Lemma exclusive_close w : exclusive w → exclusive (close w).
Proof.
  intros Hex. destruct (closed (queue w)) eqn:Hc.
  - by rewrite close_closed.
  - rewrite close_open by done. by left.
Qed.

Lemma exclusive_onAbort c w : exclusive w → exclusive (onAbort c w).
Proof.
  apply exclusive_ext.
  - by rewrite onAbort_queue, spliceReject_messages.
  - rewrite onAbort_queue, spliceReject_pendingResolves. simpl. by intros ->.
Qed.

Lemma exclusive_fireAll (l : list PopClosure) : ∀ w,
  exclusive w → exclusive (fireAll l w).
Proof.
  induction l as [|c l IH]; intros w Hex; [done|].
  apply IH. by apply exclusive_onAbort.
Qed.

Lemma abort_cases s w :
  abort s w = w ∨
  ∃ sg, signals w !! s = Some sg ∧ aborted sg = false ∧
        abort s w = fireAll (listeners sg) (markAborted s sg w).
Proof.
  unfold abort. destruct (signals w !! s) as [sg|]; [|by left].
  destruct (aborted sg) eqn:Ha; [by left|]. right. by exists sg.
Qed.

Lemma exclusive_abort s w : exclusive w → exclusive (abort s w).
Proof.
  intros Hex. destruct (abort_cases s w) as [->|(sg&_&_&->)]; [done|].
  by apply exclusive_fireAll.
Qed.

Lemma exclusive_stream w : exclusive w → exclusive (stream w).2.
Proof.
  intros Hex. unfold stream, newAbortController.
  match goal with |- context [pop ?a ?b] =>
    pose proof (exclusive_pop a b) as Hp; destruct (pop a b) as [p w'] end.
  simpl in *. by apply Hp.
Qed.

Lemma exclusive_stop k w : exclusive w → exclusive (stop k w).
Proof.
  intros Hex. unfold stop. case_match; [|done]. by apply exclusive_abort.
Qed.

Lemma exclusive_exec (c : Call T) w : exclusive w → exclusive (exec c w).2.
Proof.
  intros Hex. destruct c as [msg|sig| | | |s| |k]; simpl.
  - pose proof (exclusive_push msg w Hex). by destruct (push msg w).
  - pose proof (exclusive_pop sig w Hex). by destruct (pop sig w).
  - by apply exclusive_close.
  - done.
  - done.
  - by apply exclusive_abort.
  - pose proof (exclusive_stream w Hex). by destruct (stream w).
  - by apply exclusive_stop.
Qed.

Lemma exclusive_execAll (cs : list (Call T)) : ∀ w,
  exclusive w → exclusive (execAll cs w).
Proof.
  induction cs as [|c cs IH]; intros w Hex; [done|].
  apply IH. by apply exclusive_exec.
Qed.

Lemma setLoopState_queue k st w : queue (setLoopState k st w) = queue w.
Proof. unfold setLoopState. by case_match. Qed.

Lemma setLoopState_promises k st w : promises (setLoopState k st w) = promises w.
Proof. unfold setLoopState. by case_match. Qed.

Lemma setLoopState_signals k st w : signals (setLoopState k st w) = signals w.
Proof. unfold setLoopState. by case_match. Qed.

Lemma setLoopState_dispatched k st w : dispatched (setLoopState k st w) = dispatched w.
Proof. unfold setLoopState. by case_match. Qed.

Lemma setLoopState_unhandled k st w :
  unhandledRejections (setLoopState k st w) = unhandledRejections w.
Proof. unfold setLoopState. by case_match. Qed.

Lemma catchBlock_queue k e w : queue (catchBlock k e w) = queue w.
Proof. unfold catchBlock. case_decide; by rewrite setLoopState_queue. Qed.

Lemma catchBlock_promises k e w : promises (catchBlock k e w) = promises w.
Proof. unfold catchBlock. case_decide; by rewrite setLoopState_promises. Qed.

Lemma catchBlock_signals k e w : signals (catchBlock k e w) = signals w.
Proof. unfold catchBlock. case_decide; by rewrite setLoopState_signals. Qed.

(** [resume] either leaves the world alone, or runs the handler and one of
    its two continuations, or runs the [catch] block. *)
Lemma resume_cases k (body : list (Call T)) throws w :
  resume k body throws w = w ∨
  (∃ e, resume k body throws w = catchBlock k e w) ∨
  (∃ msg e,
     resume k body throws w =
       catchBlock k e (execAll body (setDispatched (dispatched w ++ [(k, msg)]) w))) ∨
  (∃ msg sig,
     resume k body throws w =
       setLoopState k (Awaiting (pop sig (execAll body (setDispatched (dispatched w ++ [(k, msg)]) w))).1)
         (pop sig (execAll body (setDispatched (dispatched w ++ [(k, msg)]) w))).2).
Proof.
  unfold resume. destruct (streams w !! k) as [st|]; [|by left].
  destruct (loopState st) as [p| |]; [|by left..].
  destruct (promises w !! p) as [[|msg|e]|]; [by left| |by eauto|by left].
  destruct throws as [e|]; [by eauto 6|].
  right; right; right. exists msg, (Some (streamSignal st)).
  by destruct (pop _ _).
Qed.

Lemma exclusive_resume k (body : list (Call T)) throws w :
  exclusive w → exclusive (resume k body throws w).
Proof.
  intros Hex.
  assert (∀ msg, exclusive (execAll body (setDispatched (dispatched w ++ [(k, msg)]) w)))
    as Hb by (intros; by apply exclusive_execAll).
  destruct (resume_cases k body throws w)
    as [->|[(e&->)|[(msg&e&->)|(msg&sig&->)]]]; [done|..].
  - revert Hex. apply exclusive_ext; by rewrite catchBlock_queue.
  - generalize (Hb msg). apply exclusive_ext; by rewrite catchBlock_queue.
  - generalize (exclusive_pop sig _ (Hb msg)).
    apply exclusive_ext; by rewrite setLoopState_queue.
Qed.

Lemma exclusive_step (ev : Event T) w : exclusive w → exclusive (step ev w).
Proof.
  destruct ev; simpl; [apply exclusive_exec | apply exclusive_resume].
Qed.

Lemma exclusive_run (es : list (Event T)) : ∀ w, exclusive w → exclusive (run es w).
Proof.
  induction es as [|ev es IH]; intros w Hex; [done|].
  apply IH. by apply exclusive_step.
Qed.

End Exclusive.

(** ** Well-formed worlds *)

Section WellFormed.
Context {T : Type}.
Implicit Types (w : World T) (q : AsyncQueue T) (c : PopClosure) (p : nat).
Implicit Types (msg v : T) (e : JsError) (s : nat) (sig : option nat).

Lemma fmap_NoDup_eq {A B} (f : A → B) (l : list A) x y :
  NoDup (f <$> l) → x ∈ l → y ∈ l → f x = f y → x = y.
Proof.
  induction l as [|a l IH]; simpl; intros Hnd Hx Hy Hf.
  { by apply elem_of_nil in Hx. }
  apply NoDup_cons in Hnd as [Ha Hnd].
  apply elem_of_cons in Hx as [->|Hx], Hy as [->|Hy]; try done.
  - exfalso. apply Ha. rewrite Hf. by apply list_elem_of_fmap_2.
  - exfalso. apply Ha. rewrite <- Hf. by apply list_elem_of_fmap_2.
  - by apply IH.
Qed.

Lemma splice_removeFirst p (l : list nat) :
  match indexOf p l with
  | Some i => delete i l
  | None => l
  end = removeFirst p l.
Proof.
  unfold indexOf. induction l as [|x l IH]; simpl; [done|].
  case_decide; simpl; [done|]. rewrite <- IH.
  by destruct (list_find (λ y, y = p) l) as [[i y]|].
Qed.

Lemma spliceReject_pendingRejects p q :
  pendingRejects (spliceReject p q) = removeFirst p (pendingRejects q).
Proof.
  rewrite <- splice_removeFirst. unfold spliceReject. by case_match.
Qed.

Lemma removeFirst_notin p (l : list nat) : p ∉ l → removeFirst p l = l.
Proof.
  induction l as [|x l IH]; simpl; [done|]. intros Hn.
  apply not_elem_of_cons in Hn as [? ?]. rewrite decide_False by done.
  by rewrite IH.
Qed.

Lemma filter_ne_notin c (l : list PopClosure) :
  c ∉ l → filter (λ r, r ≠ c) l = l.
Proof.
  induction l as [|x l IH]; [done|]. intros Hn.
  apply not_elem_of_cons in Hn as [? ?].
  rewrite filter_cons_True by done. by rewrite IH.
Qed.

Lemma removeFirst_filter c (l : list PopClosure) :
  NoDup (promiseId <$> l) →
  (promiseId c ∈ promiseId <$> l → c ∈ l) →
  removeFirst (promiseId c) (promiseId <$> l) =
    promiseId <$> filter (λ r, r ≠ c) l.
Proof.
  induction l as [|c0 l IH]; [done|]. intros Hnd Hin.
  rewrite fmap_cons in Hnd. apply NoDup_cons in Hnd as [Hc0 Hnd]. simpl.
  destruct (decide (promiseId c0 = promiseId c)) as [Heq|Hne].
  - assert (c = c0) as ->.
    { assert (c ∈ c0 :: l) as Hc by (apply Hin; rewrite fmap_cons, Heq; left).
      apply elem_of_cons in Hc as [?|Hc]; [done|]. exfalso. apply Hc0.
      rewrite Heq. by apply list_elem_of_fmap_2. }
    rewrite filter_cons_False by (intros ?; done).
    rewrite filter_ne_notin; [done|]. intros Hc. apply Hc0.
    by apply list_elem_of_fmap_2.
  - assert (c0 ≠ c) as Hcc by congruence.
    rewrite filter_cons_True by done. rewrite fmap_cons. f_equal.
    apply IH; [done|]. intros Hp.
    assert (c ∈ c0 :: l) as Hc by (apply Hin; rewrite fmap_cons; by right).
    apply elem_of_cons in Hc as [?|?]; [congruence|done].
Qed.

Lemma wellFormed_newWorld : wellFormed (@newWorld T).
Proof.
  constructor; simpl; try done.
  - constructor.
  - intros c Hc. by apply elem_of_nil in Hc.
  - by left.
Qed.


(** Well-formedness reads the queue, the promises and the signals only. *)
Lemma wellFormed_ext w w' :
  queue w' = queue w → promises w' = promises w → signals w' = signals w →
  wellFormed w → wellFormed w'.
Proof.
  intros Hq Hp Hs [H1 H2 H3 H4 H4' H5 H6].
  constructor; unfold closureOk, exclusive in *; rewrite ?Hq, ?Hp, ?Hs; done.
Qed.

Lemma closureOk_ext w w' c :
  queue w' = queue w → length (promises w') = length (promises w) →
  closureOk w c → closureOk w' c.
Proof. unfold closureOk. by intros -> ->. Qed.

Lemma queue_eq q q' :
  messages q = messages q' → pendingResolves q = pendingResolves q' →
  pendingRejects q = pendingRejects q' → closed q = closed q' → q = q'.
Proof. destruct q, q'; simpl; congruence. Qed.

(** The queue after [onAbort], in a well-formed world. *)
Lemma onAbort_queue_wf c w :
  wellFormed w → closureOk w c →
  queue (onAbort c w) =
    {| messages := messages (queue w);
       pendingResolves := filter (λ r, r ≠ c) (pendingResolves (queue w));
       pendingRejects := promiseId <$> filter (λ r, r ≠ c) (pendingResolves (queue w));
       closed := closed (queue w) |}.
Proof.
  intros Hwf [_ Hok]. rewrite onAbort_queue.
  pose proof (spliceReject_pendingRejects (promiseId c)
    (setPendingResolves (filter (λ r, r ≠ c) (pendingResolves (queue w))) (queue w))) as Hr.
  simpl in Hr. rewrite (wf_parallel _ Hwf) in Hr.
  rewrite removeFirst_filter in Hr.
  - apply queue_eq; simpl;
      by rewrite ?spliceReject_messages, ?spliceReject_pendingResolves,
                 ?spliceReject_closed.
  - rewrite <- (wf_parallel _ Hwf). by apply wf_nodup.
  - by rewrite <- (wf_parallel _ Hwf).
Qed.

Lemma closureOk_onAbort c c' w :
  wellFormed w → closureOk w c → closureOk w c' → closureOk (onAbort c w) c'.
Proof.
  intros Hwf Hc [Hlt Hin]. split.
  - rewrite onAbort_promises. unfold reject. by rewrite settle_length.
  - rewrite onAbort_queue_wf by done. simpl. intros Hp.
    assert (promiseId c' ∈ pendingRejects (queue w)) as Hp'.
    { rewrite (wf_parallel _ Hwf).
      apply list_elem_of_fmap in Hp as (r & -> & Hr).
      apply list_elem_of_filter in Hr as [_ Hr]. by apply list_elem_of_fmap_2. }
    apply list_elem_of_filter. split; [|by apply Hin].
    intros ->. apply list_elem_of_fmap in Hp as (r & Heq & Hr).
    apply list_elem_of_filter in Hr as [Hne Hr]. apply Hne. symmetry.
    eapply (fmap_NoDup_eq promiseId); [| |done|done].
    + rewrite <- (wf_parallel _ Hwf). by apply wf_nodup.
    + by apply Hin.
Qed.

Lemma wellFormed_onAbort c w :
  wellFormed w → closureOk w c → wellFormed (onAbort c w).
Proof.
  intros Hwf Hc. pose proof (onAbort_queue_wf c w Hwf Hc) as Hq.
  assert (NoDup (promiseId <$> pendingResolves (queue w))) as Hnd.
  { rewrite <- (wf_parallel _ Hwf). by apply wf_nodup. }
  constructor.
  - by rewrite Hq.
  - rewrite Hq. simpl. eapply sublist_NoDup; [exact Hnd|].
    apply fmap_sublist, sublist_filter.
  - rewrite Hq. simpl. intros c' Hc'.
    apply list_elem_of_filter in Hc' as [Hne Hc'].
    rewrite onAbort_promises. unfold reject. rewrite settle_lookup_ne.
    + by apply wf_pending.
    + intros Heq. apply Hne. symmetry.
      eapply (fmap_NoDup_eq promiseId); [exact Hnd| |done|done].
      destruct Hc as [_ Hc]. apply Hc. rewrite (wf_parallel _ Hwf).
      rewrite Heq. by apply list_elem_of_fmap_2.
  - intros s sg c'. rewrite onAbort_signals. intros Hs Hin.
    destruct (removeEventListener_subset _ _ _ _ _ Hs Hin) as (sg0 & Hs0 & _ & Hin0).
    apply closureOk_onAbort; [done..|]. by eapply wf_listeners.
  - intros s sg c'. rewrite onAbort_signals. intros Hs Hin.
    destruct (removeEventListener_subset _ _ _ _ _ Hs Hin) as (sg0 & Hs0 & _ & Hin0).
    by eapply wf_home.
  - apply exclusive_onAbort. by apply wf_exclusive.
  - rewrite Hq. simpl. intros Hcl.
    destruct (wf_closed _ Hwf Hcl) as [-> ->]. done.
Qed.

Lemma wellFormed_fireAll (l : list PopClosure) : ∀ w,
  wellFormed w → (∀ c, c ∈ l → closureOk w c) → wellFormed (fireAll l w).
Proof.
  induction l as [|c l IH]; intros w Hwf Hl; [done|].
  change (fireAll (c :: l) w) with (fireAll l (onAbort c w)).
  assert (closureOk w c) as Hc by (apply Hl; left).
  apply IH; [by apply wellFormed_onAbort|].
  intros c' Hc'. apply closureOk_onAbort; [done..|]. apply Hl. by right.
Qed.

Lemma wellFormed_push v w : wellFormed w → wellFormed (push v w).2.
Proof.
  intros Hwf. destruct (closed (queue w)) eqn:Hc.
  { by rewrite push_closed. }
  destruct (pendingResolves (queue w)) as [|c rest] eqn:Hr.
  - rewrite push_buffers by done. simpl.
    pose proof (wf_parallel _ Hwf) as Hpar. rewrite Hr in Hpar.
    destruct Hwf as [H1 H2 H3 H4 H4' H5 H6].
    constructor; unfold closureOk in *; simpl; rewrite ?Hr; try done.
    + intros c Hin. by apply elem_of_nil in Hin.
    + intros s sg c Hs Hin. destruct (H4 s sg c Hs Hin) as [Hlt _].
      split; [done|]. rewrite Hpar. intros Hp. by apply elem_of_nil in Hp.
    + by right.
    + congruence.
  - rewrite (push_waiter _ _ _ _ Hc Hr). simpl.
    pose proof (wf_parallel _ Hwf) as Hpar. rewrite Hr, fmap_cons in Hpar.
    pose proof (wf_nodup _ Hwf) as Hnd. rewrite Hpar in Hnd.
    apply NoDup_cons in Hnd as [Hc0 Hnd].
    assert (queue (wrapperFn c v (setQueue (setPendingResolves rest (queue w)) w)) =
            {| messages := messages (queue w); pendingResolves := rest;
               pendingRejects := promiseId <$> rest; closed := closed (queue w) |})
      as Hq.
    { rewrite wrapperFn_queue. apply queue_eq; simpl;
        rewrite ?spliceReject_messages, ?spliceReject_pendingResolves,
                ?spliceReject_closed; try done.
      rewrite spliceReject_pendingRejects. simpl. rewrite Hpar. simpl.
      by rewrite decide_True. }
    constructor.
    + by rewrite Hq.
    + by rewrite Hq.
    + rewrite Hq. simpl. intros c' Hc'. rewrite wrapperFn_promises.
      unfold resolve. rewrite settle_lookup_ne.
      * apply (wf_pending _ Hwf). rewrite Hr. by right.
      * intros Heq. apply Hc0. rewrite Heq. by apply list_elem_of_fmap_2.
    + intros s sg c'. rewrite wrapperFn_signals. intros Hs Hin.
      destruct (removeEventListener_subset _ _ _ _ _ Hs Hin) as (sg0 & Hs0 & _ & Hin0).
      simpl in Hs0. destruct (wf_listeners _ Hwf _ _ _ Hs0 Hin0) as [Hlt Hok].
      split.
      * rewrite wrapperFn_promises. unfold resolve. by rewrite settle_length.
      * rewrite Hq. simpl. intros Hp.
        assert (c' ∈ c :: rest) as Hc'.
        { rewrite <- Hr. apply Hok. rewrite Hpar. by right. }
        apply elem_of_cons in Hc' as [->|?]; [done|done].
    + intros s sg c'. rewrite wrapperFn_signals. intros Hs Hin.
      destruct (removeEventListener_subset _ _ _ _ _ Hs Hin) as (sg0 & Hs0 & _ & Hin0).
      simpl in Hs0. by eapply wf_home.
    + left. rewrite Hq. simpl. destruct (wf_exclusive _ Hwf) as [?|?]; congruence.
    + rewrite Hq. simpl. congruence.
Qed.

Lemma wellFormed_alloc (x : Settled T) w :
  wellFormed w → wellFormed (setPromises (promises w ++ [x]) w).
Proof.
  intros [H1 H2 H3 H4 H4' H5 H6].
  constructor; unfold closureOk in *; simpl; try done.
  - intros c Hc. rewrite lookup_app_l; [by apply H3|].
    eapply lookup_lt_Some. by apply H3.
  - intros s sg c Hs Hin. destruct (H4 s sg c Hs Hin) as [Hlt Hok].
    rewrite length_app. simpl. split; [lia|done].
Qed.

Lemma wellFormed_registered sig w :
  closed (queue w) = false → messages (queue w) = [] →
  wellFormed w → wellFormed (registered sig w).
Proof.
  intros Hopen Hm Hwf.
  assert (∀ p, p ∈ pendingRejects (queue w) → p < length (promises w)) as Hlt.
  { intros p. rewrite (wf_parallel _ Hwf).
    intros (c & -> & Hc)%list_elem_of_fmap.
    eapply lookup_lt_Some. by apply wf_pending. }
  constructor.
  - rewrite registered_queue. simpl. rewrite fmap_app. simpl.
    by rewrite (wf_parallel _ Hwf).
  - rewrite registered_queue. simpl. apply NoDup_app. split_and!.
    + by apply wf_nodup.
    + intros p Hp ->%list_elem_of_singleton. apply Hlt in Hp. lia.
    + apply NoDup_singleton.
  - rewrite registered_queue, registered_promises. simpl. intros c.
    rewrite elem_of_app, list_elem_of_singleton. intros [Hc| ->].
    + rewrite lookup_app_l; [by apply wf_pending|].
      eapply lookup_lt_Some. by apply wf_pending.
    + simpl. rewrite lookup_app_r by lia. by rewrite Nat.sub_diag.
  - intros s sg c. rewrite registered_signals. intros Hs Hin.
    unfold closureOk. rewrite registered_queue, registered_promises. simpl.
    rewrite length_app. simpl.
    destruct (addEventListener_subset _ _ _ _ _ Hs Hin) as [[-> _]|(sg0 & Hs0 & Hin0)].
    + simpl. split; [lia|]. intros _. apply elem_of_app. right. by left.
    + simpl in Hs0. destruct (wf_listeners _ Hwf _ _ _ Hs0 Hin0) as [Hc Hok].
      split; [lia|]. rewrite !elem_of_app, list_elem_of_singleton.
      intros [Hp|Hp]; [left; by apply Hok|lia].
  - intros s sg c. rewrite registered_signals. intros Hs Hin.
    destruct (addEventListener_subset _ _ _ _ _ Hs Hin) as [[-> ?]|(sg0 & Hs0 & Hin0)].
    + done.
    + simpl in Hs0. by eapply wf_home.
  - left. by rewrite registered_queue.
  - rewrite registered_queue. simpl. congruence.
Qed.

Lemma wellFormed_pop sig w : wellFormed w → wellFormed (pop sig w).2.
Proof.
  intros Hwf.
  destruct (pop_cases sig w)
    as [[_ ->]|[(msg&rest&Hc&Hm&->)|[(_&_&_&->)|(Hc&Hm&_&->)]]]; simpl.
  - by apply wellFormed_alloc.
  - apply (wellFormed_alloc _ (setQueue (setMessages rest (queue w)) w)).
    assert (pendingResolves (queue w) = []) as Hr.
    { destruct (wf_exclusive _ Hwf) as [?|?]; [congruence|done]. }
    destruct Hwf as [H1 H2 H3 H4 H4' H5 H6].
    constructor; unfold closureOk in *; simpl; try done.
    + by right.
    + congruence.
  - by apply wellFormed_alloc.
  - by apply wellFormed_registered.
Qed.

Lemma wellFormed_close w : wellFormed w → wellFormed (close w).
Proof.
  intros Hwf. destruct (closed (queue w)) eqn:Hc.
  { by rewrite close_closed. }
  rewrite close_open by done.
  constructor; unfold closureOk; simpl; try done.
  - constructor.
  - intros c Hin. by apply elem_of_nil in Hin.
  - intros s sg c. rewrite rejectAll_signals, rejectAll_length. intros Hs Hin.
    destruct (wf_listeners _ Hwf _ _ _ Hs Hin) as [Hlt _].
    split; [done|]. intros Hp. by apply elem_of_nil in Hp.
  - intros s sg c. rewrite rejectAll_signals. by apply wf_home.
  - by left.
Qed.

Lemma wellFormed_newAbortController w :
  wellFormed w → wellFormed (newAbortController w).2.
Proof.
  intros [H1 H2 H3 H4 H4' H5 H6]. unfold newAbortController.
  constructor; unfold closureOk in *; simpl; try done.
  - intros s sg c Hs Hin. apply lookup_app_Some in Hs as [Hs|[_ Hs]].
    + by eapply H4.
    + destruct (s - length (signals w)); simpl in Hs; [|done].
      injection Hs as <-. by apply elem_of_nil in Hin.
  - intros s sg c Hs Hin. apply lookup_app_Some in Hs as [Hs|[_ Hs]].
    + by eapply H4'.
    + destruct (s - length (signals w)); simpl in Hs; [|done].
      injection Hs as <-. by apply elem_of_nil in Hin.
Qed.

Lemma wellFormed_markAborted s sg w :
  signals w !! s = Some sg → wellFormed w → wellFormed (markAborted s sg w).
Proof.
  intros Hsg [H1 H2 H3 H4 H4' H5 H6]. unfold markAborted.
  constructor; unfold closureOk in *; simpl; try done.
  - intros s' sg' c Hs Hin. destruct (decide (s = s')) as [->|Hne].
    + rewrite list_lookup_insert_eq in Hs by (by eapply lookup_lt_Some).
      injection Hs as <-. by eapply H4.
    + rewrite list_lookup_insert_ne in Hs by done. by eapply H4.
  - intros s' sg' c Hs Hin. destruct (decide (s = s')) as [->|Hne].
    + rewrite list_lookup_insert_eq in Hs by (by eapply lookup_lt_Some).
      injection Hs as <-. by eapply H4'.
    + rewrite list_lookup_insert_ne in Hs by done. by eapply H4'.
Qed.

Lemma wellFormed_abort s w : wellFormed w → wellFormed (abort s w).
Proof.
  intros Hwf. destruct (abort_cases s w) as [->|(sg&Hsg&_&->)]; [done|].
  apply wellFormed_fireAll; [by apply wellFormed_markAborted|].
  intros c Hc. eapply closureOk_ext; [..|by eapply (wf_listeners _ Hwf)]; done.
Qed.

Lemma wellFormed_stream w : wellFormed w → wellFormed (stream w).2.
Proof.
  intros Hwf. unfold stream.
  pose proof (wellFormed_newAbortController w Hwf) as Hn.
  destruct (newAbortController w) as [sgn w1]. simpl in Hn.
  pose proof (wellFormed_pop (Some sgn) w1 Hn) as Hp.
  destruct (pop (Some sgn) w1) as [p w2]. simpl in *.
  revert Hp. by apply wellFormed_ext.
Qed.

Lemma wellFormed_stop k w : wellFormed w → wellFormed (stop k w).
Proof.
  intros Hwf. unfold stop. case_match; [|done]. by apply wellFormed_abort.
Qed.

Lemma wellFormed_exec (c : Call T) w : wellFormed w → wellFormed (exec c w).2.
Proof.
  intros Hwf. destruct c as [msg|sig| | | |s| |k]; simpl.
  - pose proof (wellFormed_push msg w Hwf). by destruct (push msg w).
  - pose proof (wellFormed_pop sig w Hwf). by destruct (pop sig w).
  - by apply wellFormed_close.
  - done.
  - by apply wellFormed_newAbortController.
  - by apply wellFormed_abort.
  - pose proof (wellFormed_stream w Hwf). by destruct (stream w).
  - by apply wellFormed_stop.
Qed.

Lemma wellFormed_execAll (cs : list (Call T)) : ∀ w,
  wellFormed w → wellFormed (execAll cs w).
Proof.
  induction cs as [|c cs IH]; intros w Hwf; [done|].
  apply IH. by apply wellFormed_exec.
Qed.

Lemma wellFormed_resume k (body : list (Call T)) throws w :
  wellFormed w → wellFormed (resume k body throws w).
Proof.
  intros Hwf.
  assert (∀ msg, wellFormed (execAll body (setDispatched (dispatched w ++ [(k, msg)]) w)))
    as Hb.
  { intros msg. apply wellFormed_execAll. revert Hwf. by apply wellFormed_ext. }
  destruct (resume_cases k body throws w)
    as [->|[(e&->)|[(msg&e&->)|(msg&sig&->)]]]; [done|..].
  - revert Hwf. apply wellFormed_ext;
      by rewrite ?catchBlock_queue, ?catchBlock_promises, ?catchBlock_signals.
  - generalize (Hb msg). apply wellFormed_ext;
      by rewrite ?catchBlock_queue, ?catchBlock_promises, ?catchBlock_signals.
  - generalize (wellFormed_pop sig _ (Hb msg)). apply wellFormed_ext;
      by rewrite ?setLoopState_queue, ?setLoopState_promises, ?setLoopState_signals.
Qed.

Lemma wellFormed_step (ev : Event T) w : wellFormed w → wellFormed (step ev w).
Proof.
  destruct ev; simpl; [apply wellFormed_exec | apply wellFormed_resume].
Qed.

Lemma wellFormed_run (es : list (Event T)) : ∀ w,
  wellFormed w → wellFormed (run es w).
Proof.
  induction es as [|ev es IH]; intros w Hwf; [done|].
  apply IH. by apply wellFormed_step.
Qed.

Lemma reachable_wellFormed w : reachable w → wellFormed w.
Proof.
  intros [es ->]. apply wellFormed_run, wellFormed_newWorld.
Qed.

End WellFormed.

(** ** A closed queue delivers nothing *)

Section Closed.
Context {T : Type}.
Implicit Types (w : World T) (q : AsyncQueue T) (c : PopClosure) (p : nat).
Implicit Types (msg v : T) (e : JsError) (s : nat) (sig : option nat).

Lemma quiet_refl w : quiet w w.
Proof. by repeat split. Qed.

Lemma quiet_trans w1 w2 w3 : quiet w1 w2 → quiet w2 w3 → quiet w1 w3.
Proof.
  intros (Hc1 & Hm1 & Hp1) (Hc2 & Hm2 & Hp2). repeat split; [congruence..|].
  intros p v Hp. by apply Hp1, Hp2.
Qed.

Lemma quiet_ext w w' :
  queue w' = queue w → promises w' = promises w → quiet w w'.
Proof. intros Hq Hp. unfold quiet. by rewrite Hq, Hp. Qed.

Lemma quiet_alloc e w : quiet w (setPromises (promises w ++ [Rejected e]) w).
Proof.
  repeat split. simpl. intros p v Hp.
  apply lookup_app_Some in Hp as [Hp|[_ Hp]]; [done|].
  destruct (p - length (promises w)); simpl in Hp; [done|done].
Qed.

Lemma quiet_onAbort c w : quiet w (onAbort c w).
Proof.
  repeat split.
  - by rewrite onAbort_queue, spliceReject_closed.
  - by rewrite onAbort_queue, spliceReject_messages.
  - intros p v. rewrite onAbort_promises. apply reject_fulfilled.
Qed.

Lemma quiet_fireAll (l : list PopClosure) : ∀ w, quiet w (fireAll l w).
Proof.
  induction l as [|c l IH]; intros w; [apply quiet_refl|].
  change (fireAll (c :: l) w) with (fireAll l (onAbort c w)).
  eapply quiet_trans; [apply quiet_onAbort|apply IH].
Qed.

Lemma quiet_abort s w : quiet w (abort s w).
Proof.
  destruct (abort_cases s w) as [->|(sg&_&_&->)]; [apply quiet_refl|].
  eapply quiet_trans; [|apply quiet_fireAll]. by apply quiet_ext.
Qed.

Lemma quiet_pop sig w : closed (queue w) = true → quiet w (pop sig w).2.
Proof. intros Hc. rewrite pop_closed by done. apply quiet_alloc. Qed.

Lemma quiet_exec (c : Call T) w : closed (queue w) = true → quiet w (exec c w).2.
Proof.
  intros Hc. destruct c as [msg|sig| | | |s| |k]; simpl.
  - rewrite push_closed by done. apply quiet_refl.
  - pose proof (quiet_pop sig w Hc). by destruct (pop sig w).
  - rewrite close_closed by done. apply quiet_refl.
  - apply quiet_refl.
  - by apply quiet_ext.
  - apply quiet_abort.
  - unfold stream, newAbortController.
    match goal with |- context [pop ?a ?b] =>
      pose proof (quiet_pop a b Hc) as Hp; destruct (pop a b) as [p w'] end.
    simpl in *. eapply quiet_trans; [|eapply quiet_trans; [exact Hp|]];
      by apply quiet_ext.
  - unfold stop. case_match; [apply quiet_abort|apply quiet_refl].
Qed.

Lemma quiet_closed w w' :
  closed (queue w) = true → quiet w w' → closed (queue w') = true.
Proof. intros Hc (Hc' & _). congruence. Qed.

Lemma quiet_execAll (cs : list (Call T)) : ∀ w,
  closed (queue w) = true → quiet w (execAll cs w).
Proof.
  induction cs as [|c cs IH]; intros w Hc; [apply quiet_refl|].
  change (execAll (c :: cs) w) with (execAll cs (exec c w).2).
  pose proof (quiet_exec c w Hc) as Hq.
  eapply quiet_trans; [exact Hq|]. apply IH. by eapply quiet_closed.
Qed.

Lemma quiet_resume k (body : list (Call T)) throws w :
  closed (queue w) = true → quiet w (resume k body throws w).
Proof.
  intros Hc.
  assert (∀ msg, quiet w (execAll body (setDispatched (dispatched w ++ [(k, msg)]) w)))
    as Hb.
  { intros msg. eapply quiet_trans; [|by apply quiet_execAll]. by apply quiet_ext. }
  destruct (resume_cases k body throws w)
    as [->|[(e&->)|[(msg&e&->)|(msg&sig&->)]]].
  - apply quiet_refl.
  - apply quiet_ext; by rewrite ?catchBlock_queue, ?catchBlock_promises.
  - eapply quiet_trans; [apply (Hb msg)|].
    apply quiet_ext; by rewrite ?catchBlock_queue, ?catchBlock_promises.
  - eapply quiet_trans; [apply (Hb msg)|].
    eapply quiet_trans; [apply (quiet_pop sig); by eapply quiet_closed|].
    apply quiet_ext; by rewrite ?setLoopState_queue, ?setLoopState_promises.
Qed.

Lemma quiet_step (ev : Event T) w : closed (queue w) = true → quiet w (step ev w).
Proof.
  destruct ev; simpl; [apply quiet_exec | apply quiet_resume].
Qed.

Lemma quiet_run (es : list (Event T)) : ∀ w,
  closed (queue w) = true → quiet w (run es w).
Proof.
  induction es as [|ev es IH]; intros w Hc; [apply quiet_refl|].
  change (run (ev :: es) w) with (run es (step ev w)).
  pose proof (quiet_step ev w Hc) as Hq.
  eapply quiet_trans; [exact Hq|]. apply IH. by eapply quiet_closed.
Qed.

Lemma close_isClosed w : closed (queue (close w)) = true.
Proof.
  destruct (closed (queue w)) eqn:Hc.
  - by rewrite close_closed.
  - by rewrite close_open.
Qed.

End Closed.

(** ** The queue's contract *)

Section Contract.
Context {T : Type}.
Implicit Types (w : World T) (q : AsyncQueue T) (c : PopClosure) (p : nat).
Implicit Types (msg v : T) (e : JsError) (s : nat) (sig : option nat).

(** What [push] does on an open queue: it hands the message to the oldest
    waiter and leaves the buffer alone, or appends to the buffer and leaves
    the waiters and the promises alone. *)
Lemma push_dichotomy v w :
  closed (queue w) = false →
  match pendingResolves (queue w) with
  | c :: rest =>
      pendingResolves (queue (push v w).2) = rest ∧
      messages (queue (push v w).2) = messages (queue w) ∧
      (promises w !! promiseId c = Some Pending →
       promises (push v w).2 !! promiseId c = Some (Fulfilled v))
  | [] =>
      pendingResolves (queue (push v w).2) = [] ∧
      messages (queue (push v w).2) = messages (queue w) ++ [v] ∧
      promises (push v w).2 = promises w
  end.
Proof.
  intros Hc. destruct (pendingResolves (queue w)) as [|c rest] eqn:Hr.
  - by rewrite push_buffers.
  - rewrite (push_waiter _ _ _ _ Hc Hr). simpl.
    rewrite wrapperFn_queue, spliceReject_pendingResolves, spliceReject_messages.
    split_and!; [done..|]. intros Hp. rewrite wrapperFn_promises.
    by apply settle_pending.
Qed.

(** C2: in every reachable world the buffer and the waiter list are not both
    non-empty (and a non-empty buffer also means no listed [reject]); [push],
    [pop], [close], [abort] and every step of an execution preserve this
    from any world; and an accepted
    [push] either fulfils the oldest waiter without touching the buffer or
    appends to the buffer tail without touching waiters or promises. *)
Theorem buffer_waiters_exclusive :
  (∀ w, reachable w →
        exclusive w ∧ (messages (queue w) ≠ [] → pendingRejects (queue w) = [])) ∧
  (∀ w, exclusive w →
        (∀ v, exclusive (push v w).2) ∧ (∀ sig, exclusive (pop sig w).2) ∧
        exclusive (close w) ∧ (∀ s, exclusive (abort s w)) ∧
        (∀ ev, exclusive (step ev w))) ∧
  (∀ w v, closed (queue w) = false →
        match pendingResolves (queue w) with
        | c :: rest =>
            pendingResolves (queue (push v w).2) = rest ∧
            messages (queue (push v w).2) = messages (queue w) ∧
            (promises w !! promiseId c = Some Pending →
             promises (push v w).2 !! promiseId c = Some (Fulfilled v))
        | [] =>
            pendingResolves (queue (push v w).2) = [] ∧
            messages (queue (push v w).2) = messages (queue w) ++ [v] ∧
            promises (push v w).2 = promises w
        end).
Proof.
  split_and!.
  - intros w Hw. apply reachable_wellFormed in Hw. split; [by apply wf_exclusive|].
    intros Hm. rewrite (wf_parallel _ Hw).
    destruct (wf_exclusive _ Hw) as [? | ->]; done.
  - intros w Hex. split_and!; intros.
    + by apply exclusive_push.
    + by apply exclusive_pop.
    + by apply exclusive_close.
    + by apply exclusive_abort.
    + by apply exclusive_step.
  - intros w v. apply push_dichotomy.
Qed.

(** C3: when [close] runs on an open queue that holds three buffered values
    and two pending pops, both pops are rejected with [QueueClosed], the
    buffer and both waiter arrays are empty, [isClosed] is true, and whatever
    happens afterwards the buffer stays empty, the queue stays closed and no
    promise is fulfilled that was not fulfilled before the [close]. *)
Theorem close_rejects_and_discards w (a b d : T) c1 c2 :
  closed (queue w) = false →
  messages (queue w) = [a; b; d] →
  pendingResolves (queue w) = [c1; c2] →
  pendingRejects (queue w) = [promiseId c1; promiseId c2] →
  promises w !! promiseId c1 = Some Pending →
  promises w !! promiseId c2 = Some Pending →
  promises (close w) !! promiseId c1 = Some (Rejected QueueClosed) ∧
  promises (close w) !! promiseId c2 = Some (Rejected QueueClosed) ∧
  messages (queue (close w)) = [] ∧
  pendingResolves (queue (close w)) = [] ∧
  pendingRejects (queue (close w)) = [] ∧
  isClosed (close w) = true ∧
  ∀ es, messages (queue (run es (close w))) = [] ∧
        isClosed (run es (close w)) = true ∧
        ∀ p v, promises (run es (close w)) !! p = Some (Fulfilled v) →
               promises w !! p = Some (Fulfilled v).
Proof.
  intros Hc Hm Hr Hj Hp1 Hp2. rewrite close_open by done. simpl. rewrite Hj.
  split_and!; try done.
  - apply rejectAll_pending; [by left|done].
  - apply rejectAll_pending; [by right; left|done].
  - intros es. rewrite <- Hj, <- close_open by done.
    destruct (quiet_run es (close w) (close_isClosed w)) as (Hcl & Hms & Hps).
    unfold isClosed. rewrite Hcl, Hms, close_isClosed.
    split_and!; [by rewrite close_open|done|].
    intros p v Hp. apply Hps in Hp. rewrite close_open in Hp by done.
    simpl in Hp. by eapply rejectAll_fulfilled.
Qed.

(** C4: a second [close] changes nothing in the world (queue, promises,
    signals, streams, dispatch log, unhandled rejections); [isClosed] is true
    after the first [close] and after every later execution. *)
Theorem close_idempotent w :
  close (close w) = close w ∧
  isClosed (close w) = true ∧
  ∀ es, isClosed (run es (close w)) = true.
Proof.
  split_and!.
  - apply close_closed, close_isClosed.
  - apply close_isClosed.
  - intros es. unfold isClosed.
    destruct (quiet_run es (close w) (close_isClosed w)) as (-> & _).
    apply close_isClosed.
Qed.

(** C5: at any time after [close], [push] throws [QueueClosed] and leaves the
    world as it was; [pop] returns a promise that is already rejected with
    [QueueClosed], and adds nothing to the queue (no waiter) nor to any
    signal (no listener). *)
Theorem rejected_after_close (w0 : World T) (es : list (Event T)) v sig :
  let w := run es (close w0) in
  push v w = (Throw QueueClosed, w) ∧
  pop sig w =
    (length (promises w), setPromises (promises w ++ [Rejected QueueClosed]) w) ∧
  promises (pop sig w).2 !! (pop sig w).1 = Some (Rejected QueueClosed) ∧
  queue (pop sig w).2 = queue w ∧
  signals (pop sig w).2 = signals w.
Proof.
  intros w.
  assert (closed (queue w) = true) as Hc.
  { eapply quiet_closed; [apply close_isClosed|]. apply quiet_run, close_isClosed. }
  rewrite push_closed, pop_closed by done. simpl. split_and!; try done.
  rewrite lookup_app_r by lia. by rewrite Nat.sub_diag.
Qed.

End Contract.

(** A world with three buffered values and two pending pops. *)
Lemma close_rejects_and_discards_witness :
  let c1 := {| promiseId := 0; abortSignal := None |} in
  let c2 := {| promiseId := 1; abortSignal := None |} in
  let w : World string :=
    {| queue := {| messages := ["x"; "y"; "z"]; pendingResolves := [c1; c2];
                   pendingRejects := [0; 1]; closed := false |};
       promises := [Pending; Pending]; signals := []; streams := [];
       dispatched := []; unhandledRejections := [] |} in
  promises (close w) !! 0 = Some (Rejected QueueClosed) ∧
  promises (close w) !! 1 = Some (Rejected QueueClosed) ∧
  messages (queue (close w)) = [] ∧
  pendingResolves (queue (close w)) = [] ∧
  pendingRejects (queue (close w)) = [] ∧
  isClosed (close w) = true ∧
  ∀ es, messages (queue (run es (close w))) = [] ∧
        isClosed (run es (close w)) = true ∧
        ∀ p x, promises (run es (close w)) !! p = Some (Fulfilled x) →
               promises w !! p = Some (Fulfilled x).
Proof.
  intros c1 c2 w.
  apply (close_rejects_and_discards w "x" "y" "z" c1 c2); reflexivity.
Defined.

(** ** A promise is settled once *)

Section SettledOnce.
Context {T : Type}.
Implicit Types (w : World T) (q : AsyncQueue T) (c : PopClosure) (p : nat).
Implicit Types (msg v : T) (e : JsError) (s : nat) (sig : option nat).

Lemma settledKept_refl w : settledKept w w.
Proof. by intros p y. Qed.

Lemma settledKept_trans w1 w2 w3 :
  settledKept w1 w2 → settledKept w2 w3 → settledKept w1 w3.
Proof. intros H1 H2 p y Hp Hy. apply H2; [|done]. by apply H1. Qed.

Lemma settledKept_ext w w' : promises w' = promises w → settledKept w w'.
Proof. intros Hp p y. by rewrite Hp. Qed.

Lemma settledKept_settle p (x : Settled T) w : settledKept w (settle p x w).
Proof. intros p' y Hp Hy. by apply settle_keeps. Qed.

Lemma settledKept_alloc (x : Settled T) w :
  settledKept w (setPromises (promises w ++ [x]) w).
Proof.
  intros p y Hp _. simpl. rewrite lookup_app_l; [done|]. by eapply lookup_lt_Some.
Qed.

Lemma settledKept_push v w : settledKept w (push v w).2.
Proof.
  destruct (closed (queue w)) eqn:Hc.
  { rewrite push_closed by done. apply settledKept_refl. }
  destruct (pendingResolves (queue w)) as [|c rest] eqn:Hr.
  - rewrite push_buffers by done. by apply settledKept_ext.
  - rewrite (push_waiter _ _ _ _ Hc Hr). simpl. intros p y Hp Hy.
    rewrite wrapperFn_promises. by apply settle_keeps.
Qed.

Lemma settledKept_pop sig w : settledKept w (pop sig w).2.
Proof.
  destruct (pop_cases sig w)
    as [[_ ->]|[(msg&rest&_&_&->)|[(_&_&_&->)|(_&_&_&->)]]]; simpl.
  - apply settledKept_alloc.
  - apply (settledKept_alloc _ (setQueue (setMessages rest (queue w)) w)).
  - apply settledKept_alloc.
  - intros p y Hp _. rewrite registered_promises.
    rewrite lookup_app_l; [done|]. by eapply lookup_lt_Some.
Qed.

Lemma settledKept_close w : settledKept w (close w).
Proof.
  destruct (closed (queue w)) eqn:Hc.
  - rewrite close_closed by done. apply settledKept_refl.
  - rewrite close_open by done. intros p y Hp Hy. simpl. by apply rejectAll_keeps.
Qed.

Lemma settledKept_onAbort c w : settledKept w (onAbort c w).
Proof. intros p y Hp Hy. rewrite onAbort_promises. by apply settle_keeps. Qed.

Lemma settledKept_fireAll (l : list PopClosure) : ∀ w, settledKept w (fireAll l w).
Proof.
  induction l as [|c l IH]; intros w; [apply settledKept_refl|].
  change (fireAll (c :: l) w) with (fireAll l (onAbort c w)).
  eapply settledKept_trans; [apply settledKept_onAbort|apply IH].
Qed.

Lemma settledKept_abort s w : settledKept w (abort s w).
Proof.
  destruct (abort_cases s w) as [->|(sg&_&_&->)]; [apply settledKept_refl|].
  eapply settledKept_trans; [|apply settledKept_fireAll]. by apply settledKept_ext.
Qed.

Lemma settledKept_exec (c : Call T) w : settledKept w (exec c w).2.
Proof.
  destruct c as [msg|sig| | | |s| |k]; simpl.
  - pose proof (settledKept_push msg w). by destruct (push msg w).
  - pose proof (settledKept_pop sig w). by destruct (pop sig w).
  - apply settledKept_close.
  - apply settledKept_refl.
  - by apply settledKept_ext.
  - apply settledKept_abort.
  - unfold stream, newAbortController.
    match goal with |- context [pop ?a ?b] =>
      pose proof (settledKept_pop a b) as Hp; destruct (pop a b) as [p w'] end.
    simpl in *. eapply settledKept_trans; [|eapply settledKept_trans; [exact Hp|]];
      by apply settledKept_ext.
  - unfold stop. case_match; [apply settledKept_abort|apply settledKept_refl].
Qed.

Lemma settledKept_execAll (cs : list (Call T)) : ∀ w, settledKept w (execAll cs w).
Proof.
  induction cs as [|c cs IH]; intros w; [apply settledKept_refl|].
  change (execAll (c :: cs) w) with (execAll cs (exec c w).2).
  eapply settledKept_trans; [apply settledKept_exec|apply IH].
Qed.

Lemma settledKept_resume k (body : list (Call T)) throws w :
  settledKept w (resume k body throws w).
Proof.
  assert (∀ msg, settledKept w
            (execAll body (setDispatched (dispatched w ++ [(k, msg)]) w))) as Hb.
  { intros msg. eapply settledKept_trans; [|apply settledKept_execAll].
    by apply settledKept_ext. }
  destruct (resume_cases k body throws w)
    as [->|[(e&->)|[(msg&e&->)|(msg&sig&->)]]].
  - apply settledKept_refl.
  - apply settledKept_ext. by rewrite catchBlock_promises.
  - eapply settledKept_trans; [apply (Hb msg)|].
    apply settledKept_ext. by rewrite catchBlock_promises.
  - eapply settledKept_trans; [apply (Hb msg)|].
    eapply settledKept_trans; [apply (settledKept_pop sig)|].
    apply settledKept_ext. by rewrite setLoopState_promises.
Qed.

Lemma settledKept_step (ev : Event T) w : settledKept w (step ev w).
Proof.
  destruct ev; simpl; [apply settledKept_exec | apply settledKept_resume].
Qed.

(** Fulfilled by a push, rejected by its signal or rejected by [close]:
    whichever comes first stays, in every execution. *)
Lemma settled_forever (es : list (Event T)) : ∀ w, settledKept w (run es w).
Proof.
  induction es as [|ev es IH]; intros w; [apply settledKept_refl|].
  change (run (ev :: es) w) with (run es (step ev w)).
  eapply settledKept_trans; [apply settledKept_step|apply IH].
Qed.

(** [close] leaves every abort signal, and so every listener, as it was. *)
Lemma close_signals w : signals (close w) = signals w.
Proof.
  destruct (closed (queue w)) eqn:Hc.
  - by rewrite close_closed.
  - rewrite close_open by done. simpl. apply rejectAll_signals.
Qed.

End SettledOnce.

(** ** Cancellation *)

Section Cancellation.
Context {T : Type}.
Implicit Types (w : World T) (q : AsyncQueue T) (c : PopClosure) (p : nat).
Implicit Types (msg v : T) (e : JsError) (s : nat) (sig : option nat).

(** Firing a signal that one pending pop listens to. *)
Lemma abort_single s sg c w :
  signals w !! s = Some sg → aborted sg = false → listeners sg = [c] →
  abort s w = onAbort c (markAborted s sg w).
Proof. intros Hs Ha Hl. unfold abort, markAborted. by rewrite Hs, Ha, Hl. Qed.

(** In a well-formed world a listed waiter makes the queue open. *)
Lemma waiter_open c w :
  wellFormed w → c ∈ pendingResolves (queue w) → closed (queue w) = false.
Proof.
  intros Hwf Hc. destruct (closed (queue w)) eqn:Hcl; [|done].
  destruct (wf_closed _ Hwf Hcl) as [_ Hr]. rewrite Hr in Hc.
  by apply elem_of_nil in Hc.
Qed.

(** C6: three pops are registered in order on a fresh queue, each with its
    own signal; the second signal fires; "u" and "v" are pushed: the first
    pop is fulfilled with "u", the third with "v", the second is rejected
    with [Cancelled].  In general, in a well-formed world, firing a signal
    that only the pending pop [c] listens to rejects [c] with [Cancelled],
    removes [c] from the waiter list and keeps the other waiters in order,
    leaves every other promise and every other signal as it was, and the
    next push fulfils the first remaining waiter. *)
Theorem cancellation_isolation :
  (∀ u v : T,
     let '(s1, w) := newAbortController newWorld in
     let '(s2, w) := newAbortController w in
     let '(s3, w) := newAbortController w in
     let '(p1, w) := pop (Some s1) w in
     let '(p2, w) := pop (Some s2) w in
     let '(p3, w) := pop (Some s3) w in
     let w := abort s2 w in
     let w := (push u w).2 in
     let w := (push v w).2 in
     promises w !! p1 = Some (Fulfilled u) ∧
     promises w !! p2 = Some (Rejected Cancelled) ∧
     promises w !! p3 = Some (Fulfilled v)) ∧
  (∀ w s sg c,
     wellFormed w →
     signals w !! s = Some sg → aborted sg = false → listeners sg = [c] →
     c ∈ pendingResolves (queue w) →
     promises (abort s w) !! promiseId c = Some (Rejected Cancelled) ∧
     pendingResolves (queue (abort s w)) =
       filter (λ r, r ≠ c) (pendingResolves (queue w)) ∧
     (∀ p, p ≠ promiseId c → promises (abort s w) !! p = promises w !! p) ∧
     (∀ s', s' ≠ s → signals (abort s w) !! s' = signals w !! s') ∧
     (∀ c1 rest u, pendingResolves (queue (abort s w)) = c1 :: rest →
        promises (push u (abort s w)).2 !! promiseId c1 = Some (Fulfilled u) ∧
        pendingResolves (queue (push u (abort s w)).2) = rest)).
Proof.
  split; [intros u v; vm_compute; done|].
  intros w s sg c Hwf Hs Ha Hl Hc.
  pose proof (wellFormed_abort s w Hwf) as Hwf'.
  rewrite (abort_single s sg c w Hs Ha Hl) in *.
  assert (abortSignal c = Some s) as Hhome.
  { eapply (wf_home _ Hwf); [done|]. rewrite Hl. by left. }
  split_and!.
  - rewrite onAbort_promises. apply settle_pending. simpl. by apply wf_pending.
  - by rewrite onAbort_queue, spliceReject_pendingResolves.
  - intros p Hp. rewrite onAbort_promises. unfold reject.
    by rewrite settle_lookup_ne.
  - intros s' Hs'. rewrite onAbort_signals.
    rewrite removeEventListener_lookup_ne by congruence.
    simpl. by rewrite list_lookup_insert_ne.
  - intros c1 rest u Hrest.
    assert (c1 ∈ pendingResolves (queue (onAbort c (markAborted s sg w)))) as Hc1.
    { rewrite Hrest. by left. }
    pose proof (push_dichotomy u _ (waiter_open _ _ Hwf' Hc1)) as Hpush.
    rewrite Hrest in Hpush. destruct Hpush as (Hr & _ & Hp).
    split; [|done]. apply Hp. by apply wf_pending.
Qed.

(** C7: the listener survives [close].  A pop registered with a signal on a
    fresh queue loses its ['abort'] listener when a push fulfils it and when
    its signal fires, but after [close] has rejected it with [QueueClosed]
    and emptied the waiter arrays, its [onAbort] is still registered on the
    signal.  In every world [close] leaves all signals as they were, while a
    settled promise keeps its outcome in every execution. *)
Theorem close_keeps_abort_listener (v : T) :
  let '(s, w0) := newAbortController newWorld in
  let '(p, w) := pop (Some s) w0 in
  let c := {| promiseId := p; abortSignal := Some s |} in
  signals w !! s = Some {| aborted := false; listeners := [c] |} ∧
  (promises (push v w).2 !! p = Some (Fulfilled v) ∧
   signals (push v w).2 !! s = Some {| aborted := false; listeners := [] |}) ∧
  (promises (abort s w) !! p = Some (Rejected Cancelled) ∧
   signals (abort s w) !! s = Some {| aborted := true; listeners := [] |}) ∧
  (promises (close w) !! p = Some (Rejected QueueClosed) ∧
   pendingResolves (queue (close w)) = [] ∧
   pendingRejects (queue (close w)) = [] ∧
   signals (close w) !! s = Some {| aborted := false; listeners := [c] |}) ∧
  (∀ w' : World T, signals (close w') = signals w') ∧
  (∀ (w' : World T) es, settledKept w' (run es w')).
Proof.
  vm_compute newAbortController. vm_compute pop. cbv zeta.
  split_and!; [by vm_compute..| |].
  - apply close_signals.
  - intros w' es. apply settled_forever.
Qed.

End Cancellation.

(** The general part of C6 at the world of its scenario, before the signal
    of the second pop fires. *)
Lemma cancellation_isolation_witness :
  let w : World string :=
    run [ECall CNewAbortController; ECall CNewAbortController;
         ECall CNewAbortController; ECall (CPop (Some 0));
         ECall (CPop (Some 1)); ECall (CPop (Some 2))] newWorld in
  let c := {| promiseId := 1; abortSignal := Some 1 |} in
  promises (abort 1 w) !! 1 = Some (Rejected Cancelled) ∧
  pendingResolves (queue (abort 1 w)) =
    filter (λ r, r ≠ c) (pendingResolves (queue w)) ∧
  (∀ p, p ≠ 1 → promises (abort 1 w) !! p = promises w !! p) ∧
  (∀ s', s' ≠ 1 → signals (abort 1 w) !! s' = signals w !! s') ∧
  (∀ c1 rest u, pendingResolves (queue (abort 1 w)) = c1 :: rest →
     promises (push u (abort 1 w)).2 !! promiseId c1 = Some (Fulfilled u) ∧
     pendingResolves (queue (push u (abort 1 w)).2) = rest).
Proof.
  intros w c.
  apply (proj2 cancellation_isolation w 1 {| aborted := false; listeners := [c] |} c).
  - apply reachable_wellFormed. eexists. reflexivity.
  - reflexivity.
  - reflexivity.
  - reflexivity.
  - vm_compute. right. left.
Defined.

(** ** Streams and shutdown *)

Section StreamShutdown.
Context {T : Type}.
Implicit Types (w : World T) (q : AsyncQueue T) (c : PopClosure) (p : nat).
Implicit Types (msg v : T) (e : JsError) (s : nat) (sig : option nat).

Lemma resume_rejected k st p e (body : list (Call T)) throws w :
  streams w !! k = Some st → loopState st = Awaiting p →
  promises w !! p = Some (Rejected e) →
  resume k body throws w = catchBlock k e w.
Proof. intros Hst Hl Hp. unfold resume. by rewrite Hst, Hl, Hp. Qed.

Lemma setLoopState_lookup k st0 st w :
  streams w !! k = Some st0 →
  streams (setLoopState k st w) !! k =
    Some {| streamSignal := streamSignal st0; loopState := st |}.
Proof.
  intros Hst. unfold setLoopState. rewrite Hst. simpl.
  apply list_lookup_insert_eq. by eapply lookup_lt_Some.
Qed.

(** A loop that is not awaiting a promise is never resumed. *)
Lemma resume_ended k st (body : list (Call T)) throws w :
  streams w !! k = Some st → (∀ p, loopState st ≠ Awaiting p) →
  resume k body throws w = w.
Proof.
  intros Hst Hl. unfold resume. rewrite Hst.
  destruct (loopState st) as [p| |]; [by destruct (Hl p)|done..].
Qed.

(** The queue's own methods do not touch the streams nor the dispatch log. *)
Lemma push_streams v w :
  streams (push v w).2 = streams w ∧ dispatched (push v w).2 = dispatched w.
Proof.
  unfold push. destruct (closed (queue w)); [done|].
  destruct (pendingResolves (queue w)) as [|c rest]; [done|]. simpl.
  unfold wrapperFn, resolve. rewrite settle_streams, settle_dispatched. simpl.
  by rewrite removeEventListener_streams, removeEventListener_dispatched.
Qed.

Lemma addEventListener_streams c w :
  streams (addEventListener c w) = streams w ∧
  dispatched (addEventListener c w) = dispatched w.
Proof. unfold addEventListener. by repeat case_match. Qed.

Lemma pop_streams sig w :
  streams (pop sig w).2 = streams w ∧ dispatched (pop sig w).2 = dispatched w.
Proof.
  destruct (pop_cases sig w)
    as [[_ ->]|[(msg&rest&_&_&->)|[(_&_&_&->)|(_&_&_&->)]]]; try done.
  unfold registered. simpl.
  apply (addEventListener_streams _ (setPromises (promises w ++ [Pending]) w)).
Qed.

Lemma close_streams w :
  streams (close w) = streams w ∧ dispatched (close w) = dispatched w.
Proof.
  destruct (closed (queue w)) eqn:Hc.
  - by rewrite close_closed.
  - rewrite close_open by done. simpl.
    by rewrite rejectAll_streams, rejectAll_dispatched.
Qed.

Lemma fireAll_streams (l : list PopClosure) : ∀ w,
  streams (fireAll l w) = streams w ∧ dispatched (fireAll l w) = dispatched w.
Proof.
  induction l as [|c l IH]; intros w; [done|].
  change (fireAll (c :: l) w) with (fireAll l (onAbort c w)).
  destruct (IH (onAbort c w)) as [-> ->].
  by rewrite onAbort_streams, onAbort_dispatched.
Qed.

Lemma abort_streams s w :
  streams (abort s w) = streams w ∧ dispatched (abort s w) = dispatched w.
Proof.
  destruct (abort_cases s w) as [->|(sg&_&_&->)]; [done|].
  by destruct (fireAll_streams (listeners sg) (markAborted s sg w)) as [-> ->].
Qed.

(** Calls keep every existing stream as it is and dispatch nothing. *)
Lemma exec_streams (c : Call T) k st w :
  streams w !! k = Some st →
  streams (exec c w).2 !! k = Some st ∧ dispatched (exec c w).2 = dispatched w.
Proof.
  intros Hk. destruct c as [msg|sig| | | |s| |j]; simpl.
  - destruct (push_streams msg w) as [Hs Hd]. destruct (push msg w). simpl in *.
    by rewrite Hs, Hd.
  - destruct (pop_streams sig w) as [Hs Hd]. destruct (pop sig w). simpl in *.
    by rewrite Hs, Hd.
  - by destruct (close_streams w) as [-> ->].
  - done.
  - done.
  - by destruct (abort_streams s w) as [-> ->].
  - unfold stream, newAbortController.
    match goal with |- context [pop ?a ?b] =>
      destruct (pop_streams a b) as [Hs Hd]; destruct (pop a b) as [p w'] end.
    simpl in *. rewrite Hs, Hd. split; [|done].
    rewrite lookup_app_l; [done|]. by eapply lookup_lt_Some.
  - unfold stop. case_match; [|done]. by destruct (abort_streams (streamSignal s) w) as [-> ->].
Qed.

Lemma execAll_streams (cs : list (Call T)) k st : ∀ w,
  streams w !! k = Some st →
  streams (execAll cs w) !! k = Some st ∧ dispatched (execAll cs w) = dispatched w.
Proof.
  induction cs as [|c cs IH]; intros w Hk; [done|].
  change (execAll (c :: cs) w) with (execAll cs (exec c w).2).
  destruct (exec_streams c k st w Hk) as [Hk' Hd'].
  destruct (IH _ Hk') as [? ->]. done.
Qed.

Lemma setLoopState_lookup_ne j k st w :
  j ≠ k → streams (setLoopState j st w) !! k = streams w !! k.
Proof.
  intros Hne. unfold setLoopState. case_match; [|done]. simpl.
  by apply list_lookup_insert_ne.
Qed.

Lemma catchBlock_lookup_ne j k e w :
  j ≠ k → streams (catchBlock j e w) !! k = streams w !! k.
Proof.
  intros Hne. unfold catchBlock. case_decide; by rewrite setLoopState_lookup_ne.
Qed.

Lemma catchBlock_dispatched j e w : dispatched (catchBlock j e w) = dispatched w.
Proof. unfold catchBlock. case_decide; by rewrite setLoopState_dispatched. Qed.

Lemma dispatchedTo_snoc_ne j k msg (d : list (nat * T)) :
  j ≠ k → filter (λ x, x.1 = k) (d ++ [(j, msg)]) = filter (λ x, x.1 = k) d.
Proof.
  intros Hne. rewrite filter_app. rewrite (filter_cons_False _ (j, msg)) by done.
  by rewrite filter_nil, app_nil_r.
Qed.

(** A loop that has ended stays as it is, and its handler is never invoked
    again, whatever happens. *)
Lemma ended_step (ev : Event T) k st w :
  streams w !! k = Some st → (∀ p, loopState st ≠ Awaiting p) →
  streams (step ev w) !! k = Some st ∧ dispatchedTo k (step ev w) = dispatchedTo k w.
Proof.
  intros Hk Hend. unfold dispatchedTo. destruct ev as [c|j body throws]; simpl.
  - destruct (exec_streams c k st w Hk) as [? ->]. done.
  - destruct (decide (j = k)) as [->|Hne].
    { by rewrite (resume_ended k st). }
    assert (∀ msg, streams (execAll body (setDispatched (dispatched w ++ [(j, msg)]) w)) !! k = Some st ∧
                   filter (λ x, x.1 = k) (dispatched (execAll body (setDispatched (dispatched w ++ [(j, msg)]) w))) =
                   filter (λ x, x.1 = k) (dispatched w)) as Hb.
    { intros msg.
      destruct (execAll_streams body k st (setDispatched (dispatched w ++ [(j, msg)]) w) Hk)
        as [? ->].
      split; [done|]. simpl. by apply dispatchedTo_snoc_ne. }
    destruct (resume_cases j body throws w)
      as [->|[(e&->)|[(msg&e&->)|(msg&sig&->)]]]; [done|..].
    + by rewrite catchBlock_lookup_ne, catchBlock_dispatched.
    + rewrite catchBlock_lookup_ne, catchBlock_dispatched by done. apply Hb.
    + rewrite setLoopState_lookup_ne, setLoopState_dispatched by done.
      destruct (pop_streams sig (execAll body (setDispatched (dispatched w ++ [(j, msg)]) w)))
        as [-> ->].
      apply Hb.
Qed.

Lemma ended_run (es : list (Event T)) k st : ∀ w,
  streams w !! k = Some st → (∀ p, loopState st ≠ Awaiting p) →
  streams (run es w) !! k = Some st ∧ dispatchedTo k (run es w) = dispatchedTo k w.
Proof.
  induction es as [|ev es IH]; intros w Hk Hend; [done|].
  change (run (ev :: es) w) with (run es (step ev w)).
  destruct (ended_step ev k st w Hk Hend) as [Hk' Hd'].
  destruct (IH _ Hk' Hend) as [? ->]. done.
Qed.

(** C8, as the code has it: when the promise awaited by the loop of stream
    [k] is rejected with [QueueClosed], resuming the loop invokes no handler
    and leaves the queue alone, but the [catch] block throws the error again:
    the loop fails with [QueueClosed], which is recorded as an unhandled
    rejection.  From then on, whatever happens, the loop stays failed and its
    handler is not invoked.  When the promise is rejected with [Cancelled],
    the loop ends silently, and it likewise stays ended with no further
    handler invocation. *)
Theorem stream_rethrows_queue_closed k st p (body : list (Call T)) throws w :
  streams w !! k = Some st → loopState st = Awaiting p →
  (promises w !! p = Some (Rejected QueueClosed) →
     dispatched (resume k body throws w) = dispatched w ∧
     queue (resume k body throws w) = queue w ∧
     unhandledRejections (resume k body throws w) =
       unhandledRejections w ++ [QueueClosed] ∧
     ∀ es,
       streams (run es (resume k body throws w)) !! k =
         Some {| streamSignal := streamSignal st; loopState := Failed QueueClosed |} ∧
       dispatchedTo k (run es (resume k body throws w)) = dispatchedTo k w) ∧
  (promises w !! p = Some (Rejected Cancelled) →
     endsSilently k w (resume k body throws w) ∧
     ∀ es,
       streams (run es (resume k body throws w)) !! k =
         Some {| streamSignal := streamSignal st; loopState := Completed |} ∧
       dispatchedTo k (run es (resume k body throws w)) = dispatchedTo k w).
Proof.
  intros Hst Hl. split; intros Hp; rewrite (resume_rejected _ _ _ _ _ _ _ Hst Hl Hp);
    unfold catchBlock; simpl.
  - assert (streams (setLoopState k (Failed QueueClosed)
              (setUnhandledRejections (unhandledRejections w ++ [QueueClosed]) w)) !! k =
            Some {| streamSignal := streamSignal st; loopState := Failed QueueClosed |})
      as Hk by (by apply setLoopState_lookup).
    split_and!.
    + by rewrite setLoopState_dispatched.
    + by rewrite setLoopState_queue.
    + by rewrite setLoopState_unhandled.
    + intros es. destruct (ended_run es k _ _ Hk) as [? ->]; [done|].
      split; [done|]. unfold dispatchedTo. by rewrite setLoopState_dispatched.
  - assert (streams (setLoopState k Completed w) !! k =
            Some {| streamSignal := streamSignal st; loopState := Completed |})
      as Hk by (by apply setLoopState_lookup).
    split.
    + split_and!; [by eexists|by rewrite setLoopState_dispatched|
                   by rewrite setLoopState_unhandled].
    + intros es. destruct (ended_run es k _ _ Hk) as [? ->]; [done|].
      split; [done|]. unfold dispatchedTo. by rewrite setLoopState_dispatched.
Qed.

End StreamShutdown.

(** A stream is started on a fresh queue and the queue is closed: the pending
    pop of the loop is rejected with [QueueClosed]. *)
Lemma stream_rethrows_queue_closed_witness :
  let w : World string := run [ECall CStream; ECall CClose] newWorld in
  dispatched (resume 0 [] None w) = dispatched w ∧
  queue (resume 0 [] None w) = queue w ∧
  unhandledRejections (resume 0 [] None w) = unhandledRejections w ++ [QueueClosed] ∧
  ∀ es,
    streams (run es (resume 0 [] None w)) !! 0 =
      Some {| streamSignal := 0; loopState := Failed QueueClosed |} ∧
    dispatchedTo 0 (run es (resume 0 [] None w)) = dispatchedTo 0 w.
Proof.
  intros w.
  apply (proj1 (stream_rethrows_queue_closed 0
                  {| streamSignal := 0; loopState := Awaiting 0 |} 0 [] None w
                  eq_refl eq_refl)).
  reflexivity.
Defined.

(** C8 as worded fails: after [stream] and [close] on a fresh queue the loop
    of stream 0 awaits promise 0, which [close] has rejected with
    [QueueClosed]; resuming the loop does not end it silently, the rejection
    surfaces as unhandled.  So the specification's sentence does not hold. *)
Lemma stream_closed_not_silent :
  let w : World string := run [ECall CStream; ECall CClose] newWorld in
  streams w !! 0 = Some {| streamSignal := 0; loopState := Awaiting 0 |} ∧
  promises w !! 0 = Some (Rejected QueueClosed) ∧
  ¬ endsSilently 0 w (resume 0 [] None w) ∧
  ¬ closeEndsStreamSilently string.
Proof.
  intros w.
  assert (¬ endsSilently 0 w (resume 0 [] None w)) as Hno.
  { intros (_ & _ & Hu). vm_compute in Hu. discriminate Hu. }
  split_and!; [done|done|done|].
  intros Hclaim. apply Hno. by eapply Hclaim.
Qed.

(** * Properties of checkSettingsValid *)

Section ValidatorFacts.
Context {V : Type}.
Implicit Types (a b acc : gset string) (s : MpcSettings) (nm : string).
Implicit Types (input : gmap string V) (p : MpcParticipantSettings).

Lemma has_true (a : gset string) x : has a x = true ↔ x ∈ a.
Proof. unfold has. apply bool_decide_eq_true. Qed.

Lemma has_false (a : gset string) x : has a x = false ↔ x ∉ a.
Proof. unfold has. apply bool_decide_eq_false. Qed.

Lemma allIn_spec (items : list string) b :
  allIn items b = true ↔ ∀ x, x ∈ items → x ∈ b.
Proof.
  induction items as [|x items IH]; simpl.
  - split; [|done]. intros _ x Hx. by apply elem_of_nil in Hx.
  - destruct (has b x) eqn:Hx; simpl.
    + apply has_true in Hx. rewrite IH. split.
      * intros H y [->|?]%elem_of_cons; auto.
      * intros H y Hy. apply H. by right.
    + apply has_false in Hx. split; [done|]. intros H. exfalso. apply Hx, H. by left.
Qed.

(** [areSetsEqual] decides equality of sets. *)
Lemma areSetsEqual_spec a b : areSetsEqual a b = true ↔ a = b.
Proof.
  unfold areSetsEqual. destruct (size a =? size b) eqn:Hsz; simpl.
  - apply Nat.eqb_eq in Hsz. rewrite allIn_spec. split.
    + intros Hsub. apply set_subseteq_size_eq; [|lia].
      intros x Hx. by apply Hsub, elem_of_elements.
    + intros -> x Hx. by apply elem_of_elements.
  - apply Nat.eqb_neq in Hsz. split; [done|]. intros ->. done.
Qed.

Lemma areSetsEqual_false a b : areSetsEqual a b = false ↔ a ≠ b.
Proof.
  rewrite <- areSetsEqual_spec. destruct (areSetsEqual a b); naive_solver.
Qed.

(** The inner claiming loop succeeds exactly on duplicate-free names that are
    not claimed yet, and then returns the set it was given plus those names. *)
Lemma claimInputs_spec (ins : list string) : ∀ acc,
  match claimInputs ins acc with
  | inr acc' =>
      NoDup ins ∧ (∀ x, x ∈ ins → x ∉ acc) ∧ acc' = list_to_set ins ∪ acc
  | inl _ => ¬ (NoDup ins ∧ ∀ x, x ∈ ins → x ∉ acc)
  end.
Proof.
  induction ins as [|x ins IH]; intros acc; simpl.
  - split_and!; [constructor| |set_solver]. intros x Hx. by apply elem_of_nil in Hx.
  - destruct (has acc x) eqn:Hx.
    + apply has_true in Hx. intros [_ H]. apply (H x); [by left|done].
    + apply has_false in Hx. specialize (IH ({[x]} ∪ acc)).
      destruct (claimInputs ins ({[x]} ∪ acc)) as [err|acc'].
      * intros [Hnd H]. apply IH. apply NoDup_cons in Hnd as [Hx' Hnd].
        split; [done|]. intros y Hy. specialize (H y). set_solver.
      * destruct IH as (Hnd & H & ->). split_and!.
        -- apply NoDup_cons. split; [|done]. intros Hin. specialize (H x Hin). set_solver.
        -- intros y [->|Hy]%elem_of_cons; [done|]. specialize (H y Hy). set_solver.
        -- set_solver.
Qed.

Lemma claimAll_spec s : ∀ acc,
  match claimAll s acc with
  | inr acc' =>
      NoDup (s ≫= inputs) ∧ (∀ x, x ∈ s ≫= inputs → x ∉ acc) ∧
      acc' = list_to_set (s ≫= inputs) ∪ acc
  | inl _ => ¬ (NoDup (s ≫= inputs) ∧ ∀ x, x ∈ s ≫= inputs → x ∉ acc)
  end.
Proof.
  induction s as [|p s IH]; intros acc; simpl.
  - split_and!; [constructor| |set_solver]. intros x Hx. by apply elem_of_nil in Hx.
  - pose proof (claimInputs_spec (inputs p) acc) as Hp.
    destruct (claimInputs (inputs p) acc) as [err|acc1].
    + intros [Hnd H]. apply Hp. apply NoDup_app in Hnd as (Hnd & _ & _).
      split; [done|]. intros x Hx. apply H. apply elem_of_app. by left.
    + destruct Hp as (Hnd1 & H1 & ->).
      specialize (IH (list_to_set (inputs p) ∪ acc)).
      destruct (claimAll s (list_to_set (inputs p) ∪ acc)) as [err|acc2].
      * intros [Hnd H]. apply IH. apply NoDup_app in Hnd as (_ & Hdis & Hnd).
        split; [done|]. intros x Hx.
        assert (x ∉ acc) by (apply H, elem_of_app; by right).
        assert (x ∉ inputs p) by (intros Hin; by apply (Hdis x)).
        set_solver.
      * destruct IH as (Hnd2 & H2 & ->). split_and!.
        -- apply NoDup_app. split_and!; [done| |done].
           intros x Hx Hx'. specialize (H2 x Hx'). set_solver.
        -- intros x [Hx|Hx]%elem_of_app; [by apply H1|].
           specialize (H2 x Hx). set_solver.
        -- rewrite list_to_set_app_L. set_solver.
Qed.

Lemma claimedInputs_flat s : claimedInputs s = list_to_set (s ≫= inputs).
Proof.
  unfold claimedInputs. induction s as [|p s IH]; [done|].
  rewrite fmap_cons, union_list_cons, bind_cons, list_to_set_app_L.
  by rewrite <- IH.
Qed.

(** From the empty set, claiming fails exactly when a name is claimed twice. *)
Lemma claimAll_empty s :
  match claimAll s ∅ with
  | inr acc => NoDup (s ≫= inputs) ∧ acc = claimedInputs s
  | inl _ => claimedTwice s
  end.
Proof.
  pose proof (claimAll_spec s ∅) as H. destruct (claimAll s ∅) as [err|acc].
  - intros Hnd. apply H. split; [done|]. set_solver.
  - destruct H as (Hnd & _ & ->). split; [done|].
    rewrite claimedInputs_flat. set_solver.
Qed.

Lemma checkOutputNames_spec (outs : list string) b :
  checkOutputNames outs b = None ↔ ∀ o, o ∈ outs → o ∈ b.
Proof.
  induction outs as [|o outs IH]; simpl.
  - split; [|done]. intros _ x Hx. by apply elem_of_nil in Hx.
  - destruct (has b o) eqn:Ho; simpl.
    + apply has_true in Ho. rewrite IH. split.
      * intros H y [->|?]%elem_of_cons; auto.
      * intros H y Hy. apply H. by right.
    + apply has_false in Ho. split; [done|]. intros H. exfalso. apply Ho, H. by left.
Qed.

Lemma checkOutputs_spec s b :
  checkOutputs s b = None ↔ ∀ p o, p ∈ s → o ∈ outputs p → o ∈ b.
Proof.
  induction s as [|p s IH]; simpl.
  - split; [|done]. intros _ p o Hp. by apply elem_of_nil in Hp.
  - destruct (checkOutputNames (outputs p) b) as [err|] eqn:Hp.
    + split; [done|]. intros H.
      assert (checkOutputNames (outputs p) b = None) as Hn.
      { apply checkOutputNames_spec. intros o. apply H. by left. }
      congruence.
    + rewrite IH. pose proof (proj1 (checkOutputNames_spec _ _) Hp) as Hp'. split.
      * intros H q o [->|?]%elem_of_cons; eauto.
      * intros H q o Hq. apply H. by right.
Qed.

Lemma checkOutputs_unknown s b :
  is_Some (checkOutputs s b) ↔ unknownOutput b s.
Proof.
  unfold unknownOutput. destruct (checkOutputs s b) as [err|] eqn:Hc.
  - split; [intros _|by eauto].
    destruct (decide (Exists (λ p, Exists (λ o, o ∉ b) (outputs p)) s)) as [Hex|Hno].
    + apply Exists_exists in Hex as (p & Hp & Ho).
      apply Exists_exists in Ho as (o & Ho & Hob). eauto.
    + assert (checkOutputs s b = None); [|congruence].
      apply checkOutputs_spec. intros p o Hp Ho.
      destruct (decide (o ∈ b)) as [|Hn]; [done|]. exfalso. apply Hno.
      apply Exists_exists. exists p. split; [done|].
      apply Exists_exists. eauto.
  - split; [by intros [? ?]|]. intros (p & o & Hp & Ho & Hn). exfalso.
    apply Hn. by eapply (proj1 (checkOutputs_spec s b)).
Qed.

(** [find] returns the first participant that answers to the name. *)
Lemma findFrom_spec s nm : ∀ i,
  match findFrom i s nm with
  | Some p =>
      ∃ j, s !! j = Some p ∧ answersTo (i + j) p nm ∧
           ∀ j' q, j' < j → s !! j' = Some q → ¬ answersTo (i + j') q nm
  | None => ∀ j q, s !! j = Some q → ¬ answersTo (i + j) q nm
  end.
Proof.
  induction s as [|p s IH]; intros i; simpl; [done|].
  case_decide as Hp.
  - exists 0. rewrite Nat.add_0_r. split_and!; [done|done|]. intros; lia.
  - specialize (IH (S i)). destruct (findFrom (S i) s nm) as [p'|].
    + destruct IH as (j & Hj & Ha & Hfirst). exists (S j).
      rewrite Nat.add_succ_r. split_and!; [done|done|].
      intros [|j'] q Hlt Hq; simpl in Hq.
      * injection Hq as <-. by rewrite Nat.add_0_r.
      * rewrite Nat.add_succ_r. apply (Hfirst j' q); [lia|done].
    + intros [|j] q Hq; simpl in Hq.
      * injection Hq as <-. by rewrite Nat.add_0_r.
      * rewrite Nat.add_succ_r. by apply IH.
Qed.

Lemma find_calling s nm p : findFrom 0 s nm = Some p ↔ callingParticipant s nm p.
Proof.
  pose proof (findFrom_spec s nm 0) as H. unfold callingParticipant. split.
  - intros Hf. by rewrite Hf in H.
  - intros (i & Hi & Ha & Hfirst). destruct (findFrom 0 s nm) as [p'|].
    + destruct H as (j & Hj & Ha' & Hfirst'). simpl in *.
      destruct (Nat.lt_trichotomy i j) as [Hlt|[->|Hlt]].
      * by destruct (Hfirst' i p Hlt Hi).
      * congruence.
      * by destruct (Hfirst j p' Hlt Hj).
    + by destruct (H i p Hi).
Qed.

Lemma find_unknown s nm : findFrom 0 s nm = None ↔ unknownCaller s nm.
Proof.
  pose proof (findFrom_spec s nm 0) as H. unfold unknownCaller. split.
  - intros Hf. by rewrite Hf in H.
  - intros Hu. destruct (findFrom 0 s nm) as [p|]; [|done].
    destruct H as (j & Hj & Ha & _). by destruct (Hu j p Hj).
Qed.

Lemma newSet_objectKeys {X} (o : gmap string X) : newSet (objectKeys o) = dom o.
Proof. unfold newSet, objectKeys. symmetry. apply leibniz_equiv, dom_alt. Qed.

(** The validator rejects exactly under the five conditions the code tests. *)
Lemma checkAgainst_rejects (ci co : gset string) s nm input :
  is_Some (checkAgainst ci co s nm input) ↔ rejectedByCode ci co s nm input.
Proof.
  unfold checkAgainst, rejectedByCode.
  pose proof (claimAll_empty s) as Hclaim.
  destruct (claimAll s ∅) as [err|acc]; [split; [by left|by eauto]|].
  destruct Hclaim as [Hnd ->].
  destruct (areSetsEqual (claimedInputs s) ci) eqn:Heq; simpl.
  2: { apply areSetsEqual_false in Heq. split; [by right; left|by eauto]. }
  apply areSetsEqual_spec in Heq.
  pose proof (checkOutputs_unknown s co) as Hout.
  destruct (checkOutputs s co) as [err|].
  { split; [intros _; right; right; left; apply Hout; by eauto|by eauto]. }
  assert (¬ unknownOutput co s) as Hno.
  { intros Hu. apply Hout in Hu. by destruct Hu. }
  destruct (findFrom 0 s nm) as [cur|] eqn:Hfind.
  2: { pose proof (proj1 (find_unknown s nm) Hfind).
       split; [by do 3 right; left|by eauto]. }
  pose proof (proj1 (find_calling s nm cur) Hfind) as Hcall.
  rewrite newSet_objectKeys.
  destruct (areSetsEqual (dom input) (newSet (inputs cur))) eqn:Hkeys; simpl.
  - apply areSetsEqual_spec in Hkeys. split; [by intros [? ?]|].
    intros [Htwice|[Hmis|[Hu|[Hu|(p & Hp & Hne)]]]]; exfalso.
    + by apply Htwice.
    + by apply Hmis.
    + by apply Hno.
    + pose proof (proj2 (find_unknown s nm) Hu). congruence.
    + pose proof (proj2 (find_calling s nm p) Hp).
      assert (p = cur) as -> by congruence. by apply Hne.
  - apply areSetsEqual_false in Hkeys. split; [intros _|by eauto].
    do 4 right. by exists cur.
Qed.

(** A name claimed by two participants occurs twice in the concatenation. *)
Lemma twice_of_two s i j p q x :
  i < j → s !! i = Some p → s !! j = Some q →
  x ∈ inputs p → x ∈ inputs q → claimedTwice s.
Proof.
  intros Hlt Hi Hj Hp Hq Hnd.
  rewrite <- (take_drop_middle s i p Hi) in Hnd.
  rewrite bind_app, bind_cons in Hnd.
  apply NoDup_app in Hnd as (_ & _ & Hnd).
  apply NoDup_app in Hnd as (_ & Hdis & _).
  apply (Hdis x Hp). apply list_elem_of_bind. exists q. split; [done|].
  apply list_elem_of_lookup. exists (j - S i). rewrite lookup_drop.
  by replace (S i + (j - S i)) with j by lia.
Qed.

Lemma claimedByMoreThanOne_twice s : claimedByMoreThanOne s → claimedTwice s.
Proof.
  intros (i & j & p & q & x & Hne & Hi & Hj & Hp & Hq).
  destruct (Nat.lt_trichotomy i j) as [Hlt|[->|Hlt]]; [|done|].
  - by eapply (twice_of_two s i j).
  - by eapply (twice_of_two s j i).
Qed.

Lemma rejectedAsWorded_byCode (ci co : gset string) s nm input :
  rejectedAsWorded ci co s nm input → rejectedByCode ci co s nm input.
Proof.
  unfold rejectedAsWorded, rejectedByCode.
  intros [H|H]; [left; by apply claimedByMoreThanOne_twice|by right].
Qed.

End ValidatorFacts.

(** C9, as the code has it: [checkSettingsValid] returns an error exactly when
    (1') a name occurs more than once in the concatenation of all
    participants' input lists, whether two participants claim it or one lists
    it twice; or (2) the union of the participants' inputs differs from the
    circuit's input names; or (3) a participant's output is not a circuit
    output; or (4) no participant answers to the caller's name; or (5) the
    key set of the supplied input differs from the calling participant's
    input names.  This holds for both circuit types.  Each of the five
    conditions as the specification words them leads to an error.  With the
    circuit and settings of scenario E, input {a: 3} gives no error and the
    inputs {} and {a: 3, x: 5} give one. *)
Theorem checkSettingsValid_rejects_iff :
  (∀ V (circuit : Circuit) s nm (input : gmap string V),
     is_Some (checkSettingsValid circuit s nm input) ↔
     rejectedByCode (dom (input_name_to_wire_index (info circuit)))
                    (dom (output_name_to_wire_index (info circuit))) s nm input) ∧
  (∀ V (circuit : IOCircuit) s nm (input : gmap string V),
     is_Some (checkSettingsValidIO circuit s nm input) ↔
     rejectedByCode (list_to_set (ioName <$> ioInputs circuit))
                    (list_to_set (ioName <$> ioOutputs circuit)) s nm input) ∧
  (∀ V (circuit : Circuit) s nm (input : gmap string V),
     rejectedAsWorded (dom (input_name_to_wire_index (info circuit)))
                      (dom (output_name_to_wire_index (info circuit))) s nm input →
     is_Some (checkSettingsValid circuit s nm input)) ∧
  checkSettingsValid aPlusB aliceAndBob "alice" ({[ "a" := 3 ]} : gmap string nat) = None ∧
  is_Some (checkSettingsValid aPlusB aliceAndBob "alice" (∅ : gmap string nat)) ∧
  is_Some (checkSettingsValid aPlusB aliceAndBob "alice"
             ({[ "a" := 3; "x" := 5 ]} : gmap string nat)).
Proof.
  split_and!.
  - intros V circuit s nm input. unfold checkSettingsValid.
    rewrite !newSet_objectKeys. apply checkAgainst_rejects.
  - intros V circuit s nm input. apply checkAgainst_rejects.
  - intros V circuit s nm input Hw. unfold checkSettingsValid.
    rewrite !newSet_objectKeys. by apply checkAgainst_rejects, rejectedAsWorded_byCode.
  - by vm_compute.
  - eexists. by vm_compute.
  - eexists. by vm_compute.
Qed.

(** C9 as worded fails: the validator rejects a participant who lists one
    input twice, although none of the five conditions as worded holds. *)
Lemma checkSettingsValid_rejects_unworded :
  is_Some (checkSettingsValid oneInput aliceTwice "alice"
             ({[ "a" := 3 ]} : gmap string nat)) ∧
  ¬ rejectedAsWorded (dom (input_name_to_wire_index (info oneInput)))
                     (dom (output_name_to_wire_index (info oneInput)))
                     aliceTwice "alice" ({[ "a" := 3 ]} : gmap string nat).
Proof.
  split; [eexists; by vm_compute|].
  intros [H|[H|[H|[H|H]]]].
  - destruct H as (i & j & p & q & x & Hne & Hi & Hj & _).
    apply lookup_lt_Some in Hi, Hj. simpl in *. lia.
  - apply H. unfold claimedInputs. simpl. set_solver.
  - destruct H as (p & o & Hp & Ho & Hn).
    apply list_elem_of_singleton in Hp as ->. simpl in *. set_solver.
  - by apply (H 0 _ eq_refl).
  - destruct H as (p & (i & Hi & _) & Hne).
    apply list_elem_of_lookup_2, list_elem_of_singleton in Hi as ->.
    apply Hne. simpl. set_solver.
Qed.

(** * Further properties of the queue *)

Section Waiters.
Context {T : Type}.
Implicit Types (w : World T) (q : AsyncQueue T) (c : PopClosure) (p : nat).
Implicit Types (msg v : T) (e : JsError) (s : nat) (sig : option nat).

(** X1: in every reachable world the two waiter arrays are in step
    ([pendingRejects] lists the promises of [pendingResolves], in the same
    order, without repetition), every listed waiter is still pending, and a
    closed queue has an empty buffer and empty waiter arrays. *)
Theorem waiter_arrays_in_step w :
  reachable w →
  pendingRejects (queue w) = promiseId <$> pendingResolves (queue w) ∧
  NoDup (pendingRejects (queue w)) ∧
  (∀ c, c ∈ pendingResolves (queue w) → promises w !! promiseId c = Some Pending) ∧
  (closed (queue w) = true →
   messages (queue w) = [] ∧ pendingResolves (queue w) = [] ∧
   pendingRejects (queue w) = []).
Proof.
  intros Hw. apply reachable_wellFormed in Hw.
  split_and!; [by apply wf_parallel|by apply wf_nodup|by apply wf_pending|].
  intros Hc. destruct (wf_closed _ Hw Hc) as [Hm Hr].
  split_and!; [done..|]. by rewrite (wf_parallel _ Hw), Hr.
Qed.

(** X2: a push on an open queue with a pending waiter settles exactly one
    promise, that of the oldest waiter: every other promise is as before, the
    buffer is untouched, and both waiter arrays lose their head. *)
Theorem push_delivers_to_one v c rest w :
  wellFormed w →
  pendingResolves (queue w) = c :: rest →
  (push v w).1 = Normal ∧
  promises (push v w).2 !! promiseId c = Some (Fulfilled v) ∧
  (∀ p, p ≠ promiseId c → promises (push v w).2 !! p = promises w !! p) ∧
  messages (queue (push v w).2) = [] ∧
  pendingResolves (queue (push v w).2) = rest ∧
  pendingRejects (queue (push v w).2) = promiseId <$> rest.
Proof.
  intros Hwf Hr.
  assert (c ∈ pendingResolves (queue w)) as Hc by (rewrite Hr; by left).
  pose proof (waiter_open _ _ Hwf Hc) as Hopen.
  pose proof (wellFormed_push v w Hwf) as Hwf'.
  rewrite (push_waiter _ _ _ _ Hopen Hr) in *. simpl.
  assert (pendingResolves (queue (wrapperFn c v
            (setQueue (setPendingResolves rest (queue w)) w))) = rest) as Hrest.
  { by rewrite wrapperFn_queue, spliceReject_pendingResolves. }
  split_and!.
  - done.
  - rewrite wrapperFn_promises. apply settle_pending. simpl. by apply wf_pending.
  - intros p Hp. rewrite wrapperFn_promises. unfold resolve.
    by rewrite settle_lookup_ne.
  - rewrite wrapperFn_queue, spliceReject_messages. simpl.
    destruct (wf_exclusive _ Hwf) as [?|?]; [done|congruence].
  - done.
  - simpl in Hwf'. by rewrite (wf_parallel _ Hwf'), Hrest.
Qed.

(** X3: a signal that is already aborted when [pop] is called does not stop
    [pop] from handing out a buffered message; only on an empty buffer is the
    pop rejected with [Cancelled], at once and without leaving a waiter or a
    listener behind. *)
Theorem pop_with_aborted_signal sig w :
  closed (queue w) = false → isAborted sig w = true →
  match messages (queue w) with
  | msg :: rest =>
      promises (pop sig w).2 !! (pop sig w).1 = Some (Fulfilled msg) ∧
      messages (queue (pop sig w).2) = rest
  | [] =>
      promises (pop sig w).2 !! (pop sig w).1 = Some (Rejected Cancelled) ∧
      queue (pop sig w).2 = queue w ∧
      signals (pop sig w).2 = signals w
  end.
Proof.
  intros Hc Ha. destruct (messages (queue w)) as [|msg rest] eqn:Hm.
  - rewrite pop_aborted by done. simpl. split_and!; [|done..].
    rewrite lookup_app_r by lia. by rewrite Nat.sub_diag.
  - rewrite (pop_buffered sig msg rest) by done. simpl. split; [|done].
    rewrite lookup_app_r by lia. by rewrite Nat.sub_diag.
Qed.

End Waiters.

Lemma waiter_arrays_in_step_witness :
  let w : World string := run [ECall (CPop None); ECall (CPop None)] newWorld in
  pendingRejects (queue w) = promiseId <$> pendingResolves (queue w) ∧
  NoDup (pendingRejects (queue w)) ∧
  (∀ c, c ∈ pendingResolves (queue w) → promises w !! promiseId c = Some Pending) ∧
  (closed (queue w) = true →
   messages (queue w) = [] ∧ pendingResolves (queue w) = [] ∧
   pendingRejects (queue w) = []).
Proof.
  intros w. apply (waiter_arrays_in_step w). eexists. reflexivity.
Defined.

Lemma push_delivers_to_one_witness :
  let w : World string := run [ECall (CPop None); ECall (CPop None)] newWorld in
  let c := {| promiseId := 0; abortSignal := None |} in
  let rest := [{| promiseId := 1; abortSignal := None |}] in
  (push "x" w).1 = Normal ∧
  promises (push "x" w).2 !! 0 = Some (Fulfilled "x") ∧
  (∀ p, p ≠ 0 → promises (push "x" w).2 !! p = promises w !! p) ∧
  messages (queue (push "x" w).2) = [] ∧
  pendingResolves (queue (push "x" w).2) = rest ∧
  pendingRejects (queue (push "x" w).2) = promiseId <$> rest.
Proof.
  intros w c rest. apply (push_delivers_to_one "x" c rest w).
  - apply reachable_wellFormed. eexists. reflexivity.
  - reflexivity.
Defined.

Lemma pop_with_aborted_signal_witness :
  let w : World string :=
    run [ECall CNewAbortController; ECall (CAbort 0); ECall (CPush "m")] newWorld in
  promises (pop (Some 0) w).2 !! (pop (Some 0) w).1 = Some (Fulfilled "m") ∧
  messages (queue (pop (Some 0) w).2) = [].
Proof.
  intros w. apply (pop_with_aborted_signal (Some 0) w); reflexivity.
Defined.

(** ** Pending pops are served in registration order *)

Section Fairness.
Context {T : Type}.
Implicit Types (w : World T) (q : AsyncQueue T) (c : PopClosure) (p : nat).
Implicit Types (msg v : T) (e : JsError) (s : nat) (sig : option nat).

(** [n] pops without a signal on an open queue with an empty buffer register
    [n] waiters, in order. *)
Lemma popN_registers n : ∀ w,
  closed (queue w) = false → messages (queue w) = [] →
  ∃ w',
    popN n w = (seq (length (promises w)) n, w') ∧
    queue w' =
      {| messages := [];
         pendingResolves :=
           pendingResolves (queue w) ++
           ((λ p, {| promiseId := p; abortSignal := None |}) <$>
              seq (length (promises w)) n);
         pendingRejects := pendingRejects (queue w) ++ seq (length (promises w)) n;
         closed := false |} ∧
    promises w' = promises w ++ replicate n Pending.
Proof.
  induction n as [|n IH]; intros w Hc Hm.
  - exists w. split_and!; [done| |by rewrite app_nil_r].
    apply queue_eq; simpl; by rewrite ?app_nil_r.
  - destruct (IH w Hc Hm) as (w' & Hpop & Hq & Hp).
    unfold popN in *. rewrite Nat.iter_succ, Hpop.
    assert (closed (queue w') = false) as Hc' by (by rewrite Hq).
    assert (messages (queue w') = []) as Hm' by (by rewrite Hq).
    rewrite (pop_registers None w' Hc' Hm' eq_refl).
    exists (registered None w'). split_and!.
    + rewrite Hp, length_app, length_replicate. by rewrite seq_S.
    + rewrite registered_queue, Hq, Hp, seq_S, fmap_app, !app_assoc.
      rewrite length_app, length_replicate. done.
    + rewrite registered_promises, Hp, <- app_assoc. f_equal.
      by rewrite replicate_S_end.
Qed.

(** Pushing [vs] to a queue whose waiters are exactly the promises
    [a, a+1, ...], all pending, fulfils them in order. *)
Lemma pushAll_feeds (vs : list T) : ∀ (fed : list T) (P : list (Settled T)) rs w,
  queue w =
    {| messages := [];
       pendingResolves :=
         (λ p, {| promiseId := p; abortSignal := None |}) <$>
           seq (length P + length fed) (length vs);
       pendingRejects := seq (length P + length fed) (length vs);
       closed := false |} →
  promises w = P ++ (Fulfilled <$> fed) ++ replicate (length vs) Pending →
  ∃ w',
    foldl (λ '(rs, w) v, let '(r, w) := push v w in (rs ++ [r], w)) (rs, w) vs =
      (rs ++ replicate (length vs) Normal, w') ∧
    queue w' = newQueue ∧
    promises w' = P ++ (Fulfilled <$> (fed ++ vs)).
Proof.
  induction vs as [|v vs IH]; intros fed P rs w Hq Hp.
  - exists w. simpl in *. rewrite !app_nil_r in *. done.
  - simpl length in *. rewrite <- cons_seq in Hq. rewrite fmap_cons in Hq.
    set (a := length P + length fed) in *.
    set (c := {| promiseId := a; abortSignal := None |}) in *.
    assert (closed (queue w) = false) as Hc by (by rewrite Hq).
    assert (pendingResolves (queue w) =
            c :: ((λ p, {| promiseId := p; abortSignal := None |}) <$> seq (S a) (length vs)))
      as Hr by (by rewrite Hq).
    simpl. rewrite (push_waiter _ _ _ _ Hc Hr).
    match goal with |- context [wrapperFn c v ?w0] => set (w1 := wrapperFn c v w0) end.
    assert (promises w !! a = Some Pending) as Ha.
    { rewrite Hp. rewrite lookup_app_r by (unfold a; lia).
      rewrite lookup_app_r by (rewrite length_fmap; unfold a; lia).
      rewrite length_fmap. replace (a - length P - length fed) with 0 by (unfold a; lia).
      done. }
    destruct (IH (fed ++ [v]) P (rs ++ [Normal]) w1) as (w' & Hfold & Hq' & Hp').
    + unfold w1. rewrite wrapperFn_queue. simpl. rewrite Hq.
      unfold spliceReject, indexOf. simpl. rewrite decide_True by done. simpl.
      rewrite length_app. simpl.
      by replace (length P + (length fed + 1)) with (S a) by (unfold a; lia).
    + unfold w1. rewrite wrapperFn_promises. unfold resolve.
      rewrite settle_promises. simpl. rewrite Ha, Hp.
      rewrite insert_app_r_alt by (unfold a; lia).
      rewrite insert_app_r_alt by (rewrite length_fmap; unfold a; lia).
      rewrite length_fmap. replace (a - length P - length fed) with 0 by (unfold a; lia).
      simpl. rewrite fmap_app. simpl. by rewrite <- !app_assoc.
    + exists w'. rewrite Hfold, <- !app_assoc. simpl. split_and!; [done|done|].
      by rewrite Hp', <- app_assoc.
Qed.

(** X4: when [length vs] pops (no signal) are pending on an open, empty queue
    and [vs] is then pushed, every push returns normally and the pops are
    fulfilled in registration order with [vs] in push order; afterwards the
    queue is empty again. *)
Theorem pending_pops_served_in_order w (vs : list T) :
  closed (queue w) = false → messages (queue w) = [] →
  pendingResolves (queue w) = [] → pendingRejects (queue w) = [] →
  ∃ ps w1 w2,
    popN (length vs) w = (ps, w1) ∧
    pushAll vs w1 = (replicate (length vs) Normal, w2) ∧
    Forall2 (λ p v, promises w1 !! p = Some Pending ∧
                    promises w2 !! p = Some (Fulfilled v)) ps vs ∧
    queue w2 = newQueue.
Proof.
  intros Hc Hm Hr Hj.
  destruct (popN_registers (length vs) w Hc Hm) as (w1 & Hpop & Hq1 & Hp1).
  rewrite Hr, Hj in Hq1. simpl in Hq1.
  destruct (pushAll_feeds vs [] (promises w) [] w1) as (w2 & Hpush & Hq2 & Hp2).
  { simpl. by rewrite Nat.add_0_r. }
  { by simpl. }
  exists (seq (length (promises w)) (length vs)), w1, w2.
  split_and!; [done|done| |done].
  apply Forall2_same_length_lookup_2; [by rewrite length_seq|].
  intros i p v Hp Hv. apply lookup_seq in Hp as [-> Hlt].
  rewrite Hp1, Hp2. simpl. rewrite !lookup_app_r by lia.
  replace (length (promises w) + i - length (promises w)) with i by lia.
  split; [by apply lookup_replicate_2|]. by rewrite list_lookup_fmap, Hv.
Qed.

End Fairness.

Lemma pending_pops_served_in_order_witness :
  ∃ ps (w1 w2 : World string),
    popN 3 newWorld = (ps, w1) ∧
    pushAll ["item1"; "item2"; "item3"] w1 = (replicate 3 Normal, w2) ∧
    Forall2 (λ p x, promises w1 !! p = Some Pending ∧
                    promises w2 !! p = Some (Fulfilled x)) ps
      ["item1"; "item2"; "item3"] ∧
    queue w2 = newQueue.
Proof.
  apply (pending_pops_served_in_order newWorld ["item1"; "item2"; "item3"]);
    reflexivity.
Defined.

(** ** Lifting an invariant of the methods to every execution *)

Section Lifting.
Context {T : Type}.
Variable P : World T → Prop.
Hypothesis P_ext : ∀ w w' : World T,
  queue w' = queue w → promises w' = promises w → signals w' = signals w →
  P w → P w'.
Hypothesis P_push : ∀ (v : T) w, P w → P (push v w).2.
Hypothesis P_pop : ∀ sig w, P w → P (pop sig w).2.
Hypothesis P_close : ∀ w, P w → P (close w).
Hypothesis P_abort : ∀ s w, P w → P (abort s w).
Hypothesis P_newAbortController : ∀ w, P w → P (newAbortController w).2.

Lemma lift_exec (c : Call T) w : P w → P (exec c w).2.
Proof.
  intros Hw. destruct c as [msg|sig| | | |s| |k]; simpl.
  - pose proof (P_push msg w Hw). by destruct (push msg w).
  - pose proof (P_pop sig w Hw). by destruct (pop sig w).
  - by apply P_close.
  - done.
  - by apply P_newAbortController.
  - by apply P_abort.
  - unfold stream.
    pose proof (P_newAbortController w Hw) as Hn.
    destruct (newAbortController w) as [sgn w1]. simpl in Hn.
    pose proof (P_pop (Some sgn) w1 Hn) as Hp.
    destruct (pop (Some sgn) w1) as [p w2]. simpl in *.
    revert Hp. by apply P_ext.
  - unfold stop. case_match; [|done]. by apply P_abort.
Qed.

Lemma lift_execAll (cs : list (Call T)) : ∀ w, P w → P (execAll cs w).
Proof.
  induction cs as [|c cs IH]; intros w Hw; [done|].
  apply IH. by apply lift_exec.
Qed.

Lemma lift_resume k (body : list (Call T)) throws w :
  P w → P (resume k body throws w).
Proof.
  intros Hw.
  assert (∀ msg, P (execAll body (setDispatched (dispatched w ++ [(k, msg)]) w)))
    as Hb.
  { intros msg. apply lift_execAll. revert Hw. by apply P_ext. }
  destruct (resume_cases k body throws w)
    as [->|[(e&->)|[(msg&e&->)|(msg&sig&->)]]]; [done|..].
  - revert Hw. apply P_ext;
      by rewrite ?catchBlock_queue, ?catchBlock_promises, ?catchBlock_signals.
  - generalize (Hb msg). apply P_ext;
      by rewrite ?catchBlock_queue, ?catchBlock_promises, ?catchBlock_signals.
  - generalize (P_pop sig _ (Hb msg)). apply P_ext;
      by rewrite ?setLoopState_queue, ?setLoopState_promises, ?setLoopState_signals.
Qed.

Lemma lift_run (es : list (Event T)) : ∀ w, P w → P (run es w).
Proof.
  induction es as [|ev es IH]; intros w Hw; [done|].
  apply IH. destruct ev; simpl; [by apply lift_exec|by apply lift_resume].
Qed.

End Lifting.

(** ** Listeners follow the waiters *)

Section Listeners.
Context {T : Type}.
Implicit Types (w : World T) (q : AsyncQueue T) (c : PopClosure) (p : nat).
Implicit Types (msg v : T) (e : JsError) (s : nat) (sig : option nat).

Lemma nil_no_elem {A} (l : list A) : (∀ x, x ∉ l) → l = [].
Proof. destruct l as [|x l]; [done|]. intros H. destruct (H x). by left. Qed.

(** After [removeEventListener] the closure is on no list of its signal. *)
Lemma removeEventListener_gone c w s sg :
  abortSignal c = Some s → signals (removeEventListener c w) !! s = Some sg →
  c ∉ listeners sg.
Proof.
  intros Hc Hs Hin.
  destruct (signals w !! s) as [sg0|] eqn:Hs0.
  - rewrite (removeEventListener_lookup_eq _ _ _ _ Hc Hs0) in Hs.
    injection Hs as <-. simpl in Hin. apply list_elem_of_filter in Hin as [Hne _].
    by apply Hne.
  - apply lookup_ge_None in Hs0. apply lookup_lt_Some in Hs.
    rewrite removeEventListener_length in Hs. lia.
Qed.

Lemma addEventListener_aborted c w s sg' :
  signals (addEventListener c w) !! s = Some sg' →
  ∃ sg, signals w !! s = Some sg ∧ aborted sg' = aborted sg.
Proof.
  unfold addEventListener. destruct (abortSignal c) as [s'|]; [|by eauto].
  destruct (signals w !! s') as [sg0|] eqn:Hsg; [|by eauto].
  case_decide; [by eauto|]. simpl.
  destruct (decide (s' = s)) as [->|Hne].
  - rewrite list_lookup_insert_eq by (by eapply lookup_lt_Some).
    intros [= <-]. by exists sg0.
  - rewrite list_lookup_insert_ne by done. by eauto.
Qed.

Lemma tidy_ext w w' :
  queue w' = queue w → promises w' = promises w → signals w' = signals w →
  tidy w → tidy w'.
Proof.
  intros Hq Hp Hs (Hwf & H1 & H2). split_and!.
  - by eapply wellFormed_ext.
  - unfold listenersWait. by rewrite Hq, Hs.
  - unfold firedSignalsBare. by rewrite Hs.
Qed.

Lemma tidy_newWorld : tidy (@newWorld T).
Proof.
  split_and!; [apply wellFormed_newWorld|by intros _ s sg c Hs|by intros s sg Hs].
Qed.

Lemma listeners_onAbort c w :
  wellFormed w → listenersWait w → listenersWait (onAbort c w).
Proof.
  intros Hwf H1 Hc s sg c' Hs Hin.
  rewrite onAbort_queue, spliceReject_closed in Hc. simpl in Hc.
  rewrite onAbort_queue, spliceReject_pendingResolves. simpl.
  rewrite onAbort_signals in Hs.
  destruct (removeEventListener_subset _ _ _ _ _ Hs Hin) as (sg0 & Hs0 & _ & Hin0).
  apply list_elem_of_filter. split; [|by eapply H1].
  intros ->. pose proof (wf_home _ Hwf _ _ _ Hs0 Hin0) as Hhome.
  by apply (removeEventListener_gone c w s sg).
Qed.

Lemma fired_onAbort c w : firedSignalsBare w → firedSignalsBare (onAbort c w).
Proof.
  intros H2 s sg Hs Ha. apply nil_no_elem. intros c' Hin.
  rewrite onAbort_signals in Hs.
  destruct (removeEventListener_subset _ _ _ _ _ Hs Hin) as (sg0 & Hs0 & Hab & Hin0).
  rewrite (H2 s sg0 Hs0) in Hin0 by congruence. by apply elem_of_nil in Hin0.
Qed.

Lemma tidy_push v w : tidy w → tidy (push v w).2.
Proof.
  intros (Hwf & H1 & H2).
  split; [by apply wellFormed_push|].
  destruct (closed (queue w)) eqn:Hc.
  { by rewrite push_closed. }
  destruct (pendingResolves (queue w)) as [|c rest] eqn:Hr.
  - rewrite push_buffers by done. split.
    + intros _ s sg c Hs Hin. simpl in *. by eapply H1.
    + done.
  - rewrite (push_waiter _ _ _ _ Hc Hr). simpl. split.
    + intros _ s sg c' Hs Hin.
      rewrite wrapperFn_queue, spliceReject_pendingResolves. simpl.
      rewrite wrapperFn_signals in Hs.
      destruct (removeEventListener_subset _ _ _ _ _ Hs Hin) as (sg0 & Hs0 & _ & Hin0).
      simpl in Hs0. pose proof (H1 Hc _ _ _ Hs0 Hin0) as Hc'. rewrite Hr in Hc'.
      apply elem_of_cons in Hc' as [->|?]; [|done]. exfalso.
      pose proof (wf_home _ Hwf _ _ _ Hs0 Hin0) as Hhome.
      by apply (removeEventListener_gone c _ s sg Hhome Hs).
    + intros s sg Hs Ha. apply nil_no_elem. intros c' Hin.
      rewrite wrapperFn_signals in Hs.
      destruct (removeEventListener_subset _ _ _ _ _ Hs Hin) as (sg0 & Hs0 & Hab & Hin0).
      simpl in Hs0. rewrite (H2 s sg0 Hs0) in Hin0 by congruence.
      by apply elem_of_nil in Hin0.
Qed.

Lemma tidy_pop sig w : tidy w → tidy (pop sig w).2.
Proof.
  intros (Hwf & H1 & H2).
  split; [by apply wellFormed_pop|].
  destruct (pop_cases sig w)
    as [[Hc ->]|[(msg&rest&Hc&Hm&->)|[(Hc&_&_&->)|(Hc&Hm&Ha&->)]]]; simpl.
  - split; [|done]. intros Hc'. simpl in Hc'. congruence.
  - split; [|done]. intros _ s sg c Hs Hin. simpl in *. by eapply H1.
  - done.
  - split.
    + intros _ s sg c Hs Hin. rewrite registered_queue. simpl.
      rewrite registered_signals in Hs. apply elem_of_app.
      destruct (addEventListener_subset _ _ _ _ _ Hs Hin) as [[-> _]|(sg0 & Hs0 & Hin0)].
      * right. by left.
      * left. by eapply H1.
    + intros s sg Hs Hab. apply nil_no_elem. intros c Hin.
      rewrite registered_signals in Hs.
      destruct (addEventListener_aborted _ _ _ _ Hs) as (sg1 & Hs1 & Hab1).
      destruct (addEventListener_subset _ _ _ _ _ Hs Hin) as [[-> Hsig]|(sg0 & Hs0 & Hin0)].
      * simpl in Hsig, Hs1. subst sig. unfold isAborted in Ha.
        rewrite Hs1 in Ha. congruence.
      * simpl in Hs0, Hs1. rewrite (H2 s sg0 Hs0) in Hin0 by congruence.
        by apply elem_of_nil in Hin0.
Qed.

Lemma tidy_close w : tidy w → tidy (close w).
Proof.
  intros (Hwf & H1 & H2). split; [by apply wellFormed_close|].
  split.
  - intros Hc. by rewrite close_isClosed in Hc.
  - unfold firedSignalsBare. by rewrite close_signals.
Qed.

Lemma tidy_newAbortController w : tidy w → tidy (newAbortController w).2.
Proof.
  intros (Hwf & H1 & H2). split; [by apply wellFormed_newAbortController|].
  unfold newAbortController. simpl. split.
  - intros Hc s sg c Hs Hin. simpl in *.
    apply lookup_app_Some in Hs as [Hs|[_ Hs]]; [by eapply H1|].
    destruct (s - length (signals w)); simpl in Hs; [|done].
    injection Hs as <-. by apply elem_of_nil in Hin.
  - intros s sg Hs Hab. simpl in *.
    apply lookup_app_Some in Hs as [Hs|[_ Hs]]; [by eapply H2|].
    destruct (s - length (signals w)); simpl in Hs; [|done].
    by injection Hs as <-.
Qed.

Lemma filter_notin_nil {A} `{EqDecision A} (L : list A) :
  filter (λ x, x ∉ @nil A) L = L.
Proof.
  induction L as [|x L IHL]; [done|].
  rewrite filter_cons_True by (intros H; by apply elem_of_nil in H).
  by rewrite IHL.
Qed.

Lemma fireAll_signal (l : list PopClosure) s : ∀ w sg,
  (∀ c, c ∈ l → abortSignal c = Some s) → signals w !! s = Some sg →
  signals (fireAll l w) !! s =
    Some {| aborted := aborted sg;
            listeners := filter (λ x, x ∉ l) (listeners sg) |} ∧
  ∀ s', s' ≠ s → signals (fireAll l w) !! s' = signals w !! s'.
Proof.
  induction l as [|c l IH]; intros w sg Hl Hs.
  - split; [|done]. change (fireAll [] w) with w.
    rewrite Hs, filter_notin_nil. by destruct sg.
  - change (fireAll (c :: l) w) with (fireAll l (onAbort c w)).
    assert (abortSignal c = Some s) as Hc by (apply Hl; by left).
    assert (signals (onAbort c w) !! s =
            Some {| aborted := aborted sg;
                    listeners := filter (λ x, x ≠ c) (listeners sg) |}) as Hs1.
    { rewrite onAbort_signals. by apply removeEventListener_lookup_eq. }
    assert (∀ x, x ∈ l → abortSignal x = Some s) as Hl'
      by (intros x Hx; apply Hl; by right).
    destruct (IH (onAbort c w) _ Hl' Hs1) as [Hs2 Hother].
    split.
    + rewrite Hs2. simpl. do 2 f_equal. rewrite list_filter_filter.
      apply list_filter_iff. intros x. rewrite not_elem_of_cons. tauto.
    + intros s' Hne. rewrite (Hother s' Hne), onAbort_signals.
      apply removeEventListener_lookup_ne. congruence.
Qed.

Lemma filter_notin_self {A} `{EqDecision A} (l : list A) :
  filter (λ x, x ∉ l) l = [].
Proof.
  apply nil_no_elem. intros x Hx. apply list_elem_of_filter in Hx as [Hn Hin]. done.
Qed.

Lemma listeners_fireAll (l : list PopClosure) : ∀ w,
  wellFormed w → (∀ c, c ∈ l → closureOk w c) →
  listenersWait w → listenersWait (fireAll l w).
Proof.
  induction l as [|c l IH]; intros w Hwf Hl H1; [done|].
  change (fireAll (c :: l) w) with (fireAll l (onAbort c w)).
  assert (closureOk w c) as Hc by (apply Hl; left).
  apply IH.
  - by apply wellFormed_onAbort.
  - intros c' Hc'. apply closureOk_onAbort; [done..|]. apply Hl. by right.
  - by apply listeners_onAbort.
Qed.

Lemma tidy_abort s w : tidy w → tidy (abort s w).
Proof.
  intros (Hwf & H1 & H2). split; [by apply wellFormed_abort|].
  destruct (abort_cases s w) as [->|(sg&Hsg&Hab&->)]; [done|].
  pose proof (wellFormed_markAborted s sg w Hsg Hwf) as Hwf0.
  assert (signals (markAborted s sg w) !! s =
          Some {| aborted := true; listeners := listeners sg |}) as Hs0.
  { unfold markAborted. simpl. apply list_lookup_insert_eq. by eapply lookup_lt_Some. }
  split.
  - apply listeners_fireAll; [done| |].
    + intros c Hc. eapply closureOk_ext; [..|by eapply (wf_listeners _ Hwf)]; done.
    + intros Hc s' sg' c Hs Hin. simpl in *.
      destruct (decide (s = s')) as [<-|Hne].
      * rewrite list_lookup_insert_eq in Hs by (by eapply lookup_lt_Some).
        injection Hs as <-. by eapply H1.
      * rewrite list_lookup_insert_ne in Hs by done. by eapply H1.
  - destruct (fireAll_signal (listeners sg) s (markAborted s sg w) _
                (λ c Hc, wf_home _ Hwf _ _ _ Hsg Hc) Hs0) as [Hs1 Hother].
    intros s' sg' Hs Ha. destruct (decide (s' = s)) as [->|Hne].
    + rewrite Hs1 in Hs. injection Hs as <-. simpl. apply filter_notin_self.
    + rewrite (Hother s' Hne) in Hs. unfold markAborted in Hs. simpl in Hs.
      rewrite list_lookup_insert_ne in Hs by done. by eapply H2.
Qed.

Lemma reachable_tidy w : reachable w → tidy w.
Proof.
  intros [es ->].
  apply (lift_run tidy tidy_ext tidy_push tidy_pop tidy_close tidy_abort
           tidy_newAbortController), tidy_newWorld.
Qed.

(** X5: in every reachable world an ['abort'] listener is registered only on
    the signal its pop was called with; while the queue is open every
    registered listener belongs to a pop that is still waiting; and a signal
    that has fired holds no listener. *)
Theorem listeners_follow_waiters w :
  reachable w →
  (∀ s sg c, signals w !! s = Some sg → c ∈ listeners sg →
             abortSignal c = Some s) ∧
  (closed (queue w) = false →
   ∀ s sg c, signals w !! s = Some sg → c ∈ listeners sg →
             c ∈ pendingResolves (queue w) ∧
             promises w !! promiseId c = Some Pending) ∧
  (∀ s sg, signals w !! s = Some sg → aborted sg = true → listeners sg = []).
Proof.
  intros Hw. destruct (reachable_tidy w Hw) as (Hwf & H1 & H2). split_and!.
  - by apply wf_home.
  - intros Hc s sg c Hs Hin. pose proof (H1 Hc s sg c Hs Hin) as Hr.
    split; [done|]. by apply wf_pending.
  - done.
Qed.

(** X6: [abort] on a signal that has fired does nothing, so a second
    [abort()] and a second [stop()] change nothing. *)
Theorem abort_and_stop_idempotent w :
  (∀ s, abort s (abort s w) = abort s w) ∧
  (∀ k, stop k (stop k w) = stop k w).
Proof.
  assert (∀ s w0, abort s (abort s w0) = abort s (w0 : World T)) as Habort.
  { intros s w0. destruct (abort_cases s w0) as [Heq|(sg&Hsg&Hab&Heq)].
    { by rewrite !Heq. }
    assert (signals (markAborted s sg w0) !! s =
            Some {| aborted := true; listeners := listeners sg |}) as Hs0.
    { unfold markAborted. simpl. apply list_lookup_insert_eq. by eapply lookup_lt_Some. }
    assert (∀ (l : list PopClosure) (w1 : World T) sg1,
              signals w1 !! s = Some sg1 → aborted sg1 = true →
              ∃ sg2, signals (fireAll l w1) !! s = Some sg2 ∧ aborted sg2 = true)
      as Hkeep.
    { induction l as [|c l IH]; intros w1 sg1 Hs1 Ha1; [by eauto|].
      change (fireAll (c :: l) w1) with (fireAll l (onAbort c w1)).
      destruct (decide (abortSignal c = Some s)) as [Hc|Hc].
      - apply (IH _ {| aborted := aborted sg1;
                       listeners := filter (λ x, x ≠ c) (listeners sg1) |});
          [|done].
        rewrite onAbort_signals. by apply removeEventListener_lookup_eq.
      - eapply (IH _ sg1); [|done].
        by rewrite onAbort_signals, removeEventListener_lookup_ne. }
    destruct (Hkeep (listeners sg) _ _ Hs0 eq_refl) as (sg2 & Hs2 & Ha2).
    rewrite Heq. unfold abort at 1. by rewrite Hs2, Ha2. }
  split; [by intros s|].
  intros k. unfold stop. destruct (streams w !! k) as [st|] eqn:Hk.
  - destruct (abort_streams (streamSignal st) w) as [-> _]. by rewrite Hk.
  - by rewrite Hk.
Qed.

End Listeners.

Lemma listeners_follow_waiters_witness :
  let w : World string :=
    run [ECall CNewAbortController; ECall (CPop (Some 0)); ECall (CPop None)]
      newWorld in
  (∀ s sg c, signals w !! s = Some sg → c ∈ listeners sg →
             abortSignal c = Some s) ∧
  (closed (queue w) = false →
   ∀ s sg c, signals w !! s = Some sg → c ∈ listeners sg →
             c ∈ pendingResolves (queue w) ∧
             promises w !! promiseId c = Some Pending) ∧
  (∀ s sg, signals w !! s = Some sg → aborted sg = true → listeners sg = []).
Proof.
  intros w. apply (listeners_follow_waiters w). eexists. reflexivity.
Defined.

(** ** Streams *)

Section StreamFacts.
Context {T : Type}.
Implicit Types (w : World T) (q : AsyncQueue T) (c : PopClosure) (p : nat).
Implicit Types (msg v : T) (e : JsError) (s : nat) (sig : option nat).

Lemma fireAll_rejects (l : list PopClosure) c : ∀ w,
  c ∈ l → promises w !! promiseId c = Some Pending →
  promises (fireAll l w) !! promiseId c = Some (Rejected Cancelled).
Proof.
  induction l as [|c0 l IH]; intros w Hin Hp; [by apply elem_of_nil in Hin|].
  change (fireAll (c0 :: l) w) with (fireAll l (onAbort c0 w)).
  destruct (decide (promiseId c0 = promiseId c)) as [Heq|Hne].
  - apply (settledKept_fireAll l (onAbort c0 w)); [|done].
    rewrite onAbort_promises, Heq. by apply settle_pending.
  - apply IH.
    + apply elem_of_cons in Hin as [->|?]; [done|done].
    + rewrite onAbort_promises. unfold reject. by rewrite settle_lookup_ne.
Qed.

Lemma fireAll_unhandled (l : list PopClosure) : ∀ w,
  unhandledRejections (fireAll l w) = unhandledRejections w.
Proof.
  induction l as [|c l IH]; intros w; [done|].
  change (fireAll (c :: l) w) with (fireAll l (onAbort c w)).
  by rewrite IH, onAbort_unhandled.
Qed.

Lemma abort_unhandled s w : unhandledRejections (abort s w) = unhandledRejections w.
Proof.
  destruct (abort_cases s w) as [->|(sg&_&_&->)]; [done|].
  by rewrite fireAll_unhandled.
Qed.

Lemma push_unhandled v w : unhandledRejections (push v w).2 = unhandledRejections w.
Proof.
  unfold push. destruct (closed (queue w)); [done|].
  destruct (pendingResolves (queue w)) as [|c rest]; [done|]. simpl.
  unfold wrapperFn, resolve. rewrite settle_unhandled. simpl.
  by rewrite removeEventListener_unhandled.
Qed.





Lemma fireAll_length (l : list PopClosure) : ∀ w,
  length (promises (fireAll l w)) = length (promises w).
Proof.
  induction l as [|c l IH]; intros w; [done|].
  change (fireAll (c :: l) w) with (fireAll l (onAbort c w)).
  rewrite IH, onAbort_promises. unfold reject. by rewrite settle_length.
Qed.

Lemma abort_length s w : length (promises (abort s w)) = length (promises w).
Proof.
  destruct (abort_cases s w) as [->|(sg&_&_&->)]; [done|].
  by rewrite fireAll_length.
Qed.

(** After [abort] the signal is marked as fired. *)
Lemma fireAll_keeps_fired (l : list PopClosure) s : ∀ w sg,
  signals w !! s = Some sg → aborted sg = true →
  ∃ sg', signals (fireAll l w) !! s = Some sg' ∧ aborted sg' = true.
Proof.
  induction l as [|c l IH]; intros w sg Hs Ha; [by eauto|].
  change (fireAll (c :: l) w) with (fireAll l (onAbort c w)).
  destruct (decide (abortSignal c = Some s)) as [Hc|Hc].
  - apply (IH _ {| aborted := aborted sg;
                   listeners := filter (λ x, x ≠ c) (listeners sg) |}); [|done].
    rewrite onAbort_signals. by apply removeEventListener_lookup_eq.
  - apply (IH _ sg); [|done].
    by rewrite onAbort_signals, removeEventListener_lookup_ne.
Qed.

Lemma abort_fired s sg w :
  signals w !! s = Some sg → isAborted (Some s) (abort s w) = true.
Proof.
  intros Hs. unfold abort. rewrite Hs. destruct (aborted sg) eqn:Ha.
  { simpl. by rewrite Hs. }
  destruct (fireAll_keeps_fired (listeners sg) s (markAborted s sg w)
              {| aborted := true; listeners := listeners sg |}) as (sg' & Hs' & Ha').
  { unfold markAborted. simpl. apply list_lookup_insert_eq. by eapply lookup_lt_Some. }
  { done. }
  unfold isAborted. fold (markAborted s sg w). fold (fireAll (listeners sg) (markAborted s sg w)).
  by rewrite Hs'.
Qed.

Lemma catchBlock_cancelled k st w :
  streams w !! k = Some st →
  streams (catchBlock k Cancelled w) !! k =
    Some {| streamSignal := streamSignal st; loopState := Completed |} ∧
  dispatched (catchBlock k Cancelled w) = dispatched w ∧
  unhandledRejections (catchBlock k Cancelled w) = unhandledRejections w.
Proof.
  intros Hk. unfold catchBlock. simpl.
  rewrite setLoopState_dispatched, setLoopState_unhandled.
  split_and!; [|done..]. by apply setLoopState_lookup.
Qed.

(** X7: [stop()] on a stream whose loop is waiting for a message rejects the
    pending pop of the loop with [Cancelled]; the loop then ends silently: no
    handler invocation, no unhandled rejection. *)
Theorem stop_ends_waiting_stream k st p sg c w :
  streams w !! k = Some st → loopState st = Awaiting p →
  signals w !! streamSignal st = Some sg → aborted sg = false →
  c ∈ listeners sg → promiseId c = p → promises w !! p = Some Pending →
  promises (stop k w) !! p = Some (Rejected Cancelled) ∧
  dispatched (stop k w) = dispatched w ∧
  ∀ body throws,
    endsSilently k (stop k w) (resume k body throws (stop k w)).
Proof.
  intros Hk Hl Hs Ha Hc Hid Hp. unfold stop. rewrite Hk.
  assert (abort (streamSignal st) w =
          fireAll (listeners sg) (markAborted (streamSignal st) sg w)) as Habort.
  { unfold abort. by rewrite Hs, Ha. }
  assert (promises (abort (streamSignal st) w) !! p = Some (Rejected Cancelled)) as Hrej.
  { rewrite Habort, <- Hid. apply fireAll_rejects; [done|]. simpl. by rewrite Hid. }
  destruct (abort_streams (streamSignal st) w) as [Hst Hd].
  split_and!; [done|done|]. intros body throws.
  rewrite (resume_rejected k st p Cancelled); [|by rewrite Hst|done|done].
  destruct (catchBlock_cancelled k st (abort (streamSignal st) w)) as (H1 & H2 & H3).
  { by rewrite Hst. }
  split_and!; [by eexists|done|done].
Qed.

(** X8: when the loop of a stream is the oldest waiter, a push hands the
    message to it; resuming the loop invokes the handler once with that
    message and registers the loop's next pop, with the stream's signal,
    behind the waiters that were already there. *)
Theorem stream_dispatches_push k st sg c rest v w :
  wellFormed w →
  streams w !! k = Some st → loopState st = Awaiting (promiseId c) →
  abortSignal c = Some (streamSignal st) →
  pendingResolves (queue w) = c :: rest →
  signals w !! streamSignal st = Some sg → aborted sg = false →
  let w1 := (push v w).2 in
  let w2 := resume k [] None w1 in
  let c' := {| promiseId := length (promises w);
               abortSignal := Some (streamSignal st) |} in
  dispatched w2 = dispatched w ++ [(k, v)] ∧
  streams w2 !! k =
    Some {| streamSignal := streamSignal st; loopState := Awaiting (promiseId c') |} ∧
  promises w2 !! promiseId c' = Some Pending ∧
  pendingResolves (queue w2) = rest ++ [c'] ∧
  unhandledRejections w2 = unhandledRejections w.
Proof.
  intros Hwf Hk Hl Hsig Hr Hs Ha w1 w2 c'.
  assert (c ∈ pendingResolves (queue w)) as Hc by (rewrite Hr; by left).
  pose proof (waiter_open _ _ Hwf Hc) as Hopen.
  assert (w1 = wrapperFn c v (setQueue (setPendingResolves rest (queue w)) w)) as Hw1.
  { unfold w1. by rewrite (push_waiter _ _ _ _ Hopen Hr). }
  assert (promises w1 !! promiseId c = Some (Fulfilled v)) as Hp1.
  { rewrite Hw1, wrapperFn_promises. apply settle_pending. simpl. by apply wf_pending. }
  assert (length (promises w1) = length (promises w)) as Hlen.
  { rewrite Hw1, wrapperFn_promises. unfold resolve. by rewrite settle_length. }
  destruct (push_streams v w) as [Hst1 Hd1]. fold w1 in Hst1, Hd1.
  assert (closed (queue w1) = false) as Hc1.
  { by rewrite Hw1, wrapperFn_queue, spliceReject_closed. }
  assert (messages (queue w1) = []) as Hm1.
  { rewrite Hw1, wrapperFn_queue, spliceReject_messages. simpl.
    destruct (wf_exclusive _ Hwf) as [?|?]; [done|congruence]. }
  assert (pendingResolves (queue w1) = rest) as Hr1.
  { by rewrite Hw1, wrapperFn_queue, spliceReject_pendingResolves. }
  assert (isAborted (Some (streamSignal st)) w1 = false) as Ha1.
  { unfold isAborted. rewrite Hw1, wrapperFn_signals.
    rewrite (removeEventListener_lookup_eq c
               (setQueue (setPendingResolves rest (queue w)) w)
               (streamSignal st) sg Hsig Hs). done. }
  set (w1' := setDispatched (dispatched w1 ++ [(k, v)]) w1).
  assert (w2 = setLoopState k (Awaiting (length (promises w1)))
                 (registered (Some (streamSignal st)) w1')) as Hw2.
  { unfold w2, resume. rewrite Hst1, Hk, Hl, Hp1.
    change (execAll [] ?x) with x. fold w1'.
    by rewrite (pop_registers (Some (streamSignal st)) w1' Hc1 Hm1 Ha1). }
  assert (streams (registered (Some (streamSignal st)) w1') !! k = Some st) as Hk2.
  { unfold registered. simpl.
    destruct (addEventListener_streams
                {| promiseId := length (promises w1);
                   abortSignal := Some (streamSignal st) |}
                (setPromises (promises w1 ++ [Pending]) w1')) as [-> _].
    simpl. by rewrite Hst1. }
  rewrite Hw2. split_and!.
  - rewrite setLoopState_dispatched. unfold registered. simpl.
    destruct (addEventListener_streams
                {| promiseId := length (promises w1);
                   abortSignal := Some (streamSignal st) |}
                (setPromises (promises w1 ++ [Pending]) w1')) as [_ ->].
    simpl. by rewrite Hd1.
  - rewrite (setLoopState_lookup k st _ _ Hk2). unfold c'. simpl. by rewrite Hlen.
  - rewrite setLoopState_promises, registered_promises. unfold c'. simpl.
    rewrite <- Hlen. rewrite lookup_app_r by (simpl; lia).
    simpl. by rewrite Nat.sub_diag.
  - rewrite setLoopState_queue, registered_queue. simpl. rewrite Hr1.
    unfold c'. by rewrite Hlen.
  - rewrite setLoopState_unhandled. unfold registered, addEventListener. simpl.
    repeat case_match; simpl; apply push_unhandled.
Qed.

(** X9: [stop()] racing with a delivery.  When a push has already handed a
    message to the loop of a stream and [stop()] is called before the loop
    resumes, the message is still dispatched to the handler, once; the loop's
    next pop is rejected with [Cancelled] at once, and the loop then ends
    silently. *)
Theorem stop_after_delivery k st sg c rest v w :
  wellFormed w →
  streams w !! k = Some st → loopState st = Awaiting (promiseId c) →
  abortSignal c = Some (streamSignal st) →
  pendingResolves (queue w) = c :: rest →
  signals w !! streamSignal st = Some sg →
  let w1 := stop k (push v w).2 in
  let w2 := resume k [] None w1 in
  let w3 := resume k [] None w2 in
  dispatched w2 = dispatched w ++ [(k, v)] ∧
  streams w2 !! k =
    Some {| streamSignal := streamSignal st;
            loopState := Awaiting (length (promises w)) |} ∧
  promises w2 !! length (promises w) = Some (Rejected Cancelled) ∧
  dispatched w3 = dispatched w ++ [(k, v)] ∧
  streams w3 !! k =
    Some {| streamSignal := streamSignal st; loopState := Completed |} ∧
  unhandledRejections w3 = unhandledRejections w.
Proof.
  intros Hwf Hk Hl Hsig Hr Hs w1 w2 w3.
  assert (c ∈ pendingResolves (queue w)) as Hc by (rewrite Hr; by left).
  pose proof (waiter_open _ _ Hwf Hc) as Hopen.
  set (w0 := (push v w).2) in *.
  assert (w0 = wrapperFn c v (setQueue (setPendingResolves rest (queue w)) w)) as Hw0.
  { unfold w0. by rewrite (push_waiter _ _ _ _ Hopen Hr). }
  destruct (push_streams v w) as [Hst0 Hd0]. fold w0 in Hst0, Hd0.
  assert (w1 = abort (streamSignal st) w0) as Hw1.
  { unfold w1, stop. by rewrite Hst0, Hk. }
  assert (promises w1 !! promiseId c = Some (Fulfilled v)) as Hp1.
  { rewrite Hw1. apply settledKept_abort; [|done].
    rewrite Hw0, wrapperFn_promises. apply settle_pending. simpl. by apply wf_pending. }
  assert (length (promises w1) = length (promises w)) as Hlen.
  { pose proof (wellFormed_push v w Hwf) as Hwf0. fold w0 in Hwf0.
    rewrite Hw1. transitivity (length (promises w0)).
    - apply abort_length.
    - rewrite Hw0, wrapperFn_promises. unfold resolve. by rewrite settle_length. }
  destruct (abort_streams (streamSignal st) w0) as [Hst1 Hd1]. rewrite <- Hw1 in Hst1, Hd1.
  destruct (quiet_abort (streamSignal st) w0) as (Hcl1 & Hms1 & _). rewrite <- Hw1 in Hcl1, Hms1.
  assert (closed (queue w1) = false) as Hc1.
  { by rewrite Hcl1, Hw0, wrapperFn_queue, spliceReject_closed. }
  assert (messages (queue w1) = []) as Hm1.
  { rewrite Hms1, Hw0, wrapperFn_queue, spliceReject_messages. simpl.
    destruct (wf_exclusive _ Hwf) as [?|?]; [done|congruence]. }
  assert (isAborted (Some (streamSignal st)) w1 = true) as Ha1.
  { rewrite Hw1.
    destruct (signals w0 !! streamSignal st) as [sg0|] eqn:Hs0.
    - by eapply abort_fired.
    - exfalso. apply lookup_ge_None in Hs0. apply lookup_lt_Some in Hs.
      rewrite Hw0, wrapperFn_signals, removeEventListener_length in Hs0.
      simpl in Hs0. lia. }
  set (w1' := setDispatched (dispatched w1 ++ [(k, v)]) w1).
  assert (w2 = setLoopState k (Awaiting (length (promises w1)))
                 (setPromises (promises w1 ++ [Rejected Cancelled]) w1')) as Hw2.
  { unfold w2, resume. rewrite Hst1, Hst0, Hk, Hl, Hp1.
    change (execAll [] ?x) with x. fold w1'.
    by rewrite (pop_aborted (Some (streamSignal st)) w1' Hc1 Hm1 Ha1). }
  assert (streams (setPromises (promises w1 ++ [Rejected Cancelled]) w1') !! k = Some st)
    as Hk2 by (simpl; by rewrite Hst1, Hst0).
  assert (streams w2 !! k =
          Some {| streamSignal := streamSignal st;
                  loopState := Awaiting (length (promises w)) |}) as Hk3.
  { rewrite Hw2, (setLoopState_lookup k st _ _ Hk2). by rewrite Hlen. }
  assert (promises w2 !! length (promises w) = Some (Rejected Cancelled)) as Hp3.
  { rewrite Hw2, setLoopState_promises. simpl. rewrite <- Hlen.
    rewrite lookup_app_r by lia. by rewrite Nat.sub_diag. }
  assert (dispatched w2 = dispatched w ++ [(k, v)]) as Hd2.
  { rewrite Hw2, setLoopState_dispatched. simpl. by rewrite Hd1, Hd0. }
  assert (unhandledRejections w2 = unhandledRejections w) as Hu2.
  { rewrite Hw2, setLoopState_unhandled. simpl.
    rewrite Hw1, abort_unhandled. unfold w0. by rewrite push_unhandled. }
  split_and!; [done..| | |].
  all: unfold w3; rewrite (resume_rejected k _ _ Cancelled [] None w2 Hk3 eq_refl Hp3).
  all: destruct (catchBlock_cancelled k _ w2 Hk3) as (H1 & H2 & H3).
  - by rewrite H2.
  - done.
  - by rewrite H3.
Qed.


(** One resumption of a loop whose awaited pop was fulfilled, with a handler
    that does nothing. *)
Lemma resume_fulfilled k st p m w :
  streams w !! k = Some st → loopState st = Awaiting p →
  promises w !! p = Some (Fulfilled m) →
  resume k [] None w =
    setLoopState k
      (Awaiting (pop (Some (streamSignal st))
                   (setDispatched (dispatched w ++ [(k, m)]) w)).1)
      (pop (Some (streamSignal st)) (setDispatched (dispatched w ++ [(k, m)]) w)).2.
Proof.
  intros Hk Hl Hp. unfold resume. rewrite Hk, Hl, Hp.
  change (execAll [] ?x) with x. by destruct (pop _ _).
Qed.

Lemma resumeN_drains (rest : list T) k : ∀ st p m w,
  closed (queue w) = false →
  streams w !! k = Some st → loopState st = Awaiting p →
  promises w !! p = Some (Fulfilled m) → messages (queue w) = rest →
  dispatched (resumeN k (S (length rest)) w) =
    dispatched w ++ ((λ x, (k, x)) <$> (m :: rest)) ∧
  messages (queue (resumeN k (S (length rest)) w)) = [].
Proof.
  induction rest as [|m' rest IH]; intros st p m w Hc Hk Hl Hp Hm.
  - unfold resumeN. simpl. rewrite (resume_fulfilled k st p m w Hk Hl Hp).
    rewrite setLoopState_dispatched, setLoopState_queue.
    set (w1 := setDispatched (dispatched w ++ [(k, m)]) w).
    destruct (pop_streams (Some (streamSignal st)) w1) as [_ ->].
    split; [done|].
    destruct (pop_cases (Some (streamSignal st)) w1)
      as [[_ ->]|[(x&r&_&Hx&->)|[(_&_&_&->)|(_&_&_&->)]]].
    + done.
    + simpl in Hx. congruence.
    + done.
    + cbn [snd]. by rewrite registered_queue.
  - unfold resumeN in *. simpl length. rewrite Nat.iter_succ_r.
    rewrite (resume_fulfilled k st p m w Hk Hl Hp).
    set (w1 := setDispatched (dispatched w ++ [(k, m)]) w).
    assert (pop (Some (streamSignal st)) w1 =
            (length (promises w1),
             setPromises (promises w1 ++ [Fulfilled m'])
               (setQueue (setMessages rest (queue w1)) w1))) as Hpop
      by (by apply pop_buffered).
    rewrite Hpop. cbn [fst snd].
    set (w2 := setPromises (promises w1 ++ [Fulfilled m'])
                 (setQueue (setMessages rest (queue w1)) w1)).
    assert (streams w2 !! k = Some st) as Hk2 by done.
    destruct (IH {| streamSignal := streamSignal st;
                    loopState := Awaiting (length (promises w1)) |}
                 (length (promises w1)) m'
                 (setLoopState k (Awaiting (length (promises w1))) w2))
      as [Hd Hms].
    + by rewrite setLoopState_queue.
    + by apply setLoopState_lookup.
    + done.
    + rewrite setLoopState_promises. unfold w2. simpl.
      rewrite lookup_app_r by lia. by rewrite Nat.sub_diag.
    + by rewrite setLoopState_queue.
    + split; [|done]. rewrite Hd, setLoopState_dispatched. simpl.
      by rewrite <- app_assoc.
Qed.

(** X11: a stream drains the buffer in order.  When the loop of stream [k]
    holds a fulfilled pop and the open queue buffers [rest], resuming the loop
    [1 + length rest] times (with a handler that returns normally and makes
    no calls) invokes the handler with the popped message and then with the
    buffered messages, in buffer order, and leaves the buffer empty. *)
Theorem stream_drains_buffer_in_order k st p m w :
  closed (queue w) = false →
  streams w !! k = Some st → loopState st = Awaiting p →
  promises w !! p = Some (Fulfilled m) →
  dispatched (resumeN k (S (length (messages (queue w)))) w) =
    dispatched w ++ ((λ x, (k, x)) <$> (m :: messages (queue w))) ∧
  messages (queue (resumeN k (S (length (messages (queue w)))) w)) = [].
Proof. intros Hc Hk Hl Hp. by eapply resumeN_drains. Qed.

End StreamFacts.

(** A stream is idle on a fresh queue. *)
Lemma stop_ends_waiting_stream_witness :
  let w : World string := run [ECall CStream] newWorld in
  promises (stop 0 w) !! 0 = Some (Rejected Cancelled) ∧
  dispatched (stop 0 w) = dispatched w ∧
  ∀ body throws, endsSilently 0 (stop 0 w) (resume 0 body throws (stop 0 w)).
Proof.
  intros w.
  apply (stop_ends_waiting_stream 0 {| streamSignal := 0; loopState := Awaiting 0 |} 0
           {| aborted := false; listeners := [{| promiseId := 0; abortSignal := Some 0 |}] |}
           {| promiseId := 0; abortSignal := Some 0 |} w); try reflexivity.
  vm_compute. left.
Defined.

Lemma stream_dispatches_push_witness :
  let w : World string := run [ECall CStream] newWorld in
  let w2 := resume 0 [] None (push "item1" w).2 in
  let c' := {| promiseId := 1; abortSignal := Some 0 |} in
  dispatched w2 = dispatched w ++ [(0, "item1")] ∧
  streams w2 !! 0 = Some {| streamSignal := 0; loopState := Awaiting 1 |} ∧
  promises w2 !! 1 = Some Pending ∧
  pendingResolves (queue w2) = [] ++ [c'] ∧
  unhandledRejections w2 = unhandledRejections w.
Proof.
  intros w.
  apply (stream_dispatches_push 0 {| streamSignal := 0; loopState := Awaiting 0 |}
           {| aborted := false; listeners := [{| promiseId := 0; abortSignal := Some 0 |}] |}
           {| promiseId := 0; abortSignal := Some 0 |} [] "item1" w); try reflexivity.
  apply reachable_wellFormed. eexists. reflexivity.
Defined.

Lemma stop_after_delivery_witness :
  let w : World string := run [ECall CStream] newWorld in
  let w1 := stop 0 (push "item1" w).2 in
  let w2 := resume 0 [] None w1 in
  let w3 := resume 0 [] None w2 in
  dispatched w2 = dispatched w ++ [(0, "item1")] ∧
  streams w2 !! 0 = Some {| streamSignal := 0; loopState := Awaiting 1 |} ∧
  promises w2 !! 1 = Some (Rejected Cancelled) ∧
  dispatched w3 = dispatched w ++ [(0, "item1")] ∧
  streams w3 !! 0 = Some {| streamSignal := 0; loopState := Completed |} ∧
  unhandledRejections w3 = unhandledRejections w.
Proof.
  intros w.
  apply (stop_after_delivery 0 {| streamSignal := 0; loopState := Awaiting 0 |}
           {| aborted := false; listeners := [{| promiseId := 0; abortSignal := Some 0 |}] |}
           {| promiseId := 0; abortSignal := Some 0 |} [] "item1" w); try reflexivity.
  apply reachable_wellFormed. eexists. reflexivity.
Defined.


(** Two messages are buffered when the stream starts. *)
Lemma stream_drains_buffer_in_order_witness :
  let w : World string :=
    run [ECall (CPush "existing1"); ECall (CPush "existing2"); ECall CStream] newWorld in
  dispatched (resumeN 0 2 w) = dispatched w ++ [(0, "existing1"); (0, "existing2")] ∧
  messages (queue (resumeN 0 2 w)) = [].
Proof.
  intros w.
  apply (stream_drains_buffer_in_order 0 {| streamSignal := 0; loopState := Awaiting 0 |}
           0 "existing1" w); reflexivity.
Defined.

(** * Further properties of checkSettingsValid *)

Section ValidatorExtra.
Context {V : Type}.
Implicit Types (a b acc : gset string) (s : MpcSettings) (nm : string).
Implicit Types (input : gmap string V) (p : MpcParticipantSettings).

(** X12: [areSetsEqual] decides equality of sets, although it compares the
    sizes and then tests the inclusion in one direction only; its result does
    not depend on the order of its arguments. *)
Theorem areSetsEqual_decides a b :
  (areSetsEqual a b = true ↔ a = b) ∧ areSetsEqual a b = areSetsEqual b a.
Proof.
  split; [apply areSetsEqual_spec|].
  destruct (areSetsEqual a b) eqn:Hab, (areSetsEqual b a) eqn:Hba; try done.
  - apply areSetsEqual_spec in Hab. apply areSetsEqual_false in Hba. congruence.
  - apply areSetsEqual_spec in Hba. apply areSetsEqual_false in Hab. congruence.
Qed.

Lemma claimAll_accepts s : NoDup (s ≫= inputs) → claimAll s ∅ = inr (claimedInputs s).
Proof.
  intros Hnd. pose proof (claimAll_empty s) as H.
  destruct (claimAll s ∅) as [err|acc]; [by destruct H|]. by destruct H as [_ ->].
Qed.

(** X13: settings that pass the validator share out the circuit's inputs:
    no input name is claimed twice, the claimed names are exactly the
    circuit's inputs, every participant output is a circuit output, and the
    caller is a participant whose declared inputs are exactly the keys of
    the supplied input (which are therefore circuit inputs). *)
Theorem accepted_settings_share_inputs (circuit : Circuit) s nm input :
  checkSettingsValid circuit s nm input = None →
  NoDup (s ≫= inputs) ∧
  list_to_set (s ≫= inputs) = dom (input_name_to_wire_index (info circuit)) ∧
  (∀ p o, p ∈ s → o ∈ outputs p →
          o ∈ dom (output_name_to_wire_index (info circuit))) ∧
  ∃ p, callingParticipant s nm p ∧
       dom input = list_to_set (inputs p) ∧
       dom input ⊆ dom (input_name_to_wire_index (info circuit)).
Proof.
  unfold checkSettingsValid, checkAgainst. rewrite !newSet_objectKeys.
  pose proof (claimAll_empty s) as Hclaim.
  destruct (claimAll s ∅) as [err|acc]; [done|]. destruct Hclaim as [Hnd ->].
  destruct (areSetsEqual (claimedInputs s) _) eqn:Heq; [|done]. simpl.
  apply areSetsEqual_spec in Heq.
  destruct (checkOutputs s _) as [err|] eqn:Hout; [done|].
  destruct (findFrom 0 s nm) as [cur|] eqn:Hfind; [|done].
  destruct (areSetsEqual (dom input) _) eqn:Hkeys; [|done]. intros _.
  apply areSetsEqual_spec in Hkeys. unfold newSet in Hkeys.
  pose proof (proj1 (find_calling s nm cur) Hfind) as Hcall.
  split_and!.
  - done.
  - by rewrite <- claimedInputs_flat.
  - by apply checkOutputs_spec.
  - exists cur. split_and!; [done|done|].
    rewrite Hkeys, <- Heq, claimedInputs_flat. intros x Hx.
    apply elem_of_list_to_set in Hx. apply elem_of_list_to_set.
    apply list_elem_of_bind. exists cur. split; [done|].
    destruct Hcall as (i & Hi & _). by eapply list_elem_of_lookup_2.
Qed.

(** Where the claiming loops stop: at the first name that was seen before. *)
Lemma claimInputs_inl (ins : list string) : ∀ acc err,
  claimInputs ins acc = inl err →
  ∃ l1 x l2, ins = l1 ++ x :: l2 ∧ NoDup l1 ∧ (∀ y, y ∈ l1 → y ∉ acc) ∧
             (x ∈ l1 ∨ x ∈ acc) ∧ err = MkError ("Duplicate input: " +:+ x).
Proof.
  induction ins as [|x ins IH]; intros acc err; simpl; [done|].
  destruct (has acc x) eqn:Hx.
  - apply has_true in Hx. intros [= <-]. exists [], x, ins.
    split_and!; [done|constructor| |by right|done].
    intros y Hy. by apply elem_of_nil in Hy.
  - apply has_false in Hx. intros Herr.
    destruct (IH _ _ Herr) as (l1 & x' & l2 & -> & Hnd & Hacc & Hx' & ->).
    exists (x :: l1), x', l2. split_and!; [done| | | |done].
    + apply NoDup_cons. split; [|done]. intros Hin. specialize (Hacc x Hin). set_solver.
    + intros y [->|Hy]%elem_of_cons; [done|]. specialize (Hacc y Hy). set_solver.
    + destruct Hx' as [?|Hx']; [left; by right|].
      apply elem_of_union in Hx' as [->%elem_of_singleton|?]; [left; by left|by right].
Qed.

Lemma claimAll_inl s : ∀ acc err,
  claimAll s acc = inl err →
  ∃ l1 x l2, s ≫= inputs = l1 ++ x :: l2 ∧ NoDup l1 ∧ (∀ y, y ∈ l1 → y ∉ acc) ∧
             (x ∈ l1 ∨ x ∈ acc) ∧ err = MkError ("Duplicate input: " +:+ x).
Proof.
  induction s as [|p s IH]; intros acc err; [done|].
  rewrite bind_cons. cbn [claimAll].
  pose proof (claimInputs_spec (inputs p) acc) as Hp.
  destruct (claimInputs (inputs p) acc) as [err'|acc1] eqn:Hci.
  - intros [= <-].
    destruct (claimInputs_inl _ _ _ Hci) as (l1 & x & l2 & Hins & Hnd & Hacc & Hx & ->).
    exists l1, x, (l2 ++ s ≫= inputs). rewrite Hins, <- app_assoc. done.
  - destruct Hp as (Hnd1 & H1 & ->). intros Herr.
    destruct (IH _ _ Herr) as (l1 & x & l2 & Hflat & Hnd & Hacc & Hx & ->).
    exists (inputs p ++ l1), x, l2. rewrite Hflat, <- app_assoc.
    split_and!; [done| | | |done].
    + apply NoDup_app. split_and!; [done| |done].
      intros y Hy Hy'. specialize (Hacc y Hy'). set_solver.
    + intros y [Hy|Hy]%elem_of_app; [by apply H1|].
      specialize (Hacc y Hy). set_solver.
    + destruct Hx as [?|Hx]; [left; apply elem_of_app; by right|].
      apply elem_of_union in Hx as [Hx|?]; [|by right].
      left. apply elem_of_app. left. by apply elem_of_list_to_set in Hx.
Qed.

(** X14: when an input name is claimed twice, the validator reports a
    duplicate before anything else, and the name it reports is the first one,
    in the order of the participants and of their input lists, that has
    occurred before. *)
Theorem duplicate_reported_first (circuit : Circuit) s nm input :
  claimedTwice s →
  ∃ l1 x l2,
    s ≫= inputs = l1 ++ x :: l2 ∧ NoDup l1 ∧ x ∈ l1 ∧
    checkSettingsValid circuit s nm input =
      Some (MkError ("Duplicate input: " +:+ x)).
Proof.
  intros Htwice. unfold checkSettingsValid, checkAgainst.
  pose proof (claimAll_empty s) as Hclaim.
  destruct (claimAll s ∅) as [err|acc] eqn:Hc; [|by destruct Hclaim].
  destruct (claimAll_inl _ _ _ Hc) as (l1 & x & l2 & Hflat & Hnd & _ & Hx & ->).
  exists l1, x, l2. split_and!; [done|done| |done].
  destruct Hx as [?|Hx]; [done|]. by apply not_elem_of_empty in Hx.
Qed.

Lemma checkOutputNames_some (outs : list string) b err :
  checkOutputNames outs b = Some err →
  ∃ o, o ∈ outs ∧ o ∉ b ∧ err = MkError ("Output " +:+ o +:+ " is not in the circuit").
Proof.
  induction outs as [|o outs IH]; simpl; [done|].
  destruct (has b o) eqn:Ho; simpl.
  - intros H. destruct (IH H) as (o' & ? & ? & ->). exists o'. split; [by right|done].
  - apply has_false in Ho. intros [= <-]. exists o. split; [by left|done].
Qed.

Lemma checkOutputs_some s b err :
  checkOutputs s b = Some err →
  ∃ p o, p ∈ s ∧ o ∈ outputs p ∧ o ∉ b ∧
         err = MkError ("Output " +:+ o +:+ " is not in the circuit").
Proof.
  induction s as [|p s IH]; simpl; [done|].
  destruct (checkOutputNames (outputs p) b) as [err'|] eqn:Hp.
  - intros [= <-]. destruct (checkOutputNames_some _ _ _ Hp) as (o & ? & ? & ->).
    exists p, o. split; [by left|done].
  - intros H. destruct (IH H) as (q & o & ? & ? & ? & ->).
    exists q, o. split; [by right|done].
Qed.

(** X15: the order of the checks.  Without a duplicate claim, a mismatch
    between the claimed inputs and the circuit's inputs is reported first;
    then an output that is not in the circuit, naming such an output; then an
    unknown caller, naming the caller; and only then a mismatch between the
    supplied keys and the caller's inputs. *)
Theorem validator_reports_in_order (circuit : Circuit) s nm input :
  NoDup (s ≫= inputs) →
  let ci := dom (input_name_to_wire_index (info circuit)) in
  let co := dom (output_name_to_wire_index (info circuit)) in
  let r := checkSettingsValid circuit s nm input in
  (inputsMismatch ci s →
   r = Some (MkError "Participant inputs do not match the circuit")) ∧
  (¬ inputsMismatch ci s → unknownOutput co s →
   ∃ p o, p ∈ s ∧ o ∈ outputs p ∧ o ∉ co ∧
          r = Some (MkError ("Output " +:+ o +:+ " is not in the circuit"))) ∧
  (¬ inputsMismatch ci s → ¬ unknownOutput co s → unknownCaller s nm →
   r = Some (MkError ("Could not find participant with name " +:+ nm))) ∧
  (¬ inputsMismatch ci s → ¬ unknownOutput co s →
   suppliedKeysMismatch s nm input →
   r = Some (MkError "Input keys do not match participant inputs")).
Proof.
  intros Hnd ci co r. unfold r, checkSettingsValid, checkAgainst.
  rewrite !newSet_objectKeys. fold ci co. rewrite (claimAll_accepts s Hnd).
  split_and!.
  - intros Hmis. apply areSetsEqual_false in Hmis. by rewrite Hmis.
  - intros Hok Hout. rewrite (proj2 (areSetsEqual_spec _ _)); [|by destruct (decide (claimedInputs s = ci))].
    simpl. apply checkOutputs_unknown in Hout as [err Herr]. rewrite Herr.
    destruct (checkOutputs_some _ _ _ Herr) as (p & o & ? & ? & ? & ->). by exists p, o.
  - intros Hok Hout Hcaller.
    rewrite (proj2 (areSetsEqual_spec _ _)); [|by destruct (decide (claimedInputs s = ci))].
    simpl. destruct (checkOutputs s co) as [err|] eqn:Herr.
    { destruct Hout. apply checkOutputs_unknown. by eauto. }
    by rewrite (proj2 (find_unknown s nm) Hcaller).
  - intros Hok Hout (p & Hp & Hkeys).
    rewrite (proj2 (areSetsEqual_spec _ _)); [|by destruct (decide (claimedInputs s = ci))].
    simpl. destruct (checkOutputs s co) as [err|] eqn:Herr.
    { destruct Hout. apply checkOutputs_unknown. by eauto. }
    rewrite (proj2 (find_calling s nm p) Hp).
    apply areSetsEqual_false in Hkeys. unfold newSet. by rewrite Hkeys.
Qed.

(** X16: participants without a name are addressed by their index, written
    in decimal: when no participant has a name, the caller [i] is participant
    [i], and the validator checks the supplied keys against that
    participant's inputs. *)
Theorem nameless_participants_by_index (circuit : Circuit) s i p input :
  (∀ q, q ∈ s → name q = None) → s !! i = Some p →
  findFrom 0 s (pretty i) = Some p ∧
  (is_Some (checkSettingsValid circuit s (pretty i) input) ↔
   claimedTwice s ∨
   inputsMismatch (dom (input_name_to_wire_index (info circuit))) s ∨
   unknownOutput (dom (output_name_to_wire_index (info circuit))) s ∨
   dom input ≠ list_to_set (inputs p)).
Proof.
  intros Hnameless Hi.
  assert (∀ j q, s !! j = Some q → answersTo j q (pretty i) ↔ j = i) as Hans.
  { intros j q Hj. unfold answersTo.
    rewrite (Hnameless q) by (by eapply list_elem_of_lookup_2). simpl.
    split; [by intros ?%(inj pretty)|by intros ->]. }
  assert (callingParticipant s (pretty i) p) as Hcall.
  { exists i. split_and!; [done|by apply (Hans i p)|].
    intros j q Hlt Hj Ha. apply (Hans j q Hj) in Ha. lia. }
  split; [by apply find_calling|].
  unfold checkSettingsValid. rewrite !newSet_objectKeys, checkAgainst_rejects.
  unfold rejectedByCode. split.
  - intros [?|[?|[?|[Hu|(q & Hq & Hne)]]]]; [by auto..| |].
    + exfalso. apply (Hu i p Hi). by apply (Hans i p).
    + do 3 right. pose proof (proj2 (find_calling _ _ _) Hq).
      pose proof (proj2 (find_calling _ _ _) Hcall). congruence.
  - intros [?|[?|[?|Hne]]]; [by auto..|]. do 4 right. by exists p.
Qed.

End ValidatorExtra.

Lemma accepted_settings_share_inputs_witness :
  let input : gmap string nat := {[ "a" := 3 ]} in
  NoDup (aliceAndBob ≫= inputs) ∧
  list_to_set (aliceAndBob ≫= inputs) = dom (input_name_to_wire_index (info aPlusB)) ∧
  (∀ p o, p ∈ aliceAndBob → o ∈ outputs p →
          o ∈ dom (output_name_to_wire_index (info aPlusB))) ∧
  ∃ p, callingParticipant aliceAndBob "alice" p ∧
       dom input = list_to_set (inputs p) ∧
       dom input ⊆ dom (input_name_to_wire_index (info aPlusB)).
Proof.
  intros input. apply (accepted_settings_share_inputs aPlusB aliceAndBob "alice" input).
  by vm_compute.
Defined.

Lemma duplicate_reported_first_witness :
  ∃ l1 x l2,
    aliceTwice ≫= inputs = l1 ++ x :: l2 ∧ NoDup l1 ∧ x ∈ l1 ∧
    checkSettingsValid oneInput aliceTwice "alice" ({[ "a" := 3 ]} : gmap string nat) =
      Some (MkError ("Duplicate input: " +:+ x)).
Proof.
  apply (duplicate_reported_first oneInput aliceTwice "alice").
  intros Hnd. apply NoDup_cons in Hnd as [Hn _]. apply Hn. left.
Defined.

Lemma validator_reports_in_order_witness :
  let input : gmap string nat := {[ "a" := 3 ]} in
  let ci := dom (input_name_to_wire_index (info aPlusB)) in
  let co := dom (output_name_to_wire_index (info aPlusB)) in
  let r := checkSettingsValid aPlusB aliceAndBob "charlie" input in
  (inputsMismatch ci aliceAndBob →
   r = Some (MkError "Participant inputs do not match the circuit")) ∧
  (¬ inputsMismatch ci aliceAndBob → unknownOutput co aliceAndBob →
   ∃ p o, p ∈ aliceAndBob ∧ o ∈ outputs p ∧ o ∉ co ∧
          r = Some (MkError ("Output " +:+ o +:+ " is not in the circuit"))) ∧
  (¬ inputsMismatch ci aliceAndBob → ¬ unknownOutput co aliceAndBob →
   unknownCaller aliceAndBob "charlie" →
   r = Some (MkError ("Could not find participant with name " +:+ "charlie"))) ∧
  (¬ inputsMismatch ci aliceAndBob → ¬ unknownOutput co aliceAndBob →
   suppliedKeysMismatch aliceAndBob "charlie" input →
   r = Some (MkError "Input keys do not match participant inputs")).
Proof.
  intros input.
  apply (validator_reports_in_order aPlusB aliceAndBob "charlie" input).
  simpl. repeat (apply NoDup_cons; split; [set_solver|]). constructor.
Defined.

Lemma nameless_participants_by_index_witness :
  let s := [ {| name := None; inputs := ["a"]; outputs := ["c"] |};
             {| name := None; inputs := ["b"]; outputs := ["c"] |} ] in
  let p := {| name := None; inputs := ["b"]; outputs := ["c"] |} in
  let input : gmap string nat := {[ "b" := 4 ]} in
  findFrom 0 s (pretty 1) = Some p ∧
  (is_Some (checkSettingsValid aPlusB s (pretty 1) input) ↔
   claimedTwice s ∨
   inputsMismatch (dom (input_name_to_wire_index (info aPlusB))) s ∨
   unknownOutput (dom (output_name_to_wire_index (info aPlusB))) s ∨
   dom input ≠ list_to_set (inputs p)).
Proof.
  intros s p input. apply (nameless_participants_by_index aPlusB s 1 p input).
  - intros q Hq. unfold s in Hq.
    apply elem_of_cons in Hq as [->|Hq]; [done|].
    apply list_elem_of_singleton in Hq as ->. done.
  - reflexivity.
Defined.

(** * Queue stores *)

Section StoreFacts.
Context {Q : Type}.
Variable newAsyncQueue : Q.
Implicit Types (st : AsyncQueueStore Q) (key k : string) (r : nat).

Lemma get_cases key st :
  (∃ r, aqs st !! key = Some r ∧ get newAsyncQueue key st = (Some r, st)) ∨
  (aqs st !! key = None ∧
   get newAsyncQueue key st =
     (Some (length (objects st)),
      {| aqs := <[key := length (objects st)]> (aqs st);
         objects := objects st ++ [newAsyncQueue] |})).
Proof.
  unfold get, mapHas. destruct (aqs st !! key) as [r|] eqn:Hkey.
  - left. exists r. split; [done|].
    rewrite bool_decide_eq_true_2 by eauto. simpl. by rewrite Hkey.
  - right. split; [done|].
    rewrite bool_decide_eq_false_2 by (by intros [? ?]). simpl.
    by rewrite lookup_insert_eq.
Qed.

Lemma storeOk_newStore : storeOk (@newStore Q).
Proof. split; intros *; simpl; by rewrite lookup_empty. Qed.

Lemma storeOk_get key st : storeOk st → storeOk (get newAsyncQueue key st).2.
Proof.
  intros [Hb Hi]. destruct (get_cases key st) as [(r & _ & ->)|[Hnone ->]]; [done|].
  split; simpl.
  - intros k r. rewrite length_app. simpl.
    intros [[_ <-]|[_ Hk]]%lookup_insert_Some; [lia|]. specialize (Hb _ _ Hk). lia.
  - intros k k' r [[<- <-]|[? Hk]]%lookup_insert_Some
                  [[<- Hr]|[? Hk']]%lookup_insert_Some; try done.
    + specialize (Hb _ _ Hk'). lia.
    + specialize (Hb _ _ Hk). lia.
    + by eapply Hi.
Qed.

Lemma storeOk_method r f st : storeOk st → storeOk (method r f st).
Proof.
  intros [Hb Hi]. split; simpl; [|done].
  intros k r'. rewrite length_alter. apply Hb.
Qed.

Lemma storeOk_run cs : ∀ st, storeOk st → storeOk (storeRun newAsyncQueue cs st).
Proof.
  induction cs as [|c cs IH]; intros st Hok; [done|]. apply IH.
  destruct c; [by apply storeOk_get|by apply storeOk_method].
Qed.

Lemma storeReachable_ok st : storeReachable newAsyncQueue st → storeOk st.
Proof. intros [cs ->]. apply storeOk_run, storeOk_newStore. Qed.

(** X17: [get] always returns a queue.  For a key it has seen it returns the
    queue it returned before and changes nothing; for a new key it appends one
    new queue.  Asking twice in a row gives the same queue, and the second
    call changes nothing. *)
Theorem get_creates_once key st :
  ∃ r st',
    get newAsyncQueue key st = (Some r, st') ∧
    get newAsyncQueue key st' = (Some r, st') ∧
    (aqs st !! key = Some r ∧ st' = st ∨
     aqs st !! key = None ∧ r = length (objects st) ∧
     objects st' = objects st ++ [newAsyncQueue]).
Proof.
  destruct (get_cases key st) as [(r & Hr & Hget)|[Hnone Hget]].
  - exists r, st. split_and!; [done|done|by left].
  - eexists _, _. split; [exact Hget|]. split; [|by right].
    match goal with |- get _ _ ?st' = _ => destruct (get_cases key st') as [(r & Hr & ->)|[Hn _]] end.
    + simpl in Hr. rewrite lookup_insert_eq in Hr. by injection Hr as <-.
    + simpl in Hn. by rewrite lookup_insert_eq in Hn.
Qed.

(** X18: [get] never disturbs what is there: the keys that were bound stay
    bound to the same queue, and every queue keeps its state. *)
Theorem get_keeps_bindings key st :
  let st' := (get newAsyncQueue key st).2 in
  (∀ k r, aqs st !! k = Some r → aqs st' !! k = Some r) ∧
  (∀ i q, objects st !! i = Some q → objects st' !! i = Some q).
Proof.
  destruct (get_cases key st) as [(r & _ & ->)|[Hnone ->]]; [done|]. simpl. split.
  - intros k r Hk. rewrite lookup_insert_ne; [done|]. intros ->. congruence.
  - intros i q Hi. by apply lookup_app_l_Some.
Qed.

Lemma isolate_queues k k' r r' (f : Q → Q) st st1 st3 :
  storeReachable newAsyncQueue st → k ≠ k' →
  get newAsyncQueue k st = (Some r, st1) →
  get newAsyncQueue k' (method r f st1) = (Some r', st3) →
  r ≠ r' ∧
  objects st3 !! r = f <$> objects st1 !! r ∧
  objects st3 !! r' = objects (get newAsyncQueue k' st1).2 !! r' ∧
  (get newAsyncQueue k st3).1 = Some r.
Proof.
  intros Hreach Hne Hget1 Hget3.
  assert (storeOk st1) as Hok1.
  { replace st1 with (get newAsyncQueue k st).2 by (by rewrite Hget1).
    by apply storeOk_get, storeReachable_ok. }
  assert (aqs st1 !! k = Some r) as Hk.
  { destruct (get_cases k st) as [(r0 & Hr0 & Hg)|[_ Hg]];
      rewrite Hg in Hget1; injection Hget1 as <- <-; [done|].
    simpl. by rewrite lookup_insert_eq. }
  destruct Hok1 as [Hb Hi]. pose proof (Hb _ _ Hk) as Hr.
  destruct (get_cases k' (method r f st1)) as [(r0 & Hr0 & Hg)|[Hnone Hg]];
    rewrite Hg in Hget3; injection Hget3 as <- <-;
    cbn [method aqs objects fst snd] in *.
  - assert (r ≠ r0) as Hrr.
    { intros <-. apply Hne. by eapply Hi. }
    split_and!; [done|by rewrite list_lookup_alter_eq| |].
    + destruct (get_cases k' st1) as [(r1 & Hr1 & ->)|[Hn _]]; [|congruence].
      cbn [snd]. by rewrite list_lookup_alter_ne.
    + destruct (get_cases k (method r f st1)) as [(r1 & Hr1 & ->)|[Hn _]];
        cbn [method aqs objects fst snd] in *; congruence.
  - rewrite length_alter. split_and!.
    + lia.
    + rewrite lookup_app_l by (by rewrite length_alter).
      by rewrite list_lookup_alter_eq.
    + destruct (get_cases k' st1) as [(r1 & Hr1 & _)|[_ ->]]; [congruence|].
      cbn [objects snd].
      rewrite !lookup_app_r by (rewrite ?length_alter; lia).
      by rewrite length_alter.
    + match goal with |- (get _ _ ?st').1 = _ =>
        destruct (get_cases k st') as [(r1 & Hr1 & ->)|[Hn _]] end;
        cbn [method aqs objects fst snd] in *.
      * rewrite lookup_insert_ne in Hr1 by done. congruence.
      * rewrite lookup_insert_ne in Hn by done. congruence.
Qed.

(** X19: in a store that was built by [get] and by method calls on its
    queues, different keys name different queues; a method call on the queue
    of one key changes that queue only, and is not seen through another key. *)
Theorem store_keys_isolate_queues k k' r r' (f : Q → Q) st st1 st3 :
  storeReachable newAsyncQueue st → k ≠ k' →
  get newAsyncQueue k st = (Some r, st1) →
  get newAsyncQueue k' (method r f st1) = (Some r', st3) →
  r ≠ r' ∧
  objects st3 !! r = f <$> objects st1 !! r ∧
  objects st3 !! r' = objects (get newAsyncQueue k' st1).2 !! r' ∧
  (get newAsyncQueue k st3).1 = Some r.
Proof. apply isolate_queues. Qed.

(** ** Keys made by the template *)

Lemma append_nil_l (s : string) : EmptyString +:+ s = s.
Proof. done. Qed.

Lemma append_cons x (a s : string) : String x a +:+ s = String x (a +:+ s).
Proof. done. Qed.

Lemma append_assoc (a b c : string) : (a +:+ b) +:+ c = a +:+ b +:+ c.
Proof.
  induction a as [|x a IH]; [done|].
  change (String x ((a +:+ b) +:+ c) = String x (a +:+ b +:+ c)). by f_equal.
Qed.

Lemma append_length (a b : string) :
  String.length (a +:+ b) = String.length a + String.length b.
Proof.
  induction a as [|x a IH]; [done|].
  change (S (String.length (a +:+ b)) = S (String.length a + String.length b)).
  by f_equal.
Qed.

(** X20: the template does not escape the separator.  A sender whose name
    ends in [-b] and a receiver whose name starts with [b-] get the same key:
    two different pairs of parties share one queue. *)
Theorem templateKey_collision (a b c channel : string) st :
  a +:+ "-" +:+ b ≠ a ∧
  templateKey (a +:+ "-" +:+ b) c channel = templateKey a (b +:+ "-" +:+ c) channel ∧
  (getChannel newAsyncQueue a (b +:+ "-" +:+ c) channel
     (getChannel newAsyncQueue (a +:+ "-" +:+ b) c channel st).2).1
  = (getChannel newAsyncQueue (a +:+ "-" +:+ b) c channel st).1.
Proof.
  assert (templateKey (a +:+ "-" +:+ b) c channel
          = templateKey a (b +:+ "-" +:+ c) channel) as Hkey.
  { unfold templateKey. by rewrite !append_assoc. }
  split_and!; [|done|].
  - intros H. apply (f_equal String.length) in H.
    rewrite !append_length in H. simpl in H. lia.
  - unfold getChannel. rewrite <- Hkey.
    set (key := templateKey (a +:+ "-" +:+ b) c channel).
    destruct (get_cases key st) as [(r & Hr & Hg)|[_ ->]]; cbn [fst snd].
    + rewrite Hg. cbn [fst snd]. by rewrite Hg.
    + match goal with |- (get _ _ ?st').1 = _ =>
        destruct (get_cases key st') as [(r1 & Hr1 & ->)|[Hn _]] end;
        cbn [aqs fst snd] in *.
      * by rewrite lookup_insert_eq in Hr1.
      * by rewrite lookup_insert_eq in Hn.
Qed.

Lemma dashFree_cons x (s : string) :
  dashFree (String x s) = true → String x EmptyString ≠ "-" ∧ dashFree s = true.
Proof.
  change (dashFree (String x s))
    with (negb (String.eqb (String x EmptyString) "-") && dashFree s).
  intros [Hx ?]%andb_true_iff. split; [|done].
  apply negb_true_iff in Hx. by apply String.eqb_neq in Hx.
Qed.

Lemma dashFree_split (a a' b b' : string) :
  dashFree a = true → dashFree a' = true →
  a +:+ "-" +:+ b = a' +:+ "-" +:+ b' → a = a' ∧ b = b'.
Proof.
  revert a'. induction a as [|x a IH]; intros [|x' a'] Ha Ha';
    rewrite ?append_cons, ?append_nil_l.
  - by intros [= ->].
  - intros [= <- _]. by destruct (dashFree_cons _ _ Ha') as [[] _].
  - intros [= -> _]. by destruct (dashFree_cons _ _ Ha) as [[] _].
  - intros [= <- Hrest].
    destruct (dashFree_cons _ _ Ha) as [_ Ha1].
    destruct (dashFree_cons _ _ Ha') as [_ Ha1'].
    destruct (IH a' Ha1 Ha1' Hrest) as [-> ->]. done.
Qed.

Lemma dashFree_pretty_N_go (x : N) : ∀ s,
  dashFree s = true → dashFree (pretty_N_go x s) = true.
Proof.
  induction (N.lt_wf_0 x) as [x _ IH]; intros s Hs.
  assert (x = 0 ∨ 0 < x)%N as [->|?] by lia.
  - by rewrite pretty_N_go_0.
  - rewrite pretty_N_go_step by done. apply IH.
    { by apply N.div_lt. }
    change (dashFree (String ?x s))
      with (negb (String.eqb (String x EmptyString) "-") && dashFree s).
    rewrite Hs. unfold pretty_N_char. by repeat case_match.
Qed.

Lemma dashFree_pretty (n : nat) : dashFree (pretty n) = true.
Proof.
  unfold pretty, pretty_nat, pretty, pretty_N.
  case_decide; [done|]. by apply dashFree_pretty_N_go.
Qed.

(** X21: when the names of the parties contain no [-], the template is
    injective: the key determines sender, receiver and channel, so in a store
    built by its own methods different triples get different queues.  The
    decimal numerals of party indices contain no [-]. *)
Theorem templateKey_separates (from to channel from' to' channel' : string)
    r r' st st1 st2 :
  dashFree from = true → dashFree to = true →
  dashFree from' = true → dashFree to' = true →
  (templateKey from to channel = templateKey from' to' channel' →
   from = from' ∧ to = to' ∧ channel = channel') ∧
  (storeReachable newAsyncQueue st →
   (from, to, channel) ≠ (from', to', channel') →
   getChannel newAsyncQueue from to channel st = (Some r, st1) →
   getChannel newAsyncQueue from' to' channel' st1 = (Some r', st2) →
   r ≠ r') ∧
  (∀ i : nat, dashFree (pretty i) = true).
Proof.
  intros Hf Ht Hf' Ht'.
  assert (templateKey from to channel = templateKey from' to' channel' →
          from = from' ∧ to = to' ∧ channel = channel') as Hinj.
  { unfold templateKey. intros Hkey.
    destruct (dashFree_split _ _ _ _ Hf Hf' Hkey) as [-> Hrest].
    destruct (dashFree_split _ _ _ _ Ht Ht' Hrest) as [-> ->]. done. }
  split_and!; [done| |apply dashFree_pretty].
  unfold getChannel. intros Hreach Hne Hget1 Hget2.
  assert (templateKey from to channel ≠ templateKey from' to' channel') as Hk.
  { intros Hkey. destruct (Hinj Hkey) as (-> & -> & ->). done. }
  assert (method r id st1 = st1) as Hid.
  { destruct st1 as [m os]. unfold method. simpl. f_equal.
    apply list_eq. intros i. rewrite list_lookup_alter.
    case_decide as Hi; [|done]. rewrite Hi. by destruct (os !! i). }
  rewrite <- Hid in Hget2.
  by destruct (isolate_queues _ _ _ _ _ _ _ _ Hreach Hk Hget1 Hget2).
Qed.

End StoreFacts.

Lemma store_keys_isolate_queues_witness :
  let f := λ w : World string, (push "hi" w).2 in
  let st1 := (get newWorld "a" newStore).2 in
  let st3 := (get newWorld "b" (method 0 f st1)).2 in
  0 ≠ 1 ∧
  objects st3 !! 0 = f <$> objects st1 !! 0 ∧
  objects st3 !! 1 = objects (get newWorld "b" st1).2 !! 1 ∧
  (get newWorld "a" st3).1 = Some 0.
Proof.
  intros f st1 st3.
  apply (store_keys_isolate_queues newWorld "a" "b" 0 1 f newStore st1 st3).
  - by exists [].
  - done.
  - by vm_compute.
  - by vm_compute.
Defined.

Lemma templateKey_separates_witness :
  (templateKey "alice" "bob" "a" = templateKey "alice" "carol" "a" →
   "alice" = "alice" ∧ "bob" = "carol" ∧ "a" = "a") ∧
  (storeReachable 0 (@newStore nat) →
   ("alice", "bob", "a") ≠ ("alice", "carol", "a") →
   getChannel 0 "alice" "bob" "a" newStore
     = (Some 0, (getChannel 0 "alice" "bob" "a" newStore).2) →
   getChannel 0 "alice" "carol" "a" (getChannel 0 "alice" "bob" "a" newStore).2
     = (Some 1, (getChannel 0 "alice" "carol" "a"
                   (getChannel 0 "alice" "bob" "a" newStore).2).2) →
   0 ≠ 1) ∧
  (∀ i : nat, dashFree (pretty i) = true).
Proof.
  apply (templateKey_separates 0 "alice" "bob" "a" "alice" "carol" "a");
    reflexivity.
Defined.

(** * The queue with [pendingPops] *)

Section PendingPopsFacts.
Import PendingPops.
Context {T : Type}.
Implicit Types (w : World T) (ps : list (Settled T)) (p : nat) (item : T).

Lemma pp_settle_length p s ps : length (settle p s ps) = length ps.
Proof.
  unfold settle. destruct (ps !! p) as [[]|]; try done. apply length_insert.
Qed.

Lemma pp_settle_lookup_ne p p' s ps : p ≠ p' → settle p s ps !! p' = ps !! p'.
Proof.
  intros. unfold settle. destruct (ps !! p) as [[]|]; try done.
  by apply list_lookup_insert_ne.
Qed.

Lemma pp_settle_pending p s ps :
  ps !! p = Some Pending → settle p s ps !! p = Some s.
Proof.
  intros Hp. unfold settle. rewrite Hp.
  apply list_lookup_insert_eq. by eapply lookup_lt_Some.
Qed.

Lemma pp_settle_keeps p p' s s' ps :
  ps !! p' = Some s' → s' ≠ Pending → settle p s ps !! p' = Some s'.
Proof.
  intros Hp' Hs'. destruct (decide (p = p')) as [->|Hne].
  - unfold settle. rewrite Hp'. by destruct s'.
  - by rewrite pp_settle_lookup_ne.
Qed.

Lemma pp_rejectAll_keeps (l : list nat) : ∀ ps p s,
  ps !! p = Some s → s ≠ Pending →
  foldl (λ ps p, settle p (Rejected QueueClosed) ps) ps l !! p = Some s.
Proof.
  induction l as [|x l IH]; intros ps p s Hp Hs; [done|]. simpl.
  apply IH; [|done]. by apply pp_settle_keeps.
Qed.

Lemma pp_rejectAll_notin (l : list nat) : ∀ ps p,
  p ∉ l →
  foldl (λ ps p, settle p (Rejected QueueClosed) ps) ps l !! p = ps !! p.
Proof.
  induction l as [|x l IH]; intros ps p Hp; [done|]. simpl.
  apply not_elem_of_cons in Hp as [? ?].
  rewrite IH by done. by apply pp_settle_lookup_ne.
Qed.

Lemma pp_rejectAll_in (l : list nat) : ∀ ps p,
  p ∈ l → ps !! p = Some Pending →
  foldl (λ ps p, settle p (Rejected QueueClosed) ps) ps l !! p
    = Some (Rejected QueueClosed).
Proof.
  induction l as [|x l IH]; intros ps p Hp Hpend; [by apply elem_of_nil in Hp|].
  simpl. destruct (decide (x = p)) as [->|Hne].
  - apply pp_rejectAll_keeps; [|done]. by apply pp_settle_pending.
  - apply elem_of_cons in Hp as [->|Hp]; [done|].
    apply IH; [done|]. by rewrite pp_settle_lookup_ne.
Qed.

Lemma pp_wellFormed_newWorld : wellFormed (@newWorld T).
Proof. split; simpl; [constructor| |by left|done]. by intros p ?%elem_of_nil. Qed.

Lemma pp_wellFormed_push item w : wellFormed w → wellFormed (push item w).2.
Proof.
  intros Hw. pose proof Hw as [Hnd Hpend Hex Hcl]. unfold push.
  destruct (closed (this w)) eqn:Hclosed; [exact Hw|].
  destruct (pendingPops (this w)) as [|p rest] eqn:Hpops; simpl.
  - split; simpl; rewrite ?Hpops; [constructor| |by right|done].
    by intros p ?%elem_of_nil.
  - apply NoDup_cons in Hnd as [Hp Hnd]. split; simpl.
    + done.
    + intros p' Hp'. rewrite pp_settle_lookup_ne by (by intros ->).
      apply Hpend. by right.
    + left. by destruct Hex.
    + done.
Qed.

Lemma pp_wellFormed_pop w : wellFormed w → wellFormed (pop w).2.
Proof.
  intros [Hnd Hpend Hex Hcl]. unfold pop.
  destruct (queue (this w)) as [|item rest] eqn:Hq.
  - destruct (closed (this w)) eqn:Hclosed; simpl.
    + split; simpl; [done| |by left|by intros _; apply Hcl].
      intros p Hp. by apply lookup_app_l_Some, Hpend.
    + split; simpl.
      * apply NoDup_app. split_and!; [done| |apply NoDup_singleton].
        intros p Hp ->%list_elem_of_singleton.
        apply Hpend, lookup_lt_Some in Hp. lia.
      * intros p [Hp| ->%list_elem_of_singleton]%elem_of_app.
        -- by apply lookup_app_l_Some, Hpend.
        -- by apply list_lookup_middle.
      * by left.
      * done.
  - destruct Hex as [?|Hpops]; [done|]. simpl.
    split; simpl; rewrite ?Hpops; [constructor| |by right|done].
    by intros p ?%elem_of_nil.
Qed.

Lemma pp_wellFormed_close w : wellFormed (close w).
Proof. split; simpl; [constructor| |by right|done]. by intros p ?%elem_of_nil. Qed.

Lemma pp_wellFormed_execAll cs : ∀ w, wellFormed w → wellFormed (execAll cs w).
Proof.
  induction cs as [|c cs IH]; intros w Hw; [done|]. apply IH.
  destruct c; [by apply pp_wellFormed_push|by apply pp_wellFormed_pop|
               apply pp_wellFormed_close].
Qed.

(** X22: in every world that the methods can reach, the waiters are distinct
    promises that are still pending; values are buffered only while nobody
    waits; and a closed queue has no waiters. *)
Theorem pendingPops_wait_in_reachable_worlds w : reachable w → wellFormed w.
Proof. intros [cs ->]. apply pp_wellFormed_execAll, pp_wellFormed_newWorld. Qed.

(** X23: [push] on an open queue with waiters hands the item to the oldest
    waiter: its promise is fulfilled with the item, no other promise changes,
    the other waiters keep their order, and nothing is buffered. *)
Theorem push_serves_oldest_pendingPop item p rest w :
  wellFormed w → closed (this w) = false → pendingPops (this w) = p :: rest →
  ∃ w', push item w = (Normal, w') ∧
        promises w' !! p = Some (Fulfilled item) ∧
        (∀ p', p' ≠ p → promises w' !! p' = promises w !! p') ∧
        pendingPops (this w') = rest ∧ queue (this w') = [] ∧
        closed (this w') = false.
Proof.
  intros [Hnd Hpend Hex Hcl] Hclosed Hpops. unfold push.
  rewrite Hclosed, Hpops. eexists. split; [done|]. simpl. split_and!.
  - apply pp_settle_pending, Hpend. rewrite Hpops. by left.
  - intros p' Hne. by apply pp_settle_lookup_ne.
  - done.
  - destruct Hex as [?|Hn]; [done|]. by rewrite Hpops in Hn.
  - done.
Qed.

(** X24: [close] rejects every waiter with 'Queue is closed' and changes no
    other promise.  It keeps the buffered items, and closing again changes
    nothing. *)
Theorem close_rejects_pendingPops w :
  wellFormed w →
  (∀ p, p ∈ pendingPops (this w) →
        promises (close w) !! p = Some (Rejected QueueClosed)) ∧
  (∀ p, p ∉ pendingPops (this w) → promises (close w) !! p = promises w !! p) ∧
  queue (this (close w)) = queue (this w) ∧
  isClosed (close w) = true ∧
  close (close w) = close w.
Proof.
  intros [Hnd Hpend Hex Hcl]. split_and!; try done.
  - intros p Hp. simpl. apply pp_rejectAll_in; [done|]. by apply Hpend.
  - intros p Hp. simpl. by apply pp_rejectAll_notin.
Qed.

Lemma pp_popN_S n w :
  popN (S n) w =
  let '(ps, w1) := popN n w in let '(p, w2) := pop w1 in (ps ++ [p], w2).
Proof. done. Qed.

Lemma pp_popN_closed n : ∀ w,
  closed (this w) = true →
  popN n w =
    (seq (length (promises w)) n,
     {| this := {| queue := drop n (queue (this w));
                   pendingPops := pendingPops (this w); closed := true |};
        promises := promises w ++ (Fulfilled <$> take n (queue (this w)))
                    ++ replicate (n - length (queue (this w)))
                                 (Rejected QueueClosed) |}).
Proof.
  induction n as [|n IH]; intros w Hclosed.
  - destruct w as [[q pops c] ps]. simpl in *. subst c.
    unfold popN. simpl. by rewrite drop_0, app_nil_r.
  - rewrite pp_popN_S, (IH w Hclosed). unfold pop. cbn [this queue promises].
    rewrite seq_S. rewrite !length_app, length_fmap, length_replicate, length_take.
    destruct (drop n (queue (this w))) as [|item rest] eqn:Hdrop.
    + apply drop_nil_inv in Hdrop.
      replace (length (promises w) + (n `min` length (queue (this w))
               + (n - length (queue (this w))))) with (length (promises w) + n) by lia.
      cbn [closed negb]. f_equal. f_equal.
      * f_equal. rewrite drop_ge by lia. done.
      * rewrite <- !app_assoc. f_equal. rewrite !take_ge by lia. f_equal.
        replace (S n - length (queue (this w)))
          with (S (n - length (queue (this w)))) by lia.
        by rewrite replicate_S_end.
    + assert (queue (this w) !! n = Some item) as Hn.
      { pose proof (lookup_drop (queue (this w)) n 0) as H.
        rewrite Hdrop, Nat.add_0_r in H. done. }
      pose proof (lookup_lt_Some _ _ _ Hn) as Hlt.
      replace (length (promises w) + (n `min` length (queue (this w))
               + (n - length (queue (this w))))) with (length (promises w) + n) by lia.
      f_equal. f_equal.
      * f_equal. rewrite (drop_S _ _ _ Hn) in Hdrop. by injection Hdrop as ->.
      * replace (n - length (queue (this w))) with 0 by lia.
        replace (S n - length (queue (this w))) with 0 by lia.
        simpl. rewrite !app_nil_r, <- app_assoc. f_equal.
        by rewrite (take_S_r _ _ _ Hn), fmap_app.
Qed.

(** X25: [close] does not drop the buffer.  The pops that come after it are
    served from the buffer, oldest item first, in promises that are fulfilled
    from the start; only when the buffer is empty are pops rejected with
    'Queue is closed'.  None of them is left waiting. *)
Theorem late_pops_drain_buffer k w :
  ∃ (got : list nat) w',
    popN (length (queue (this w)) + k) (close w) = (got, w') ∧
    (λ p, promises w' !! p) <$> got
      = (Some ∘ Fulfilled <$> queue (this w))
        ++ replicate k (Some (Rejected QueueClosed)) ∧
    queue (this w') = [] ∧ pendingPops (this w') = [] ∧ isClosed w' = true.
Proof.
  eexists _, _. split; [by apply pp_popN_closed|].
  cbn [this queue promises pendingPops close isClosed closed].
  split_and!; [|by rewrite drop_ge by lia|done|done].
  set (ps0 := foldl _ _ _).
  rewrite take_ge by lia.
  replace (length (queue (this w)) + k - length (queue (this w))) with k by lia.
  apply list_eq. intros i.
  rewrite list_lookup_fmap.
  destruct (decide (i < length (queue (this w)) + k)) as [Hi|Hi].
  - rewrite lookup_seq_lt by done. simpl.
    rewrite lookup_app_r by lia.
    replace (length ps0 + i - length ps0) with i by lia.
    destruct (decide (i < length (queue (this w)))) as [Hq|Hq].
    + rewrite !lookup_app_l by (rewrite ?length_fmap; lia).
      rewrite !list_lookup_fmap.
      destruct (lookup_lt_is_Some_2 (queue (this w)) i Hq) as [x ->]. done.
    + rewrite !lookup_app_r by (rewrite ?length_fmap; lia).
      rewrite !length_fmap.
      rewrite !lookup_replicate_2 by lia. done.
  - rewrite lookup_seq_ge by lia. simpl. symmetry. apply lookup_ge_None.
    rewrite length_app, length_fmap, length_replicate. lia.
Qed.

Lemma pp_closed_execAll cs : ∀ w,
  closed (this w) = true → pendingPops (this w) = [] →
  closed (this (execAll cs w)) = true ∧ pendingPops (this (execAll cs w)) = [] ∧
  ∃ n, queue (this (execAll cs w)) = drop n (queue (this w)).
Proof.
  induction cs as [|c cs IH]; intros w Hc Hp.
  - split_and!; [done|done|]. by exists 0.
  - simpl.
    assert (closed (this (exec c w)) = true ∧ pendingPops (this (exec c w)) = [] ∧
            ∃ n, queue (this (exec c w)) = drop n (queue (this w))) as (Hc1 & Hp1 & n & Hq1).
    { destruct c as [item| |]; simpl.
      - unfold push. rewrite Hc. split_and!; [done|done|]. by exists 0.
      - unfold pop. destruct (queue (this w)) as [|item rest] eqn:Hq.
        + rewrite Hc. simpl. split_and!; [done|done|]. exists 0. by rewrite Hq.
        + simpl. split_and!; [done|done|]. by exists 1.
      - split_and!; [done|done|]. by exists 0. }
    destruct (IH _ Hc1 Hp1) as (? & ? & m & Hq). split_and!; [done|done|].
    exists (n + m). by rewrite Hq, Hq1, drop_drop.
Qed.

(** X26: a closed queue stays closed whatever is called on it: it never has
    waiters again, every [push] throws 'Queue is closed' and changes nothing,
    and the buffer can only lose items from its front. *)
Theorem closed_pendingPops_queue_only_drains cs w :
  let w' := execAll cs (close w) in
  isClosed w' = true ∧ pendingPops (this w') = [] ∧
  (∃ n, queue (this w') = drop n (queue (this w))) ∧
  ∀ item, push item w' = (Throw QueueClosed, w').
Proof.
  destruct (pp_closed_execAll cs (close w)) as (Hc & Hp & Hq); [done..|].
  split_and!; [done|done|done|].
  intros item. unfold push. by rewrite Hc.
Qed.

Lemma pp_settled_exec c w p s :
  promises w !! p = Some s → s ≠ Pending → promises (exec c w) !! p = Some s.
Proof.
  intros Hp Hs. destruct c as [item| |]; simpl.
  - unfold push. destruct (closed (this w)); [done|].
    destruct (pendingPops (this w)); simpl; [done|]. by apply pp_settle_keeps.
  - unfold pop. destruct (queue (this w)); [destruct (closed (this w))|]; simpl;
      by apply lookup_app_l_Some.
  - by apply pp_rejectAll_keeps.
Qed.

Lemma pp_settled_execAll cs : ∀ w p s,
  promises w !! p = Some s → s ≠ Pending → promises (execAll cs w) !! p = Some s.
Proof.
  induction cs as [|c cs IH]; intros w p s Hp Hs; [done|]. simpl.
  apply IH; [|done]. by apply pp_settled_exec.
Qed.

(** X27: a promise that is settled keeps its outcome through every later
    call of [push], [pop] and [close]. *)
Theorem pendingPops_settled_forever cs w p s :
  promises w !! p = Some s → s ≠ Pending →
  promises (execAll cs w) !! p = Some s.
Proof. apply pp_settled_execAll. Qed.

Lemma pp_pushAll_buffers (items : list T) : ∀ rs w,
  closed (this w) = false → pendingPops (this w) = [] →
  foldl (λ '(rs, w) item, let '(r, w) := push item w in (rs ++ [r], w))
        (rs, w) items
  = (rs ++ replicate (length items) Normal,
     {| this := {| queue := queue (this w) ++ items; pendingPops := [];
                   closed := false |};
        promises := promises w |}).
Proof.
  induction items as [|item items IH]; intros rs w Hc Hp.
  - simpl. rewrite !app_nil_r. destruct w as [[q pops c] ps]. simpl in *. by subst.
  - cbn [foldl]. unfold push at 2. rewrite Hc, Hp.
    rewrite IH by done. cbn [this queue promises length replicate].
    rewrite <- !app_assoc. done.
Qed.

Lemma pp_popN_buffered n : ∀ w,
  n ≤ length (queue (this w)) →
  popN n w =
    (seq (length (promises w)) n,
     {| this := {| queue := drop n (queue (this w));
                   pendingPops := pendingPops (this w);
                   closed := closed (this w) |};
        promises := promises w ++ (Fulfilled <$> take n (queue (this w))) |}).
Proof.
  induction n as [|n IH]; intros w Hn.
  - destruct w as [[q pops c] ps]. unfold popN. simpl. by rewrite drop_0, app_nil_r.
  - rewrite pp_popN_S, IH by lia. unfold pop. cbn [this queue promises pendingPops closed].
    destruct (lookup_lt_is_Some_2 (queue (this w)) n) as [item Hitem]; [lia|].
    rewrite (drop_S _ _ _ Hitem), seq_S, length_app, length_fmap, length_take.
    replace (n `min` length (queue (this w))) with n by lia.
    by rewrite (take_S_r _ _ _ Hitem), fmap_app, <- app_assoc.
Qed.

(** X28: first in, first out.  On an open queue without waiters, pushing a
    list of items never throws, and popping as often as there are items then
    returns promises that are fulfilled from the start with the items that
    were buffered before, followed by the pushed ones, in order. *)
Theorem pendingPops_fifo (items : list T) w :
  closed (this w) = false → pendingPops (this w) = [] →
  ∃ w1 (got : list nat) w2,
    pushAll items w = (replicate (length items) Normal, w1) ∧
    popN (length (queue (this w) ++ items)) w1 = (got, w2) ∧
    (λ p, promises w2 !! p) <$> got
      = Some ∘ Fulfilled <$> (queue (this w) ++ items) ∧
    queue (this w2) = [] ∧ pendingPops (this w2) = [].
Proof.
  intros Hc Hp. eexists _, _, _. split_and!.
  - unfold pushAll. by rewrite pp_pushAll_buffers.
  - by apply pp_popN_buffered.
  - cbn [this queue promises]. rewrite take_ge by done.
    set (l := queue (this w) ++ items).
    apply list_eq. intros i. rewrite !list_lookup_fmap.
    destruct (decide (i < length l)) as [Hi|Hi].
    + rewrite lookup_seq_lt by done. simpl.
      rewrite lookup_app_r by lia.
      replace (length (promises w) + i - length (promises w)) with i by lia.
      rewrite list_lookup_fmap.
      destruct (lookup_lt_is_Some_2 l i Hi) as [x ->]. done.
    + rewrite lookup_seq_ge by lia. rewrite lookup_ge_None_2 by lia. done.
  - cbn [this queue]. by rewrite drop_ge.
  - done.
Qed.

End PendingPopsFacts.

Lemma push_serves_oldest_pendingPop_witness :
  let w := (PendingPops.pop (PendingPops.pop (@PendingPops.newWorld string)).2).2 in
  ∃ w', PendingPops.push "hi" w = (Normal, w') ∧
        PendingPops.promises w' !! 0 = Some (Fulfilled "hi") ∧
        (∀ p', p' ≠ 0 →
               PendingPops.promises w' !! p' = PendingPops.promises w !! p') ∧
        PendingPops.pendingPops (PendingPops.this w') = [1] ∧
        PendingPops.queue (PendingPops.this w') = [] ∧
        PendingPops.closed (PendingPops.this w') = false.
Proof.
  intros w. apply (push_serves_oldest_pendingPop "hi" 0 [1] w).
  - apply (pp_wellFormed_execAll [PendingPops.CPop; PendingPops.CPop]),
      pp_wellFormed_newWorld.
  - reflexivity.
  - reflexivity.
Defined.

Lemma pendingPops_wait_in_reachable_worlds_witness :
  PendingPops.wellFormed
    (PendingPops.execAll [PendingPops.CPop; PendingPops.CPush "hi"]
                         PendingPops.newWorld).
Proof.
  apply pendingPops_wait_in_reachable_worlds.
  by exists [PendingPops.CPop; PendingPops.CPush "hi"].
Defined.

Lemma close_rejects_pendingPops_witness :
  let w := (PendingPops.pop (@PendingPops.newWorld string)).2 in
  (∀ p, p ∈ PendingPops.pendingPops (PendingPops.this w) →
        PendingPops.promises (PendingPops.close w) !! p
          = Some (Rejected QueueClosed)) ∧
  (∀ p, p ∉ PendingPops.pendingPops (PendingPops.this w) →
        PendingPops.promises (PendingPops.close w) !! p
          = PendingPops.promises w !! p) ∧
  PendingPops.queue (PendingPops.this (PendingPops.close w))
    = PendingPops.queue (PendingPops.this w) ∧
  PendingPops.isClosed (PendingPops.close w) = true ∧
  PendingPops.close (PendingPops.close w) = PendingPops.close w.
Proof.
  intros w. apply (close_rejects_pendingPops w).
  apply (pp_wellFormed_execAll [PendingPops.CPop]), pp_wellFormed_newWorld.
Defined.

Lemma pendingPops_settled_forever_witness :
  let w := (PendingPops.pop (PendingPops.push "hi" PendingPops.newWorld).2).2 in
  PendingPops.promises
    (PendingPops.execAll [PendingPops.CClose; PendingPops.CPop] w) !! 0
  = Some (Fulfilled "hi").
Proof.
  intros w.
  apply (pendingPops_settled_forever [PendingPops.CClose; PendingPops.CPop] w 0).
  - reflexivity.
  - discriminate.
Defined.

Lemma pendingPops_fifo_witness :
  let w := (PendingPops.push "a" (@PendingPops.newWorld string)).2 in
  ∃ w1 ps w2,
    PendingPops.pushAll ["b"; "c"] w = (replicate 2 Normal, w1) ∧
    PendingPops.popN (length (PendingPops.queue (PendingPops.this w) ++ ["b"; "c"])) w1
      = (ps, w2) ∧
    (λ p, PendingPops.promises w2 !! p) <$> ps
      = Some ∘ Fulfilled <$> (PendingPops.queue (PendingPops.this w) ++ ["b"; "c"]) ∧
    PendingPops.queue (PendingPops.this w2) = [] ∧
    PendingPops.pendingPops (PendingPops.this w2) = [].
Proof.
  intros w. apply (pendingPops_fifo ["b"; "c"] w); reflexivity.
Defined.
